(** * Compressed FM-index: a shallow embedding of the core and its properties

    The development follows the C++ sources of the index:
    - [BitVector]         core/bitvector.{hpp,cpp}
    - [PgmModel]          learned/pgm.hpp
    - [BitvectorLearned]  core/bitvector_learned.{hpp,cpp}
    - [WaveletTree]       core/wavelet.{hpp,cpp}
    - [VebLayout]         layout/veb.hpp
    - [FMIndex]           api/fm_index.{hpp,cpp}, core/sais.hpp, core/bwt.hpp, core/ssa.hpp
    - [IndexWriter]       serialization/serialization.{hpp,cpp}

    Conventions.  A [size_t] / [uint64_t] index or counter is a [nat]; a value
    stored in a fixed-width cell (a 64-bit word, a [uint32_t] or [uint16_t]
    table entry, a [uint8_t] symbol) is a [Z], and every narrowing store is
    written out with its wrap-around ([u16], [u32], [u64], [i32]).  A
    [std::string] is a [list byte]; the casts from [char] to [uint8_t] that
    the code performs are the calls to [byte_val]. *)

From Stdlib Require Import ZArith List Lia ZifyNat Bool Arith PeanoNat Permutation Sorted.
From Stdlib.Strings Require Import Byte.
From Stdlib.Strings Require String.
From Stdlib Require SpecFloat.
Import ListNotations.

#[global] Arguments Nat.div : simpl never.
#[global] Arguments Nat.modulo : simpl never.
#[global] Arguments Nat.mul : simpl never.
#[global] Arguments Nat.sub : simpl never.
#[global] Arguments Nat.min : simpl never.
#[global] Arguments Nat.max : simpl never.

(* ------------------------------------------------------------------ *)
(** * Machine integers and loops *)

Definition u16 (z : Z) : Z := (z mod 2 ^ 16)%Z.
Definition u32 (z : Z) : Z := (z mod 2 ^ 32)%Z.
Definition u64 (z : Z) : Z := (z mod 2 ^ 64)%Z.

(** Two's complement reading of the low 32 bits ([static_cast<int32_t>]). *)
Definition i32 (z : Z) : Z := ((z + 2 ^ 31) mod 2 ^ 32 - 2 ^ 31)%Z.

(** [~0ULL]. *)
Definition ALL_ONES : Z := (2 ^ 64 - 1)%Z.

(** [x << k] and [x >> k] on [uint64_t]. *)
Definition shl64 (x : Z) (k : nat) : Z := u64 (Z.shiftl x (Z.of_nat k)).
Definition shr64 (x : Z) (k : nat) : Z := Z.shiftr x (Z.of_nat k).

(** [popcount64] (util/bitops.hpp): whichever branch is compiled
    ([_mm_popcnt_u64], [__popcnt64], [__builtin_popcountll] or
    [std::popcount]), the number of 1-bits of the 64-bit word. *)
Definition popcount64 (w : Z) : nat :=
  length (filter (fun k => Z.testbit w (Z.of_nat k)) (seq 0 64)).

(** [for (size_t i = lo; i < lo + cnt; ++i) st = body(i, st);] *)
Fixpoint for_count {St : Type} (cnt lo : nat) (body : nat -> St -> St) (st : St) : St :=
  match cnt with
  | O => st
  | S cnt' => for_count cnt' (S lo) body (body lo st)
  end.

(** [for (size_t i = lo; i < hi; ++i) st = body(i, st);] *)
Definition for_loop {St : Type} (lo hi : nat) (body : nat -> St -> St) (st : St) : St :=
  for_count (hi - lo) lo body st.

(** The same loop whose body may [break]. *)
Inductive ctl (St : Type) : Type :=
| Next (st : St)
| Break (st : St).
Arguments Next {St} st.
Arguments Break {St} st.

Fixpoint for_count_break {St : Type} (cnt lo : nat) (body : nat -> St -> ctl St) (st : St) : St :=
  match cnt with
  | O => st
  | S cnt' =>
      match body lo st with
      | Next st' => for_count_break cnt' (S lo) body st'
      | Break st' => st'
      end
  end.

Definition for_loop_break {St : Type} (lo hi : nat) (body : nat -> St -> ctl St) (st : St) : St :=
  for_count_break (hi - lo) lo body st.

(** [v[i] = x] on a vector (nothing is written when [i] is out of range; the
    code never does that on the paths modelled here). *)
Fixpoint vec_set {A : Type} (i : nat) (x : A) (v : list A) : list A :=
  match v, i with
  | [], _ => []
  | _ :: t, O => x :: t
  | h :: t, S i' => h :: vec_set i' x t
  end.

(* ------------------------------------------------------------------ *)
(** * BitVector (core/bitvector.hpp, core/bitvector.cpp) *)

Module BitVector.

Definition CS_SUPER_BLOCK_SIZE : nat := 2048.
Definition CS_SUB_BLOCK_SIZE : nat := 256.

Record t : Type := mk {
  nbits_ : nat;          (* logical bit count *)
  bits_ : list Z;        (* packed 64-bit words *)
  super_ : list Z;       (* uint32_t absolute ranks *)
  blocks_ : list Z       (* uint16_t relative ranks *)
}.

(** A default-constructed [BitVector]. *)
Definition empty : t := mk 0 [] [] [].

(** [if (bits[i])] on a [uint8_t]. *)
Definition truthy (b : Z) : bool := negb (b =? 0)%Z.

(** Step 1 of [build]: pack the bits into 64-bit words, LSB first. *)
Definition pack (bits : list Z) : list Z :=
  let nbits := length bits in
  let nwords := (nbits + 63) / 64 in
  for_loop 0 nbits
    (fun i words =>
       if truthy (nth i bits 0%Z) then
         let word_idx := i / 64 in
         let bit_idx := i mod 64 in
         vec_set word_idx (Z.lor (nth word_idx words 0%Z) (shl64 1 bit_idx)) words
       else words)
    (repeat 0%Z nwords).

(** The word loop of [build]: popcount of the words of one sub-block, masked
    to [[sub_start_bit, sub_end_bit)].  The state is
    [(local_rank, running_rank)]. *)
Definition build_words (words : list Z) (sub_start_bit sub_end_bit : nat)
    (st : nat * nat) : nat * nat :=
  let word_start := sub_start_bit / 64 in
  let word_end := (sub_end_bit + 63) / 64 in
  for_loop word_start word_end
    (fun w '(local_rank, running_rank) =>
       let word := nth w words 0%Z in
       let word_bit_start := w * 64 in
       let word_bit_end := word_bit_start + 64 in
       let word :=
         if word_bit_start <? sub_start_bit
         then Z.land word (shl64 ALL_ONES (sub_start_bit - word_bit_start))
         else word in
       let word :=
         if sub_end_bit <? word_bit_end
         then Z.land word (shr64 ALL_ONES (word_bit_end - sub_end_bit))
         else word in
       let pop := popcount64 word in
       (local_rank + pop, running_rank + pop))
    st.

(** The sub-block loop of [build].  The state is
    [(blocks_, local_rank, running_rank)]. *)
Definition build_subs (words : list Z) (nbits super_start_bit super_end_bit : nat)
    (st : list Z * nat * nat) : list Z * nat * nat :=
  let SUB := CS_SUB_BLOCK_SIZE in
  let SUBS_PER_SUPER := CS_SUPER_BLOCK_SIZE / CS_SUB_BLOCK_SIZE in
  for_loop_break 0 SUBS_PER_SUPER
    (fun sub_offset '(blocks, local_rank, running_rank) =>
       let sub_start_bit := super_start_bit + sub_offset * SUB in
       if nbits <=? sub_start_bit then Break (blocks, local_rank, running_rank)
       else
         let blocks := blocks ++ [u16 (Z.of_nat local_rank)] in
         let sub_end_bit := Nat.min (sub_start_bit + SUB) super_end_bit in
         let '(local_rank, running_rank) :=
           build_words words sub_start_bit sub_end_bit (local_rank, running_rank) in
         Next (blocks, local_rank, running_rank))
    st.

(** Step 2 of [build]: the two-level rank index.  The state is
    [(super_, blocks_, running_rank)]. *)
Definition build_index (words : list Z) (nbits : nat) : list Z * list Z * nat :=
  let SUPER := CS_SUPER_BLOCK_SIZE in
  let num_supers := (nbits + SUPER - 1) / SUPER in
  for_loop 0 num_supers
    (fun super_idx '(super, blocks, running_rank) =>
       let super := super ++ [u32 (Z.of_nat running_rank)] in
       let super_start_bit := super_idx * SUPER in
       let super_end_bit := Nat.min (super_start_bit + SUPER) nbits in
       let '(blocks, _, running_rank) :=
         build_subs words nbits super_start_bit super_end_bit (blocks, 0, running_rank) in
       (super, blocks, running_rank))
    ([], [], 0).

(** [BitVector::build] on a fresh object. *)
Definition build (bits : list Z) : t :=
  let nbits := length bits in
  if nbits =? 0 then mk 0 [] [] []
  else
    let words := pack bits in
    let '(super, blocks, _) := build_index words nbits in
    mk nbits words super blocks.

Definition size (bv : t) : nat := nbits_ bv.

(** [BitVector::get]. *)
Definition get (bv : t) (i : nat) : Z :=
  if nbits_ bv <=? i then 0%Z
  else
    let word_idx := i / 64 in
    let bit_idx := i mod 64 in
    Z.land (shr64 (nth word_idx (bits_ bv) 0%Z) bit_idx) 1.

(** The loop of [count_ones] (the same text in [BitVector] and in
    [BitvectorLearned]): popcount of every word, the last one masked to the
    valid bits. *)
Definition count_ones_loop (nbits : nat) (words : list Z) : nat :=
  for_loop 0 (length words)
    (fun w total =>
       let word := nth w words 0%Z in
       let word :=
         if nbits <? (w + 1) * 64 then
           let valid_bits := nbits - w * 64 in
           Z.land word (shl64 1 valid_bits - 1)
         else word in
       total + popcount64 word)
    0.

(** [BitVector::count_ones]. *)
Definition count_ones (bv : t) : nat := count_ones_loop (nbits_ bv) (bits_ bv).

(** The tail loop shared by [rank1] here and in the learned variant:
    [for (w = word_start; w <= word_end && w < bits_.size(); ++w)], popcount
    of the bits in [[lo_bit, i)]. *)
Definition tail_popcount (words : list Z) (lo_bit i : nat) (acc : nat) : nat :=
  let word_start := lo_bit / 64 in
  let word_end := (i - 1) / 64 in
  for_loop word_start (Nat.min (word_end + 1) (length words))
    (fun w rank =>
       let word := nth w words 0%Z in
       let word_bit_start := w * 64 in
       let word :=
         if word_bit_start <? lo_bit
         then Z.land word (shl64 ALL_ONES (lo_bit - word_bit_start))
         else word in
       let word_bit_end := word_bit_start + 64 in
       let word :=
         if i <? word_bit_end then
           let keep_bits := i - word_bit_start in
           if keep_bits <? 64 then Z.land word (shl64 1 keep_bits - 1) else word
         else word in
       rank + popcount64 word)
    acc.

(** [BitVector::rank1]. *)
Definition rank1 (bv : t) (i : nat) : nat :=
  if i =? 0 then 0
  else if nbits_ bv <=? i then count_ones bv
  else
    let SUPER := CS_SUPER_BLOCK_SIZE in
    let SUB := CS_SUB_BLOCK_SIZE in
    let super_idx := i / SUPER in
    let rank := Z.to_nat (nth super_idx (super_ bv) 0%Z) in
    let super_start := super_idx * SUPER in
    let offset_in_super := i - super_start in
    if offset_in_super =? 0 then rank
    else
      let sub_offset := offset_in_super / SUB in
      let blocks_base := super_idx * (SUPER / SUB) in
      let block_idx := blocks_base + sub_offset in
      let rank :=
        if block_idx <? length (blocks_ bv)
        then rank + Z.to_nat (nth block_idx (blocks_ bv) 0%Z)
        else rank in
      let sub_start := super_start + sub_offset * SUB in
      if i =? sub_start then rank
      else tail_popcount (bits_ bv) sub_start i rank.

(** [BitVector::rank0]. *)
Definition rank0 (bv : t) (i : nat) : nat :=
  let i := if nbits_ bv <? i then nbits_ bv else i in
  i - rank1 bv i.

End BitVector.

(** The reference the tests compare with ([naive_rank]): the number of set
    bits among the first [i]. *)
Definition naive_rank (bits : list Z) (i : nat) : nat :=
  length (filter BitVector.truthy (firstn i bits)).

(* ------------------------------------------------------------------ *)
(** * PgmModel (learned/pgm.hpp) *)

(** [float] and [double] are IEEE 754 binary32 and binary64.  Every
    operation is rounded on its own to nearest, ties to even (no fused
    multiply-add, no intermediate of higher precision). *)
Module Float32.

Definition prec : Z := 24.
Definition emax : Z := 128.

Definition zero : SpecFloat.spec_float := SpecFloat.S754_zero false.

(** [static_cast<float>(z)] of an integer. *)
Definition of_Z (z : Z) : SpecFloat.spec_float :=
  SpecFloat.binary_normalize prec emax z 0 false.

(** [static_cast<float>(d)] of a [double]. *)
Definition of_double (d : SpecFloat.spec_float) : SpecFloat.spec_float :=
  match d with
  | SpecFloat.S754_finite s m e => SpecFloat.binary_round prec emax s m e
  | _ => d
  end.

Definition add := SpecFloat.SFadd prec emax.
Definition mul := SpecFloat.SFmul prec emax.

(** [std::round]: to the nearest integer, halfway cases away from zero. *)
Definition round (y : SpecFloat.spec_float) : SpecFloat.spec_float :=
  match y with
  | SpecFloat.S754_finite s m e =>
      if (0 <=? e)%Z then y
      else
        let d := (2 ^ (- e))%Z in
        let q := (Zpos m / d)%Z in
        let r := (Zpos m mod d)%Z in
        let z := if (d <=? 2 * r)%Z then (q + 1)%Z else q in
        SpecFloat.binary_normalize prec emax (if s then - z else z)%Z 0 s
  | _ => y
  end.

(** [static_cast<int32_t>(y)]: the fraction is dropped; there is no result
    ([None]) for a NaN, an infinity or a value outside the [int32_t]
    range, where the conversion is undefined. *)
Definition to_int32 (y : SpecFloat.spec_float) : option Z :=
  match y with
  | SpecFloat.S754_zero _ => Some 0%Z
  | SpecFloat.S754_finite s m e =>
      let mag := if (0 <=? e)%Z then (Zpos m * 2 ^ e)%Z else (Zpos m / 2 ^ (- e))%Z in
      let z := if s then (- mag)%Z else mag in
      if (- 2 ^ 31 <=? z)%Z && (z <? 2 ^ 31)%Z then Some z else None
  | _ => None
  end.

End Float32.

Module Float64.

Definition prec : Z := 53.
Definition emax : Z := 1024.

Definition zero : SpecFloat.spec_float := SpecFloat.S754_zero false.

(** [static_cast<double>(z)] of an integer. *)
Definition of_Z (z : Z) : SpecFloat.spec_float :=
  SpecFloat.binary_normalize prec emax z 0 false.

(** The promotion of a [float] to [double], which is exact. *)
Definition of_float (f : SpecFloat.spec_float) : SpecFloat.spec_float :=
  match f with
  | SpecFloat.S754_finite s m e => SpecFloat.binary_round prec emax s m e
  | _ => f
  end.

Definition add := SpecFloat.SFadd prec emax.
Definition sub := SpecFloat.SFsub prec emax.
Definition mul := SpecFloat.SFmul prec emax.
Definition div := SpecFloat.SFdiv prec emax.
Definition abs := SpecFloat.SFabs.
Definition ltb := SpecFloat.SFltb.

(** The literal [1e-10]: the double nearest to 1 / 10^10. *)
Definition lit_1e_10 : SpecFloat.spec_float := div (of_Z 1) (of_Z (10 ^ 10)).

End Float64.

Module PgmModel.

Record PgmSeg : Type := mkSeg {
  a : SpecFloat.spec_float;      (* float *)
  b : SpecFloat.spec_float;      (* float *)
  lo_idx : Z;                    (* uint32_t *)
  hi_idx : Z                     (* uint32_t *)
}.

Record t : Type := mk { segs : list PgmSeg }.

(** A default-constructed [PgmModel]: no segment. *)
Definition default : t := mk [].

(** [PgmModel::fit(xs, ys, eps)]; [eps] is not used by the code.  The
    state of the summing loop is [(sum_x, sum_y, sum_xy, sum_x2)]. *)
Definition fit (xs ys : list Z) : t :=
  if (length xs =? 0) || (length ys =? 0) || negb (length xs =? length ys) then
    mk [mkSeg Float32.zero Float32.zero 0 1]
  else
    let n := length xs in
    let '(sum_x, sum_y, sum_xy, sum_x2) :=
      for_loop 0 n
        (fun i '(sum_x, sum_y, sum_xy, sum_x2) =>
           let x := Float64.of_Z (nth i xs 0%Z) in
           let y := Float64.of_Z (nth i ys 0%Z) in
           (Float64.add sum_x x,
            Float64.add sum_y y,
            Float64.add sum_xy (Float64.mul x y),
            Float64.add sum_x2 (Float64.mul x x)))
        (Float64.zero, Float64.zero, Float64.zero, Float64.zero) in
    let n_d := Float64.of_Z (Z.of_nat n) in
    let denom := Float64.sub (Float64.mul n_d sum_x2) (Float64.mul sum_x sum_x) in
    let '(a, b) :=
      if Float64.ltb (Float64.abs denom) Float64.lit_1e_10 then
        (Float32.zero, Float32.of_double (Float64.div sum_y n_d))
      else
        let a :=
          Float32.of_double
            (Float64.div
               (Float64.sub (Float64.mul n_d sum_xy) (Float64.mul sum_x sum_y))
               denom) in
        let b :=
          Float32.of_double
            (Float64.div
               (Float64.sub sum_y (Float64.mul (Float64.of_float a) sum_x))
               n_d) in
        (a, b) in
    mk [mkSeg a b 0 (u32 (Z.of_nat n))].

(** [PgmModel::find_seg]. *)
Definition find_seg (M : t) (x : Z) : Z := 0%Z.

(** [PgmModel::predict], from a [uint32_t] to an [int32_t]; [None] where
    the final conversion is undefined. *)
Definition predict (M : t) (x : Z) : option Z :=
  match segs M with
  | [] => Some 0%Z
  | seg :: _ =>
      let y := Float32.add (Float32.mul (a seg) (Float32.of_Z x)) (b seg) in
      Float32.to_int32 (Float32.round y)
  end.

(** [PgmModel::predict_prefix]. *)
Definition predict_prefix (M : t) (x : Z) : option Z := predict M x.

End PgmModel.

(* ------------------------------------------------------------------ *)
(** * BitvectorLearned (core/bitvector_learned.hpp, core/bitvector_learned.cpp) *)

Module BitvectorLearned.

Definition CS_MAX_TAIL_POPCOUNTS_R : nat := 2.

Record t : Type := mk {
  nbits_ : nat;
  S_ : nat;                (* coarse stride *)
  s_ : nat;                (* micro stride *)
  bits_ : list Z;          (* packed 64-bit words *)
  pgm_ : PgmModel.t;
  residuals_ : list Z      (* int32_t micro corrections *)
}.

(** [for (k = lo; k < hi; ++k) if (bits[k]) ++rank;] *)
Definition accumulate (bits : list Z) (lo hi rank : nat) : nat :=
  for_loop lo hi
    (fun k rank => if BitVector.truthy (nth k bits 0%Z) then rank + 1 else rank)
    rank.

(** Step 2 of [build]: the coarse samples [(coarse_x, coarse_y)]. *)
Definition coarse_samples (bits : list Z) (S : nat) : list Z * list Z :=
  let nbits := length bits in
  let '(xs, ys, _) :=
    for_loop 0 ((nbits + S - 1) / S + 1)
      (fun j '(coarse_x, coarse_y, running_rank) =>
         let pos := Nat.min (j * S) nbits in
         let coarse_x := coarse_x ++ [u32 (Z.of_nat pos)] in
         let coarse_y := coarse_y ++ [u32 (Z.of_nat running_rank)] in
         let running_rank :=
           if pos <? nbits then
             let next_pos := Nat.min ((j + 1) * S) nbits in
             accumulate bits pos next_pos running_rank
           else running_rank in
         (coarse_x, coarse_y, running_rank))
      ([], [], 0) in
  (xs, ys).

(** The micro loop of step 4, for coarse block [j].  The state is
    [(residuals_, local_rank)]. *)
Definition build_micros (bits : list Z) (S s : nat) (pgm_pred : Z)
    (j running_rank : nat) (st : list Z * nat) : list Z * nat :=
  let nbits := length bits in
  let mics_per_coarse := S / s in
  let coarse_start := j * S in
  for_loop_break 0 mics_per_coarse
    (fun m '(residuals, local_rank) =>
       let mic_start := coarse_start + m * s in
       if nbits <=? mic_start then Break (residuals, local_rank)
       else
         let residual := i32 (i32 (Z.of_nat (running_rank + local_rank)) - pgm_pred) in
         let residuals := vec_set (j * mics_per_coarse + m) residual residuals in
         let mic_end := Nat.min (mic_start + s) (Nat.min (coarse_start + S) nbits) in
         let local_rank := accumulate bits mic_start mic_end local_rank in
         Next (residuals, local_rank))
    st.

(** Step 4 of [build]: the residual of every micro-block.  The state of the
    loop is [(residuals_, running_rank)], or [None] once a prediction had
    no defined value. *)
Definition build_residuals (bits : list Z) (S s : nat) (pgm : PgmModel.t)
    : option (list Z) :=
  let nbits := length bits in
  let mics_per_coarse := S / s in
  let num_coarse_blocks := (nbits + S - 1) / S in
  match
    for_loop 0 num_coarse_blocks
      (fun j st =>
         match st with
         | None => None
         | Some (residuals, running_rank) =>
             let coarse_start := j * S in
             match PgmModel.predict pgm (u32 (Z.of_nat coarse_start)) with
             | None => None
             | Some pgm_pred =>
                 let '(residuals, local_rank) :=
                   build_micros bits S s pgm_pred j running_rank (residuals, 0) in
                 Some (residuals, running_rank + local_rank)
             end
         end)
      (Some (repeat 0%Z (num_coarse_blocks * mics_per_coarse), 0))
  with
  | Some (residuals, _) => Some residuals
  | None => None
  end.

(** [BitvectorLearned::build] on a fresh object.  For a non-empty input
    steps 2 and 4 divide by the coarse stride: with [S = 0] the build
    divides by zero and no object results ([None]), as when a prediction
    of step 4 has no defined value. *)
Definition build (bits : list Z) (S s : nat) : option t :=
  let nbits := length bits in
  if nbits =? 0 then Some (mk 0 S s [] PgmModel.default [])
  else if S =? 0 then None
  else
    let words := BitVector.pack bits in
    let '(coarse_x, coarse_y) := coarse_samples bits S in
    let pgm := PgmModel.fit coarse_x coarse_y in
    if (0 <? s) && (S mod s =? 0) then
      match build_residuals bits S s pgm with
      | Some residuals => Some (mk nbits S s words pgm residuals)
      | None => None
      end
    else Some (mk nbits S s words pgm []).

(** [BitvectorLearned::count_ones]. *)
Definition count_ones (bl : t) : nat :=
  BitVector.count_ones_loop (nbits_ bl) (bits_ bl).

(** [BitvectorLearned::rank1].  Past the two early returns the code divides
    by [S_] and then by [s_], and converts the prediction: there is no
    result ([None]) when a stride is 0 or the prediction has no defined
    value.  Both branches of the bounded-touch test run the word loop of
    [BitVector::rank1]. *)
Definition rank1 (bl : t) (i : nat) : option nat :=
  if i =? 0 then Some 0
  else if nbits_ bl <=? i then Some (count_ones bl)
  else
    let S := S_ bl in
    let s := s_ bl in
    if S =? 0 then None
    else
      let coarse_idx := i / S in
      let coarse_pos := coarse_idx * S in
      match PgmModel.predict (pgm_ bl) (u32 (Z.of_nat coarse_pos)) with
      | None => None
      | Some pred =>
          let offset_in_coarse := i - coarse_pos in
          if s =? 0 then None
          else
            let micro_idx := offset_in_coarse / s in
            let correction :=
              if negb (length (residuals_ bl) =? 0) && (0 <? s) then
                let mics_per_coarse := S / s in
                let residual_idx := coarse_idx * mics_per_coarse + micro_idx in
                if residual_idx <? length (residuals_ bl)
                then nth residual_idx (residuals_ bl) 0%Z
                else 0%Z
              else 0%Z in
            let micro_start := coarse_pos + micro_idx * s in
            let tail_len := i - micro_start in
            let tail_pop :=
              if 0 <? tail_len then
                let word_start := micro_start / 64 in
                let word_end := (i - 1) / 64 in
                let num_words := word_end - word_start + 1 in
                let max_words := CS_MAX_TAIL_POPCOUNTS_R in
                if num_words <=? max_words
                then BitVector.tail_popcount (bits_ bl) micro_start i 0
                else BitVector.tail_popcount (bits_ bl) micro_start i 0
              else 0 in
            let result := (pred + correction + Z.of_nat tail_pop)%Z in
            Some (if (result <? 0)%Z then 0 else Z.to_nat result)
      end.

(** The unpacking loop of [build_from_words]: bit [i] of the words, 0 where
    the words end. *)
Definition unpack (words : list Z) (nbits : nat) : list Z :=
  map (fun i =>
         let word_idx := i / 64 in
         let bit_idx := i mod 64 in
         if (word_idx <? length words)
            && negb (Z.land (shr64 (nth word_idx words 0%Z) bit_idx) 1 =? 0)%Z
         then 1%Z else 0%Z)
      (seq 0 nbits).

(** [BitvectorLearned::build_from_words]. *)
Definition build_from_words (words : list Z) (nbits : nat) (S s : nat) : option t :=
  build (unpack words nbits) S s.

End BitvectorLearned.

(* ------------------------------------------------------------------ *)
(** * WaveletTree (core/wavelet.hpp, core/wavelet.cpp) *)

Module WaveletTree.

Record t : Type := mk {
  n_ : nat;                       (* length of the BWT *)
  levels_ : list BitVector.t      (* std::array<BitVector, 8>, MSB first *)
}.

(** A default-constructed tree. *)
Definition empty : t := mk 0 (repeat BitVector.empty 8).

(** [(sym >> bit) & 1]. *)
Definition bit_of (sym : Z) (bit : nat) : Z :=
  Z.land (Z.shiftr sym (Z.of_nat bit)) 1.

(** The symbol loop of one level of [build].  The state is
    [(bitvec, left, right)]. *)
Definition split_level (bit : nat) (current : list Z) : list Z * list Z * list Z :=
  for_loop 0 (length current)
    (fun i '(bitvec, left_, right_) =>
       let sym := nth i current 0%Z in
       let bit_val := bit_of sym bit in
       let bitvec := vec_set i bit_val bitvec in
       if (bit_val =? 0)%Z
       then (bitvec, left_ ++ [sym], right_)
       else (bitvec, left_, right_ ++ [sym]))
    (repeat 0%Z (length current), [], []).

(** [WaveletTree::build] on a fresh object: [for (bit = 7; bit >= 0; --bit)],
    counted by [level = 7 - bit].  The state is [(current, levels_)]. *)
Definition build (bwt : list Z) : t :=
  let n := length bwt in
  if n =? 0 then mk 0 (repeat BitVector.empty 8)
  else
    let '(_, levels) :=
      for_loop 0 8
        (fun level '(current, levels) =>
           let bit := 7 - level in
           let '(bitvec, left_, right_) := split_level bit current in
           let levels := vec_set level (BitVector.build bitvec) levels in
           let current := if 0 <? bit then left_ ++ right_ else current in
           (current, levels))
        (bwt, repeat BitVector.empty 8) in
    mk n levels.

Definition size (wt : t) : nat := n_ wt.

(** State of the level loop of [rank]: still descending with the range
    [[start, end)], or returned from inside the loop. *)
Inductive rank_state : Type :=
| Descending (start end_ : nat)
| Returned (result : nat).

(** [WaveletTree::rank].  The first test returns 0 for [i > n_], so the
    clamp that follows it never applies. *)
Definition rank (wt : t) (c : Z) (i : nat) : nat :=
  if (i =? 0) || (n_ wt <? i) then 0
  else
    let i := if n_ wt <? i then n_ wt else i in
    let st :=
      for_loop_break 0 8
        (fun level st =>
           match st with
           | Returned r => Break (Returned r)
           | Descending start end_ =>
               let bit := 7 - level in
               let bit_val := bit_of c bit in
               let bv := nth level (levels_ wt) BitVector.empty in
               let '(start, end_) :=
                 if (bit_val =? 0)%Z then
                   let rank0_start := start - BitVector.rank1 bv start in
                   let rank0_end := end_ - BitVector.rank1 bv end_ in
                   (rank0_start, rank0_end)
                 else
                   let rank1_start := BitVector.rank1 bv start in
                   let rank1_end := BitVector.rank1 bv end_ in
                   let zeros_total :=
                     BitVector.size bv - BitVector.rank1 bv (BitVector.size bv) in
                   (zeros_total + rank1_start, zeros_total + rank1_end) in
               if end_ <=? start then Break (Returned 0)
               else Next (Descending start end_)
           end)
        (Descending 0 i) in
    match st with
    | Descending start end_ => end_ - start
    | Returned r => r
    end.

(** [WaveletTree::access], as compiled with [NDEBUG] (the [assert] on
    [i < n_] is then no code).  The state of the level loop is
    [(symbol, pos)]; [symbol |= (bit_val << bit)] stores a [uint8_t]. *)
Definition access (wt : t) (i : nat) : Z :=
  if n_ wt <=? i then 0%Z
  else
    fst (for_loop 0 8
           (fun level '(symbol, pos) =>
              let bit := 7 - level in
              let bv := nth level (levels_ wt) BitVector.empty in
              let bit_val := BitVector.get bv pos in
              let symbol :=
                (Z.lor symbol (Z.shiftl bit_val (Z.of_nat bit)) mod 2 ^ 8)%Z in
              if (bit_val =? 0)%Z then (symbol, pos - BitVector.rank1 bv pos)
              else
                let zeros_total :=
                  BitVector.size bv - BitVector.rank1 bv (BitVector.size bv) in
                (symbol, zeros_total + BitVector.rank1 bv pos))
           (0%Z, i)).

End WaveletTree.

(** The reference of the tests: occurrences of [c] among the first [i]
    symbols. *)
Definition naive_occ (text : list Z) (c : Z) (i : nat) : nat :=
  length (filter (Z.eqb c) (firstn i text)).

(* ------------------------------------------------------------------ *)
(** * FMIndex (api/fm_index.hpp, api/fm_index.cpp, core/sais.hpp,
      core/bwt.hpp, core/ssa.hpp) *)

(** [static_cast<uint8_t>] of a [char]. *)
Definition byte_val (b : byte) : Z := Z.of_N (Byte.to_N b).

(** [(uint32_t)T.size()]. *)
Definition size32 {A : Type} (v : list A) : nat := Z.to_nat (u32 (Z.of_nat (length v))).

(** [operator<] on [std::string]: lexicographic on the bytes as unsigned
    values, a proper prefix being smaller. *)
Fixpoint string_lt (x y : list byte) : bool :=
  match x, y with
  | _, [] => false
  | [], _ :: _ => true
  | a :: x', b :: y' =>
      if (byte_val a <? byte_val b)%Z then true
      else if (byte_val b <? byte_val a)%Z then false
      else string_lt x' y'
  end.

(** [std::sort(first, last, comp)], as an insertion sort.  Its result is the
    one arrangement that [comp] orders, whatever the algorithm, when no two
    elements are equivalent; the suffixes compared here are pairwise
    different. *)
Fixpoint sort_insert {A : Type} (comp : A -> A -> bool) (x : A) (l : list A) : list A :=
  match l with
  | [] => [x]
  | y :: l' => if comp x y then x :: l else y :: sort_insert comp x l'
  end.

Fixpoint std_sort {A : Type} (comp : A -> A -> bool) (l : list A) : list A :=
  match l with
  | [] => []
  | x :: l' => sort_insert comp x (std_sort comp l')
  end.

(** [T.substr(a)]. *)
Definition substr (T : list byte) (a : nat) : list byte := skipn a T.

(** [build_sa_naive] (core/sais.hpp). *)
Definition build_sa_naive (T : list byte) : list nat :=
  let n := size32 T in
  let sa := seq 0 n in
  std_sort (fun a b => string_lt (substr T a) (substr T b)) sa.

(** [build_bwt_from_sa] (core/bwt.hpp): [BWT[i]] for [i] in [[0, n)]. *)
Definition build_bwt_from_sa (T : list byte) (sa : list nat) : list byte :=
  let n := size32 T in
  map (fun i =>
         let idx := nth i sa 0 in
         if idx =? 0 then nth (n - 1) T x00 else nth (idx - 1) T x00)
      (seq 0 n).

Module FMIndex.

Record BuildParams : Type := mkParams {
  S : nat;
  s : nat;
  ssa_stride : nat
}.

Definition default_params : BuildParams := mkParams 512 64 32.

(** [struct SSA] (core/ssa.hpp). *)
Record SSA : Type := mkSSA {
  stride : nat;
  samples : list nat
}.

(** [SSA::sample_at]: the sample, or the exception for an index that is no
    multiple of the stride; [None] where the source divides by a zero
    stride or reads past the samples. *)
Inductive sampled : Type :=
| Sample (value : nat)
| Not_a_sample_index.

Definition sample_at (ssa : SSA) (i : nat) : option sampled :=
  if stride ssa =? 0 then None
  else if negb (i mod stride ssa =? 0) then Some Not_a_sample_index
  else if i / stride ssa <? length (samples ssa)
       then Some (Sample (nth (i / stride ssa) (samples ssa) 0))
       else None.

Record t : Type := mk {
  meta_n : nat;                 (* meta_.n *)
  text_ : list byte;
  bwt_ : list byte;
  sa_ : list nat;               (* uint32_t cells holding text positions *)
  C_ : list Z;                  (* uint32_t cumulative counts *)
  wavelet_ : WaveletTree.t;
  ssa_ : SSA
}.

(** Step 3 of [build_from_text]: the byte frequencies of the BWT. *)
Definition byte_freq (bwt : list byte) : list Z :=
  fold_left
    (fun freq ch =>
       let c := Z.to_nat (byte_val ch) in
       vec_set c (u32 (nth c freq 0%Z + 1)) freq)
    bwt (repeat 0%Z 256).

(** Step 3 of [build_from_text]: the cumulative table. *)
Definition build_C (bwt : list byte) : list Z :=
  let freq := byte_freq bwt in
  let '(C, cum) :=
    for_loop 0 256
      (fun c '(C, cum) => (vec_set c cum C, u32 (cum + nth c freq 0%Z)))
      (repeat 0%Z 257, 0%Z) in
  vec_set 256 cum C.

(** Step 5 of [build_from_text]: the sampled suffix array. *)
Definition build_ssa (sa : list nat) (ssa_stride : nat) : SSA :=
  let num_samples := (length sa + ssa_stride - 1) / ssa_stride in
  mkSSA ssa_stride
    (for_loop 0 (length sa)
       (fun i samples =>
          if i mod ssa_stride =? 0 then vec_set (i / ssa_stride) (nth i sa 0) samples
          else samples)
       (repeat 0 num_samples)).

(** [FMIndex::build_from_text].  Step 5 divides by the stride: with
    [ssa_stride = 0] the build divides by zero and no index results. *)
Definition build_from_text (text : list byte) (p : BuildParams) : option t :=
  let sa := build_sa_naive text in
  let bwt := build_bwt_from_sa text sa in
  let C := build_C bwt in
  let bwt_bytes := map byte_val bwt in
  let wavelet := WaveletTree.build bwt_bytes in
  if ssa_stride p =? 0 then None
  else Some (mk (length text) text bwt sa C wavelet (build_ssa sa (ssa_stride p))).

(** [occ(c, i)]. *)
Definition occ (idx : t) (c : Z) (i : nat) : nat := WaveletTree.rank (wavelet_ idx) c i.

(** [C_[c]] read into a [uint64_t]. *)
Definition C_at (idx : t) (c : Z) : nat := Z.to_nat (nth (Z.to_nat c) (C_ idx) 0%Z).

(** [LF(i)]. *)
Definition LF (idx : t) (i : nat) : nat :=
  if length (bwt_ idx) <=? i then 0
  else
    let c := byte_val (nth i (bwt_ idx) x00) in
    C_at idx c + occ idx c i.

(** The backward-search loop of [count] and [locate], over the pattern read
    right to left; [None] when the range becomes empty. *)
Fixpoint backward_search (idx : t) (rpattern : list byte) (sp ep : nat) : option (nat * nat) :=
  match rpattern with
  | [] => Some (sp, ep)
  | ch :: rest =>
      let c := byte_val ch in
      let sp := C_at idx c + occ idx c sp in
      let ep := C_at idx c + occ idx c ep in
      if ep <=? sp then None else backward_search idx rest sp ep
  end.

(** [FMIndex::count]. *)
Definition count (idx : t) (pattern : list byte) : nat :=
  if length pattern =? 0 then meta_n idx
  else if meta_n idx =? 0 then 0
  else
    match backward_search idx (rev pattern) 0 (meta_n idx) with
    | None => 0
    | Some (sp, ep) => ep - sp
    end.

(** The walk of [locate]:
    [while (bwt_pos % stride != 0 && steps < n) { bwt_pos = LF(bwt_pos); ++steps; }].
    Every round adds one to [steps], so [n] rounds of fuel are never used up
    before the guard fails. *)
Fixpoint lf_walk (idx : t) (fuel bwt_pos steps : nat) : nat * nat :=
  match fuel with
  | O => (bwt_pos, steps)
  | Datatypes.S fuel' =>
      if negb (bwt_pos mod stride (ssa_ idx) =? 0) && (steps <? meta_n idx)
      then lf_walk idx fuel' (LF idx bwt_pos) (steps + 1)
      else (bwt_pos, steps)
  end.

(** The outcome of [locate]: the positions, or one of its two exceptions. *)
Inductive located : Type :=
| Positions (positions : list nat)
| WalkExceeded                      (* "locate: LF walk exceeded text length" *)
| SampleOutOfRange (sample_idx size : nat).

(** The row loop of [locate]:
    [for (i = sp; i < ep && positions.size() < limit; ++i)]. *)
Fixpoint locate_rows (idx : t) (cnt i limit : nat) (positions : list nat) : located :=
  match cnt with
  | O => Positions positions
  | Datatypes.S cnt' =>
      if length positions <? limit then
        let '(bwt_pos, steps) := lf_walk idx (meta_n idx) i 0 in
        if meta_n idx <=? steps then WalkExceeded
        else
          let sample_idx := bwt_pos / stride (ssa_ idx) in
          if length (samples (ssa_ idx)) <=? sample_idx
          then SampleOutOfRange sample_idx (length (samples (ssa_ idx)))
          else
            let sa_val := nth sample_idx (samples (ssa_ idx)) 0 in
            let text_pos := (sa_val + steps) mod meta_n idx in
            locate_rows idx cnt' (i + 1) limit (positions ++ [text_pos])
      else Positions positions
  end.

(** [FMIndex::locate]. *)
Definition locate (idx : t) (pattern : list byte) (limit : nat) : located :=
  if (length pattern =? 0) || (meta_n idx =? 0) then Positions []
  else
    match backward_search idx (rev pattern) 0 (meta_n idx) with
    | None => Positions []
    | Some (sp, ep) => locate_rows idx (ep - sp) sp limit []
    end.

(** [FMIndex::extract]. *)
Definition extract (idx : t) (p len : nat) : list byte :=
  if length (text_ idx) <=? p then []
  else firstn (Nat.min len (length (text_ idx) - p)) (skipn p (text_ idx)).

End FMIndex.

(** The references of the tests ([naive_count], [naive_locate]): [p] occurs
    in [text] at [i]. *)
Definition occurs_at (text pattern : list byte) (i : nat) : bool :=
  (i + length pattern <=? length text)
  && forallb (fun k => Byte.eqb (nth k pattern x00) (nth (i + k) text x00))
       (seq 0 (length pattern)).

Definition naive_locate (text pattern : list byte) : list nat :=
  filter (occurs_at text pattern) (seq 0 (length text)).

Definition naive_count (text pattern : list byte) : nat :=
  length (naive_locate text pattern).

(* ------------------------------------------------------------------ *)
(** * VebLayout (layout/veb.hpp) *)

(** The bytes of an unsigned integer stored in [width] bytes, little end
    first (what [reinterpret_cast<const uint8_t*>] reads). *)
Fixpoint le_bytes (width : nat) (z : Z) : list Z :=
  match width with
  | O => []
  | Datatypes.S w => (z mod 256)%Z :: le_bytes w (z / 256)%Z
  end.

Module VebLayout.

Definition VEB_MACROBLOCK_SIZE : nat := 4096.
Definition VEB_TOP_LEVELS : nat := 2.

Record t : Type := mk {
  packed_data_ : list Z;        (* bytes *)
  level_offsets_ : list nat;
  num_levels_ : nat;
  top_k_ : nat
}.

(** [serialize_bitvector]: [nbits], the words, the super-block ranks and the
    sub-block ranks, appended to [out]. *)
Definition serialize_bitvector (bv : BitVector.t) (out : list Z) : list Z :=
  let out := out ++ le_bytes 8 (Z.of_nat (BitVector.size bv)) in
  let out := out ++ flat_map (le_bytes 8) (BitVector.bits_ bv) in
  let out := out ++ flat_map (le_bytes 4) (BitVector.super_ bv) in
  out ++ flat_map (le_bytes 2) (BitVector.blocks_ bv).

(** The padding to the next 4 KiB boundary, as [build] does it before a
    bottom level and at the end. *)
Definition pad_to_macroblock (packed : list Z) : list Z :=
  let remainder := length packed mod VEB_MACROBLOCK_SIZE in
  if negb (remainder =? 0) then
    let padding := VEB_MACROBLOCK_SIZE - remainder in
    packed ++ repeat 0%Z padding
  else packed.

(** [compute_veb_order]. *)
Definition compute_veb_order (start_level num_bottom_levels : nat) : list nat :=
  if num_bottom_levels =? 0 then []
  else if num_bottom_levels =? 1 then [0]
  else
    let mid := num_bottom_levels / 2 in
    let order := for_loop 0 mid (fun i order => order ++ [i]) [] in
    for_loop mid num_bottom_levels (fun i order => order ++ [i]) order.

(** The body of the bottom-level loop of [build], for entry [idx] of the
    order.  The state is [(level_offsets_, packed_data_)]. *)
Definition place_bottom_level (levels : list BitVector.t) (top_k_ : nat)
    (st : list nat * list Z) (idx : nat) : list nat * list Z :=
  let '(level_offsets, packed) := st in
  let level := top_k_ + idx in
  let packed := pad_to_macroblock packed in
  (vec_set level (length packed) level_offsets,
   serialize_bitvector (nth level levels BitVector.empty) packed).

(** The body of the top-level loop of [build]. *)
Definition place_top_level (levels : list BitVector.t)
    (i : nat) (st : list nat * list Z) : list nat * list Z :=
  let '(level_offsets, packed) := st in
  (vec_set i (length packed) level_offsets,
   serialize_bitvector (nth i levels BitVector.empty) packed).

(** [VebLayout::build]; the array [levels] has [num_levels] elements. *)
Definition build (levels : list BitVector.t) (top_k : nat) : t :=
  let num_levels := length levels in
  let top_k_ := Nat.min top_k num_levels in
  let level_offsets := repeat 0 num_levels in
  let packed : list Z := [] in
  (* 1) the top levels, inline *)
  let '(level_offsets, packed) :=
    for_loop 0 top_k_ (place_top_level levels) (level_offsets, packed) in
  (* 2) the bottom levels, each on a 4 KiB boundary *)
  let num_bottom := num_levels - top_k_ in
  let '(level_offsets, packed) :=
    if 0 <? num_bottom then
      let veb_order := compute_veb_order top_k_ num_bottom in
      fold_left (place_bottom_level levels top_k_) veb_order (level_offsets, packed)
    else (level_offsets, packed) in
  (* 3) the final padding *)
  mk (pad_to_macroblock packed) level_offsets num_levels top_k_.

(** [get_level_offset]. *)
Definition get_level_offset (v : t) (level : nat) : nat :=
  if level <? length (level_offsets_ v) then nth level (level_offsets_ v) 0 else 0.

Definition size (v : t) : nat := length (packed_data_ v).

End VebLayout.

(* ------------------------------------------------------------------ *)
(** * IndexWriter (serialization/serialization.hpp, serialization.cpp) *)

(** A binary output file stream: the bytes of the file and the put
    position.  Writes are taken to succeed (the [!file_] branches that throw
    on an I/O failure are not modelled). *)
Module Ofstream.

Record t : Type := mk {
  data : list Z;
  put : nat
}.

(** A file opened with [std::ios::trunc]. *)
Definition open_trunc : t := mk [] 0.

Definition seekp (pos : nat) (f : t) : t := mk (data f) pos.

(** [write]: the bytes go at the put position, over what is there; a gap
    left by a seek past the end reads as zero bytes. *)
Definition write (bytes : list Z) (f : t) : t :=
  let before := firstn (put f) (data f ++ repeat 0%Z (put f - length (data f))) in
  let after := skipn (put f + length bytes) (data f) in
  mk (before ++ bytes ++ after) (put f + length bytes).

End Ofstream.

Module IndexWriter.

(** [INDEX_MAGIC], the five characters of CSIDX. *)
Definition INDEX_MAGIC : list Z := [67; 83; 73; 68; 88]%Z.
Definition INDEX_VERSION : Z := 1.

Definition SECTION_HEADER : nat := 0.
Definition SECTION_TEXT : nat := 1.
Definition SECTION_BWT : nat := 2.
Definition SECTION_C_ARRAY : nat := 3.
Definition SECTION_SSA : nat := 4.
Definition SECTION_WAVELET : nat := 5.
Definition SECTION_VEB_LAYOUT : nat := 6.
Definition SECTION_FOOTER : nat := 7.
Definition NUM_SECTIONS : nat := 8.

(** [struct IndexHeader]; the offsets are [uint64_t], as wide as the
    [size_t] they are assigned from, and kept as [nat] like every [size_t]
    here. *)
Record IndexHeader : Type := mkHeader {
  magic : list Z;          (* char[8] *)
  version : Z;             (* uint16_t *)
  reserved1 : Z;           (* uint16_t *)
  flags : Z;               (* uint32_t *)
  text_len : nat;          (* uint64_t *)
  offsets : list nat       (* uint64_t[NUM_SECTIONS] *)
}.

(** The constructor: [memset] to zero, then the magic and the version. *)
Definition new_header : IndexHeader :=
  mkHeader (INDEX_MAGIC ++ [0; 0; 0]%Z) INDEX_VERSION 0 0 0 (repeat 0 NUM_SECTIONS).

Definition sizeof_IndexHeader : nat := 88.

(** The 88 bytes of the struct in memory, which [finalize] writes. *)
Definition header_bytes (h : IndexHeader) : list Z :=
  magic h ++ le_bytes 2 (version h) ++ le_bytes 2 (reserved1 h)
  ++ le_bytes 4 (flags h) ++ le_bytes 8 (Z.of_nat (text_len h))
  ++ flat_map (fun o => le_bytes 8 (Z.of_nat o)) (offsets h).

Record t : Type := mk {
  file_ : Ofstream.t;
  header_ : IndexHeader;
  current_offset_ : nat
}.

Definition set_offset (section : nat) (w : t) : t :=
  let h := header_ w in
  mk (file_ w)
     (mkHeader (magic h) (version h) (reserved1 h) (flags h) (text_len h)
        (vec_set section (current_offset_ w) (offsets h)))
     (current_offset_ w).

(** The constructor: room for the header is left at the front. *)
Definition create : t :=
  mk (Ofstream.seekp sizeof_IndexHeader Ofstream.open_trunc) new_header sizeof_IndexHeader.

Definition write_raw (bytes : list Z) (w : t) : t :=
  mk (Ofstream.write bytes (file_ w)) (header_ w) (current_offset_ w + length bytes).

(** The padding loop of [align_to],
    [for (size_t written = 0; written < padding; ) { ...; write_raw(zeros, chunk); }]:
    nothing in it advances [written].  [fuel] bounds the number of
    iterations followed; [None] means the loop is still running. *)
Fixpoint pad_loop (fuel : nat) (padding written : nat) (w : t) : option t :=
  if written <? padding then
    match fuel with
    | O => None
    | Datatypes.S fuel' =>
        let chunk := if padding - written <? 64 then padding - written else 64 in
        pad_loop fuel' padding written (write_raw (repeat 0%Z chunk) w)
    end
  else Some w.

Definition align_to (fuel : nat) (alignment : nat) (w : t) : option t :=
  let remainder := current_offset_ w mod alignment in
  if negb (remainder =? 0) then
    let padding := alignment - remainder in
    pad_loop fuel padding 0 w
  else Some w.

(** [write_array<T>], [width] being [sizeof(T)]. *)
Definition write_array (width : nat) (vec : list Z) (w : t) : t :=
  let count := length vec in
  let w := write_raw (le_bytes 8 (Z.of_nat count)) w in
  if 0 <? count then write_raw (flat_map (le_bytes width) vec) w else w.

Definition write_header (flags' : Z) (text_len' : nat) (w : t) : t :=
  let h := header_ w in
  mk (file_ w)
     (mkHeader (magic h) (version h) (reserved1 h) flags' text_len'
        (vec_set SECTION_HEADER 0 (offsets h)))
     (current_offset_ w).

Definition write_text (fuel : nat) (text : list byte) (w : t) : option t :=
  match align_to fuel 8 w with
  | None => None
  | Some w =>
      let w := set_offset SECTION_TEXT w in
      let len := length text in
      let w := write_raw (le_bytes 8 (Z.of_nat len)) w in
      Some (write_raw (map byte_val text) w)
  end.

Definition write_bwt (fuel : nat) (bwt : list Z) (w : t) : option t :=
  match align_to fuel 8 w with
  | None => None
  | Some w => Some (write_array 1 bwt (set_offset SECTION_BWT w))
  end.

Definition write_c_array (fuel : nat) (c_array : list Z) (w : t) : option t :=
  match align_to fuel 8 w with
  | None => None
  | Some w => Some (write_array 4 c_array (set_offset SECTION_C_ARRAY w))
  end.

Definition write_ssa (fuel : nat) (ssa_samples : list Z) (stride : Z) (w : t) : option t :=
  match align_to fuel 8 w with
  | None => None
  | Some w =>
      let w := set_offset SECTION_SSA w in
      let w := write_raw (le_bytes 4 stride) w in
      match align_to fuel 8 w with
      | None => None
      | Some w => Some (write_array 4 ssa_samples w)
      end
  end.

Definition write_wavelet (fuel : nat) (bits_data super_data sub_data : list Z)
    (num_levels : nat) (w : t) : option t :=
  match align_to fuel 8 w with
  | None => None
  | Some w =>
      let w := set_offset SECTION_WAVELET w in
      let w := write_raw (le_bytes 8 (Z.of_nat num_levels)) w in
      let w := write_array 8 bits_data w in
      let w := write_array 4 super_data w in
      Some (write_array 2 sub_data w)
  end.

(** [veb_data] is [None] for a null pointer; [veb_size] is its length. *)
Definition write_veb_layout (fuel : nat) (veb_data : option (list Z)) (w : t) : option t :=
  match veb_data with
  | None | Some [] =>
      let h := header_ w in
      Some (mk (file_ w)
              (mkHeader (magic h) (version h) (reserved1 h) (flags h) (text_len h)
                 (vec_set SECTION_VEB_LAYOUT 0 (offsets h)))
              (current_offset_ w))
  | Some veb =>
      match align_to fuel 4096 w with
      | None => None
      | Some w =>
          let w := set_offset SECTION_VEB_LAYOUT w in
          let w := write_raw (le_bytes 8 (Z.of_nat (length veb))) w in
          Some (write_raw veb w)
      end
  end.

(** The constant [footer_magic] of [finalize], as the code writes it. *)
Definition footer_magic : Z := 0x444E4553435300.

(** [finalize]: the footer, then the header at the front of the file. *)
Definition finalize (fuel : nat) (w : t) : option t :=
  match align_to fuel 8 w with
  | None => None
  | Some w =>
      let w := set_offset SECTION_FOOTER w in
      let w := write_raw (le_bytes 8 footer_magic) w in
      let file := Ofstream.seekp 0 (file_ w) in
      let file := Ofstream.write (header_bytes (header_ w)) file in
      Some (mk file (header_ w) (current_offset_ w))
  end.

(** The calls a client can make on a writer before [finalize]. *)
Inductive call : Type :=
| Write_header (flags' : Z) (text_len' : nat)
| Write_text (text : list byte)
| Write_bwt (bwt : list Z)
| Write_c_array (c_array : list Z)
| Write_ssa (ssa_samples : list Z) (stride : Z)
| Write_wavelet (bits_data super_data sub_data : list Z) (num_levels : nat)
| Write_veb_layout (veb_data : option (list Z)).

Definition perform (fuel : nat) (c : call) (w : t) : option t :=
  match c with
  | Write_header f n => Some (write_header f n w)
  | Write_text text => write_text fuel text w
  | Write_bwt bwt => write_bwt fuel bwt w
  | Write_c_array c_array => write_c_array fuel c_array w
  | Write_ssa samples stride => write_ssa fuel samples stride w
  | Write_wavelet b sp sb n => write_wavelet fuel b sp sb n w
  | Write_veb_layout veb => write_veb_layout fuel veb w
  end.

(** A sequence of calls on a writer; [None] as soon as one does not return. *)
Fixpoint perform_all (fuel : nat) (calls : list call) (w : t) : option t :=
  match calls with
  | [] => Some w
  | c :: rest =>
      match perform fuel c w with
      | None => None
      | Some w => perform_all fuel rest w
      end
  end.

(** The eight bytes of the produced file at the offset recorded for
    [section]. *)
Definition section_u64_bytes (section : nat) (w : t) : list Z :=
  firstn 8 (skipn (nth section (offsets (header_ w)) 0) (Ofstream.data (file_ w))).

End IndexWriter.

(* ------------------------------------------------------------------ *)
(** * IndexReader (serialization/serialization.hpp, serialization.cpp) *)

(** The unsigned integer held by little-endian bytes: what a read through
    a [uint16_t*], [uint32_t*] or [uint64_t*] into the mapping gives. *)
Fixpoint le_decode (bytes : list Z) : Z :=
  match bytes with
  | [] => 0%Z
  | b :: rest => (b + 256 * le_decode rest)%Z
  end.

Module IndexReader.

(** The mapping of the file: [mmap_ptr_] and [mmap_size_] are its bytes and
    their number, and [header_] points at its start.  A pointer into the
    mapping is kept as its offset. *)
Record t : Type := mk {
  mmap_ : list Z
}.

Definition mmap_size_ (r : t) : nat := length (mmap_ r).

(** The exceptions of the constructor on a file that could be opened. *)
Inductive open_error : Type :=
| Mapping_failed            (* an empty file cannot be mapped *)
| File_too_small            (* "File too small to contain header" *)
| Bad_magic_or_version.     (* "Invalid index file: bad magic or version" *)

(** The fields of [*header_], read in place. *)
Definition header_version (r : t) : Z := le_decode (firstn 2 (skipn 8 (mmap_ r))).
Definition header_flags (r : t) : Z := le_decode (firstn 4 (skipn 12 (mmap_ r))).
Definition header_text_len (r : t) : nat :=
  Z.to_nat (le_decode (firstn 8 (skipn 16 (mmap_ r)))).
Definition header_offsets (r : t) (section : nat) : nat :=
  Z.to_nat (le_decode (firstn 8 (skipn (24 + 8 * section) (mmap_ r)))).

(** [IndexHeader::is_valid]: [memcmp(magic, INDEX_MAGIC, 5) == 0] and the
    version. *)
Definition is_valid (r : t) : bool :=
  forallb (fun k => (nth k (mmap_ r) 0 =? nth k IndexWriter.INDEX_MAGIC 0)%Z) (seq 0 5)
  && (header_version r =? IndexWriter.INDEX_VERSION)%Z.

(** The constructor, on the bytes of the file. *)
Definition open (file : list Z) : open_error + t :=
  if length file =? 0 then inl Mapping_failed
  else if length file <? IndexWriter.sizeof_IndexHeader then inl File_too_small
  else if is_valid (mk file) then inr (mk file)
  else inl Bad_magic_or_version.

Definition has_flag (r : t) (flag : Z) : bool :=
  negb (Z.land (header_flags r) flag =? 0)%Z.

(** A read of [width] bytes through a pointer into the mapping; [None] when
    the bytes are not all inside the mapping, where the source has no
    defined result. *)
Definition load (r : t) (ptr width : nat) : option Z :=
  if ptr + width <=? mmap_size_ r
  then Some (le_decode (firstn width (skipn ptr (mmap_ r))))
  else None.

(** What the section getters return: the null pointer, or a pointer with
    the count read in front of it. *)
Inductive view : Type :=
| Null
| At (ptr count : nat).

(** [get_text]; with the null pointer [*out_len] is 0. *)
Definition get_text (r : t) : option view :=
  let offset := header_offsets r IndexWriter.SECTION_TEXT in
  if (offset =? 0) || (mmap_size_ r <=? offset) then Some Null
  else
    match load r offset 8 with
    | None => None
    | Some len => Some (At (offset + 8) (Z.to_nat len))
    end.

(** [read_array_at<T>]; with the null pointer [*out_count] is left as it
    was. *)
Definition read_array_at (r : t) (offset : nat) : option view :=
  if (offset =? 0) || (mmap_size_ r <=? offset) then Some Null
  else
    match load r offset 8 with
    | None => None
    | Some count => Some (At (offset + 8) (Z.to_nat count))
    end.

Definition get_bwt (r : t) : option view :=
  read_array_at r (header_offsets r IndexWriter.SECTION_BWT).

Definition get_c_array (r : t) : option view :=
  read_array_at r (header_offsets r IndexWriter.SECTION_C_ARRAY).

(** [get_ssa]: the view of the samples and the stride. *)
Definition get_ssa (r : t) : option (view * Z) :=
  let offset := header_offsets r IndexWriter.SECTION_SSA in
  if (offset =? 0) || (mmap_size_ r <=? offset) then Some (Null, 0%Z)
  else
    match load r offset 4 with
    | None => None
    | Some stride =>
        let array_offset := offset + 8 in
        match read_array_at r array_offset with
        | None => None
        | Some v => Some (v, stride)
        end
    end.

(** [get_wavelet]: the pointer to the section and the size up to the next
    section. *)
Definition get_wavelet (r : t) : view :=
  let offset := header_offsets r IndexWriter.SECTION_WAVELET in
  if (offset =? 0) || (mmap_size_ r <=? offset) then Null
  else
    let next_offset := header_offsets r IndexWriter.SECTION_VEB_LAYOUT in
    At offset (if offset <? next_offset then next_offset - offset else 0).

Definition get_veb_layout (r : t) : option view :=
  read_array_at r (header_offsets r IndexWriter.SECTION_VEB_LAYOUT).

(** The [count] bytes of the mapping from [ptr] on. *)
Definition bytes_at (r : t) (ptr count : nat) : list Z :=
  firstn count (skipn ptr (mmap_ r)).

End IndexReader.

(* ------------------------------------------------------------------ *)
(** * WaveletLevel (core/wavelet_learned.hpp, core/wavelet_learned.cpp) *)

Module WaveletLevel.

(** The packing loop of [build]: [nbits_] is the [uint32_t] size of the
    input, and [tmp[i>>6] |= (1ULL << (i&63))] for every set bit. *)
Definition pack_bits (bits_linear : list Z) : list Z :=
  let nbits_ := size32 bits_linear in
  let nwords := Z.to_nat (u32 (Z.of_nat nbits_ + 63)) / 64 in
  for_loop 0 nbits_
    (fun i tmp =>
       if BitVector.truthy (nth i bits_linear 0%Z) then
         vec_set (i / 64) (Z.lor (nth (i / 64) tmp 0%Z) (shl64 1 (i mod 64))) tmp
       else tmp)
    (repeat 0%Z nwords).

(** [popcount_tail(bitpos, len)] over the packed words [bits_co_], with
    [uint32_t] arguments.  [None] where the source indexes past the words
    or shifts a 64-bit value by more than 63. *)
Definition popcount_tail (bits_co_ : list Z) (bitpos len : nat) : option nat :=
  if len =? 0 then Some 0
  else
    let startWord := bitpos / 64 in
    let offset := bitpos mod 64 in
    if length bits_co_ <=? startWord then None
    else
      let word := nth startWord bits_co_ 0%Z in
      if (u32 (Z.of_nat (offset + len)) <=? 64)%Z then
        if 64 <? len then None
        else
          let mask := shl64 (if len =? 64 then ALL_ONES else (shl64 1 len - 1)%Z) offset in
          Some (popcount64 (Z.land word mask))
      else
        let first := 64 - offset in
        let rest := len - first in
        let pc := popcount64 (Z.land word (shl64 ALL_ONES offset)) in
        if length bits_co_ <=? startWord + 1 then None
        else
          let word2 := nth (startWord + 1) bits_co_ 0%Z in
          if 64 <? rest then None
          else
            let mask2 := if rest =? 64 then ALL_ONES else (shl64 1 rest - 1)%Z in
            Some (pc + popcount64 (Z.land word2 mask2)).

End WaveletLevel.

(* ================================================================== *)
(** * Verification *)

(* ------------------------------------------------------------------ *)
(** * Loop invariants *)

(** Case analysis on every [nat] comparison of the goal. *)
Ltac nat_cases :=
  repeat match goal with
    | |- context [?a <? ?b] => destruct (Nat.ltb_spec a b)
    | |- context [?a <=? ?b] => destruct (Nat.leb_spec a b)
    | |- context [?a =? ?b] => destruct (Nat.eqb_spec a b)
    end;
  cbn [andb orb negb]; rewrite ?andb_true_r, ?andb_false_r, ?orb_false_r, ?orb_true_r;
  try lia; try reflexivity.

Lemma for_count_inv {St : Type} (P : nat -> St -> Prop) (body : nat -> St -> St) :
  forall cnt lo st,
    P lo st ->
    (forall i s, lo <= i < lo + cnt -> P i s -> P (S i) (body i s)) ->
    P (lo + cnt) (for_count cnt lo body st).
Proof.
  induction cnt as [|cnt IH]; intros lo st H0 Hstep; simpl.
  - now rewrite Nat.add_0_r.
  - replace (lo + S cnt) with (S lo + cnt) by lia.
    apply IH.
    + apply Hstep; [lia | exact H0].
    + intros i s Hi. apply Hstep. lia.
Qed.

Lemma for_loop_inv {St : Type} (P : nat -> St -> Prop) (body : nat -> St -> St) lo hi st :
  lo <= hi ->
  P lo st ->
  (forall i s, lo <= i < hi -> P i s -> P (S i) (body i s)) ->
  P hi (for_loop lo hi body st).
Proof.
  intros Hle H0 Hstep. unfold for_loop.
  replace hi with (lo + (hi - lo)) at 1 by lia.
  apply for_count_inv; [exact H0 |].
  intros i s Hi. apply Hstep. lia.
Qed.

Lemma for_loop_empty {St : Type} (body : nat -> St -> St) lo hi st :
  hi <= lo -> for_loop lo hi body st = st.
Proof.
  intros H. unfold for_loop. replace (hi - lo) with 0 by lia. reflexivity.
Qed.

(* ------------------------------------------------------------------ *)
(** * Counting over index ranges *)

(** The number of indices [j] in [[a, b)] with [f j]. *)
Definition count_in (f : nat -> bool) (a b : nat) : nat :=
  length (filter f (seq a (b - a))).

Lemma count_in_empty f a b : b <= a -> count_in f a b = 0.
Proof.
  intros H. unfold count_in. replace (b - a) with 0 by lia. reflexivity.
Qed.

Lemma count_in_split f a m b :
  a <= m -> m <= b -> count_in f a b = count_in f a m + count_in f m b.
Proof.
  intros H1 H2. unfold count_in.
  replace (b - a) with ((m - a) + (b - m)) by lia.
  rewrite seq_app, filter_app, length_app.
  replace (a + (m - a)) with m by lia. reflexivity.
Qed.

Lemma count_in_ext f g a b :
  (forall j, a <= j < b -> f j = g j) -> count_in f a b = count_in g a b.
Proof.
  intros H. unfold count_in. f_equal.
  apply filter_ext_in. intros j Hj. apply in_seq in Hj. apply H. lia.
Qed.

Lemma count_in_false f a b :
  (forall j, a <= j < b -> f j = false) -> count_in f a b = 0.
Proof.
  intros H. rewrite (count_in_ext f (fun _ => false) a b H).
  unfold count_in. induction (seq a (b - a)); simpl; auto.
Qed.

Lemma count_in_le f a b : count_in f a b <= b - a.
Proof.
  unfold count_in.
  etransitivity; [apply filter_length_le | rewrite length_seq; lia].
Qed.

Lemma count_in_step f a b :
  a <= b -> count_in f a (S b) = count_in f a b + (if f b then 1 else 0).
Proof.
  intros H. rewrite (count_in_split f a b (S b)) by lia. f_equal.
  unfold count_in. replace (S b - b) with 1 by lia. simpl.
  destruct (f b); reflexivity.
Qed.

Lemma count_in_shift f c a b :
  count_in (fun k => f (c + k)) a b = count_in f (c + a) (c + b).
Proof.
  unfold count_in. replace (c + b - (c + a)) with (b - a) by lia.
  generalize (b - a) as n. intros n. revert a.
  induction n as [|n IH]; intros a; simpl; [reflexivity |].
  replace (S (c + a)) with (c + S a) by lia.
  destruct (f (c + a)); simpl; rewrite IH; reflexivity.
Qed.

(** Restricting the predicate to a window [[a', b')]. *)
Lemma count_in_window f a b a' b' :
  count_in (fun j => f j && (a' <=? j) && (j <? b')) a b
  = count_in f (Nat.max a a') (Nat.min b b').
Proof.
  destruct (Nat.le_gt_cases (Nat.min b b') (Nat.max a a')) as [Hempty | Hne].
  - rewrite (count_in_empty f) by lia.
    apply count_in_false. intros j Hj.
    destruct (Nat.leb_spec a' j); destruct (Nat.ltb_spec j b');
      rewrite ?andb_false_r; try reflexivity; lia.
  - rewrite (count_in_split _ a (Nat.max a a') b) by lia.
    rewrite (count_in_split _ (Nat.max a a') (Nat.min b b') b) by lia.
    rewrite (count_in_false _ a (Nat.max a a')).
    2:{ intros j Hj. destruct (Nat.leb_spec a' j);
        rewrite ?andb_false_r; try reflexivity; lia. }
    rewrite (count_in_false _ (Nat.min b b') b).
    2:{ intros j Hj. destruct (Nat.ltb_spec j b');
        rewrite ?andb_false_r; try reflexivity; lia. }
    rewrite Nat.add_0_l, Nat.add_0_r.
    apply count_in_ext. intros j Hj.
    destruct (Nat.leb_spec a' j); destruct (Nat.ltb_spec j b'); try lia.
    now rewrite !andb_true_r.
Qed.

(** Bit [j] of the input of [build] (0 beyond its end). *)
Definition bit_at (bits : list Z) (j : nat) : bool :=
  BitVector.truthy (nth j bits 0%Z).

Lemma bit_at_beyond bits j : length bits <= j -> bit_at bits j = false.
Proof.
  intros H. unfold bit_at. rewrite nth_overflow by exact H. reflexivity.
Qed.

Lemma count_in_cons b bits n :
  count_in (bit_at (b :: bits)) 0 (S n)
  = (if BitVector.truthy b then 1 else 0) + count_in (bit_at bits) 0 n.
Proof.
  rewrite (count_in_split _ 0 1 (S n)) by lia. f_equal.
  - unfold count_in, bit_at. simpl. destruct (BitVector.truthy b); reflexivity.
  - change (S n) with (1 + n). change 1 with (1 + 0) at 1.
    rewrite <- (count_in_shift (bit_at (b :: bits)) 1 0 n).
    apply count_in_ext. intros j _. reflexivity.
Qed.

Lemma naive_rank_count bits :
  forall i, naive_rank bits i = count_in (bit_at bits) 0 i.
Proof.
  unfold naive_rank.
  induction bits as [|b bits IH]; intros i.
  - rewrite firstn_nil. simpl. symmetry. apply count_in_false.
    intros j _. apply bit_at_beyond. simpl. lia.
  - destruct i as [|i]; [reflexivity |].
    rewrite count_in_cons. simpl firstn. simpl filter.
    destruct (BitVector.truthy b); simpl; rewrite IH; reflexivity.
Qed.

Lemma count_in_beyond bits a b :
  length bits <= a -> count_in (bit_at bits) a b = 0.
Proof.
  intros H. apply count_in_false. intros j Hj. apply bit_at_beyond. lia.
Qed.

Lemma count_in_clip bits i :
  count_in (bit_at bits) 0 i = count_in (bit_at bits) 0 (Nat.min i (length bits)).
Proof.
  destruct (Nat.le_gt_cases i (length bits)) as [H | H].
  - now rewrite Nat.min_l.
  - rewrite Nat.min_r by lia.
    rewrite (count_in_split _ 0 (length bits) i) by lia.
    rewrite (count_in_beyond bits (length bits) i) by lia. lia.
Qed.

(* ------------------------------------------------------------------ *)
(** * Bits of the masks *)

Lemma u64_testbit z (k : nat) :
  Z.testbit (u64 z) (Z.of_nat k) = (k <? 64) && Z.testbit z (Z.of_nat k).
Proof.
  unfold u64. destruct (Nat.ltb_spec k 64).
  - rewrite Z.mod_pow2_bits_low by lia. reflexivity.
  - rewrite Z.mod_pow2_bits_high by lia. reflexivity.
Qed.

Lemma ALL_ONES_ones : ALL_ONES = Z.ones 64.
Proof. reflexivity. Qed.

Lemma ALL_ONES_testbit (k : nat) :
  Z.testbit ALL_ONES (Z.of_nat k) = (k <? 64).
Proof.
  rewrite ALL_ONES_ones, Z.testbit_ones_nonneg by lia.
  destruct (Nat.ltb_spec k 64); destruct (Z.ltb_spec (Z.of_nat k) 64); lia || reflexivity.
Qed.

Lemma shl_ones_testbit (t k : nat) :
  Z.testbit (shl64 ALL_ONES t) (Z.of_nat k) = (t <=? k) && (k <? 64).
Proof.
  unfold shl64. rewrite u64_testbit.
  destruct (Nat.ltb_spec k 64); simpl; [| now rewrite andb_false_r].
  rewrite andb_true_r.
  destruct (Nat.leb_spec t k).
  - rewrite Z.shiftl_spec by lia.
    replace (Z.of_nat k - Z.of_nat t)%Z with (Z.of_nat (k - t)) by lia.
    rewrite ALL_ONES_testbit. apply Nat.ltb_lt. lia.
  - rewrite Z.shiftl_spec_low by lia. reflexivity.
Qed.

Lemma shr_ones_testbit (t k : nat) :
  Z.testbit (shr64 ALL_ONES t) (Z.of_nat k) = (k + t <? 64).
Proof.
  unfold shr64. rewrite Z.shiftr_spec by lia.
  replace (Z.of_nat k + Z.of_nat t)%Z with (Z.of_nat (k + t)) by lia.
  apply ALL_ONES_testbit.
Qed.

Lemma shl_one_eq (t : nat) : t < 64 -> shl64 1 t = (2 ^ Z.of_nat t)%Z.
Proof.
  intros H. unfold shl64, u64. rewrite Z.shiftl_1_l.
  apply Z.mod_small. split; [apply Z.pow_nonneg; lia |].
  apply Z.pow_lt_mono_r; lia.
Qed.

Lemma low_mask_testbit (t k : nat) :
  t < 64 -> Z.testbit (shl64 1 t - 1) (Z.of_nat k) = (k <? t).
Proof.
  intros H. rewrite shl_one_eq by exact H.
  replace (2 ^ Z.of_nat t - 1)%Z with (Z.ones (Z.of_nat t))
    by (rewrite Z.ones_equiv; lia).
  rewrite Z.testbit_ones_nonneg by lia.
  destruct (Nat.ltb_spec k t); destruct (Z.ltb_spec (Z.of_nat k) (Z.of_nat t)); lia || reflexivity.
Qed.

Lemma shl_one_testbit (t k : nat) :
  t < 64 -> Z.testbit (shl64 1 t) (Z.of_nat k) = (k =? t).
Proof.
  intros H. rewrite shl_one_eq by exact H.
  destruct (Nat.eqb_spec k t) as [-> | Hne].
  - apply Z.pow2_bits_true. lia.
  - apply Z.pow2_bits_false. lia.
Qed.

(* ------------------------------------------------------------------ *)
(** * The packed words *)

Lemma vec_set_length {A} i (x : A) v : length (vec_set i x v) = length v.
Proof.
  revert i. induction v as [|h t IH]; intros [|i]; simpl; auto.
Qed.

Lemma vec_set_nth {A} i j (x d : A) v :
  nth j (vec_set i x v) d = if (j =? i) && (i <? length v) then x else nth j v d.
Proof.
  revert i j. induction v as [|h t IH]; intros i j.
  - destruct i, j; simpl; rewrite ?andb_false_r; reflexivity.
  - destruct i as [|i], j as [|j]; simpl; try reflexivity.
    rewrite IH. reflexivity.
Qed.

Lemma div64_lt i n : i < n -> i / 64 < (n + 63) / 64.
Proof.
  intros H.
  apply Nat.Div0.div_lt_upper_bound.
  pose proof (Nat.div_mod_eq (n + 63) 64).
  pose proof (Nat.mod_upper_bound (n + 63) 64). lia.
Qed.

(** What [pack] computes: bit [k] of word [w] is input bit [64 w + k]. *)
Definition packed (bits words : list Z) (upto : nat) : Prop :=
  length words = (length bits + 63) / 64 /\
  forall w k, Z.testbit (nth w words 0%Z) (Z.of_nat k)
              = (k <? 64) && (w * 64 + k <? upto) && bit_at bits (w * 64 + k).

Lemma pack_spec bits : packed bits (BitVector.pack bits) (length bits).
Proof.
  unfold BitVector.pack.
  apply (for_loop_inv (fun i ws => packed bits ws i)); [lia | |].
  - split; [apply repeat_length |].
    intros w k. rewrite nth_repeat, Z.bits_0.
    now rewrite andb_false_r.
  - intros i ws Hi [Hlen Hbits].
    assert (Hw : i / 64 < length ws) by (rewrite Hlen; apply div64_lt; lia).
    pose proof (Nat.div_mod_eq i 64) as Hdm.
    pose proof (Nat.mod_upper_bound i 64) as Hm.
    destruct (BitVector.truthy (nth i bits 0%Z)) eqn:Hb.
    + split; [now rewrite vec_set_length |].
      intros w k. rewrite vec_set_nth.
      apply Nat.ltb_lt in Hw as Hw'. rewrite Hw', andb_true_r.
      destruct (Nat.eqb_spec w (i / 64)) as [-> | Hne].
      * rewrite Z.lor_spec, Hbits, shl_one_testbit by lia.
        destruct (Nat.ltb_spec k 64); simpl.
        -- destruct (Nat.eqb_spec k (i mod 64)) as [-> | Hk].
           ++ rewrite orb_true_r.
              replace (i / 64 * 64 + i mod 64) with i by lia.
              unfold bit_at. rewrite Hb.
              symmetry. rewrite andb_true_r. apply Nat.ltb_lt. lia.
           ++ rewrite orb_false_r.
              destruct (Nat.ltb_spec (i / 64 * 64 + k) i);
                destruct (Nat.ltb_spec (i / 64 * 64 + k) (S i)); try lia; reflexivity.
        -- destruct (Nat.eqb_spec k (i mod 64)); [lia | reflexivity].
      * rewrite Hbits.
        destruct (Nat.ltb_spec k 64); simpl; [| reflexivity].
        destruct (Nat.ltb_spec (w * 64 + k) i);
          destruct (Nat.ltb_spec (w * 64 + k) (S i)); try lia; try reflexivity.
    + split; [exact Hlen |].
      intros w k. rewrite Hbits.
      destruct (Nat.ltb_spec k 64); simpl; [| reflexivity].
      destruct (Nat.ltb_spec (w * 64 + k) i);
        destruct (Nat.ltb_spec (w * 64 + k) (S i)); try lia; try reflexivity.
      simpl. assert (w * 64 + k = i) as -> by lia.
      unfold bit_at. now rewrite Hb.
Qed.

(** The bits of every packed word, with the [upto] bound dropped. *)
Lemma pack_testbit bits w k :
  Z.testbit (nth w (BitVector.pack bits) 0%Z) (Z.of_nat k)
  = (k <? 64) && bit_at bits (w * 64 + k).
Proof.
  destruct (pack_spec bits) as [_ H]. rewrite H.
  destruct (Nat.ltb_spec k 64); simpl; [| reflexivity].
  destruct (Nat.ltb_spec (w * 64 + k) (length bits)); simpl; [reflexivity |].
  symmetry. apply bit_at_beyond. lia.
Qed.

Lemma pack_length bits : length (BitVector.pack bits) = (length bits + 63) / 64.
Proof. apply pack_spec. Qed.

Lemma popcount64_count word :
  popcount64 word = count_in (fun k => Z.testbit word (Z.of_nat k)) 0 64.
Proof. unfold popcount64, count_in. now rewrite Nat.sub_0_r. Qed.

(** Popcount of a packed word masked to the window [[a, b)]. *)
Lemma popcount_window bits w word a b :
  (forall k, Z.testbit word (Z.of_nat k)
             = (k <? 64) && bit_at bits (w * 64 + k)
               && (a <=? w * 64 + k) && (w * 64 + k <? b)) ->
  popcount64 word = count_in (bit_at bits) (Nat.max (w * 64) a) (Nat.min (w * 64 + 64) b).
Proof.
  intros H. rewrite popcount64_count.
  pose (g := fun j => bit_at bits j && (a <=? j) && (j <? b)).
  transitivity (count_in (fun k => g (w * 64 + k)) 0 64).
  - apply count_in_ext. intros k Hk. rewrite H. unfold g.
    destruct (Nat.ltb_spec k 64); [reflexivity | lia].
  - rewrite (count_in_shift g (w * 64) 0 64).
    unfold g. rewrite (count_in_window (bit_at bits) (w * 64 + 0) (w * 64 + 64) a b).
    now rewrite Nat.add_0_r.
Qed.

(** A packed word after the low mask of the popcount loops. *)
Lemma low_masked_testbit bits w lo k :
  let word := nth w (BitVector.pack bits) 0%Z in
  let word' :=
    if w * 64 <? lo then Z.land word (shl64 ALL_ONES (lo - w * 64)) else word in
  Z.testbit word' (Z.of_nat k)
  = (k <? 64) && bit_at bits (w * 64 + k) && (lo <=? w * 64 + k).
Proof.
  cbv zeta. destruct (Nat.ltb_spec (w * 64) lo).
  - rewrite Z.land_spec, pack_testbit, shl_ones_testbit.
    destruct (bit_at bits (w * 64 + k)); nat_cases.
  - rewrite pack_testbit.
    destruct (bit_at bits (w * 64 + k)); nat_cases.
Qed.

Lemma tail_popcount_spec bits lo i acc :
  lo < i -> i <= length bits ->
  BitVector.tail_popcount (BitVector.pack bits) lo i acc
  = acc + count_in (bit_at bits) lo i.
Proof.
  intros Hlo Hi. unfold BitVector.tail_popcount.
  rewrite pack_length.
  replace (Nat.min ((i - 1) / 64 + 1) ((length bits + 63) / 64))
    with ((i - 1) / 64 + 1) by lia.
  pose (P := fun w rank =>
               rank = acc + count_in (bit_at bits) lo (Nat.max lo (Nat.min (w * 64) i))).
  assert (HP : P ((i - 1) / 64 + 1)
                 (for_loop (lo / 64) ((i - 1) / 64 + 1)
                    (fun w rank =>
                       let word := nth w (BitVector.pack bits) 0%Z in
                       let word_bit_start := w * 64 in
                       let word :=
                         if word_bit_start <? lo
                         then Z.land word (shl64 ALL_ONES (lo - word_bit_start))
                         else word in
                       let word_bit_end := word_bit_start + 64 in
                       let word :=
                         if i <? word_bit_end then
                           let keep_bits := i - word_bit_start in
                           if keep_bits <? 64 then Z.land word (shl64 1 keep_bits - 1) else word
                         else word in
                       rank + popcount64 word) acc)).
  { apply for_loop_inv; [lia | |].
    - unfold P. rewrite count_in_empty by lia. lia.
    - intros w rank Hw HPw. unfold P in *. cbv zeta. subst rank.
      rewrite <- Nat.add_assoc. f_equal.
      rewrite (popcount_window bits w _ lo i).
      + rewrite (count_in_split _ lo (Nat.max (w * 64) lo) (Nat.max lo (Nat.min (S w * 64) i))) by lia.
        f_equal; f_equal; lia.
      + intros k.
        pose proof (low_masked_testbit bits w lo k) as Hl. cbv zeta in Hl.
        destruct (Nat.ltb_spec i (w * 64 + 64)).
        * destruct (Nat.ltb_spec (i - w * 64) 64); [| lia].
          rewrite Z.land_spec, Hl, low_mask_testbit by lia.
          destruct (bit_at bits (w * 64 + k)); nat_cases.
        * rewrite Hl. destruct (bit_at bits (w * 64 + k)); nat_cases. }
  unfold P in HP. rewrite HP. f_equal. f_equal. lia.
Qed.

Lemma build_words_spec bits ss se l r :
  ss < se ->
  BitVector.build_words (BitVector.pack bits) ss se (l, r)
  = (l + count_in (bit_at bits) ss se, r + count_in (bit_at bits) ss se).
Proof.
  intros Hlt. unfold BitVector.build_words.
  pose (P := fun w (st : nat * nat) =>
               let c := count_in (bit_at bits) ss (Nat.max ss (Nat.min (w * 64) se)) in
               st = (l + c, r + c)).
  match goal with |- ?lhs = _ => assert (HP : P ((se + 63) / 64) lhs) end.
  { apply for_loop_inv; [lia | |].
    - unfold P. cbv zeta. rewrite count_in_empty by lia. f_equal; lia.
    - intros w [l' r'] Hw HPw. unfold P in *. cbv zeta in *.
      injection HPw as -> ->.
      rewrite (popcount_window bits w _ ss se).
      + rewrite (count_in_split _ ss (Nat.max (w * 64) ss) (Nat.max ss (Nat.min (S w * 64) se))) by lia.
        replace (Nat.max ss (Nat.min (w * 64) se)) with (Nat.max (w * 64) ss) by lia.
        replace (Nat.min (w * 64 + 64) se) with (Nat.max ss (Nat.min (S w * 64) se)) by lia.
        f_equal; lia.
      + intros k.
        pose proof (low_masked_testbit bits w ss k) as Hl. cbv zeta in Hl.
        destruct (Nat.ltb_spec se (w * 64 + 64)).
        * rewrite Z.land_spec, Hl, shr_ones_testbit.
          destruct (bit_at bits (w * 64 + k)); nat_cases.
        * rewrite Hl. destruct (bit_at bits (w * 64 + k)); nat_cases. }
  unfold P in HP. cbv zeta in HP. rewrite HP.
  replace (Nat.max ss (Nat.min ((se + 63) / 64 * 64) se)) with se by lia.
  reflexivity.
Qed.

(** Invariant rule for a loop with [break]: [P] holds at the head of every
    iteration, [Q] on exit (by [break] or by exhaustion). *)
Lemma for_count_break_inv {St : Type} (P : nat -> St -> Prop) (Q : St -> Prop)
    (body : nat -> St -> ctl St) :
  forall cnt lo st,
    P lo st ->
    (forall i s, lo <= i < lo + cnt -> P i s ->
                 match body i s with Next s' => P (S i) s' | Break s' => Q s' end) ->
    (forall s, P (lo + cnt) s -> Q s) ->
    Q (for_count_break cnt lo body st).
Proof.
  induction cnt as [|cnt IH]; intros lo st H0 Hstep Hend; simpl.
  - apply Hend. now rewrite Nat.add_0_r.
  - pose proof (Hstep lo st ltac:(lia) H0) as Hb.
    destruct (body lo st) as [s' | s']; [| exact Hb].
    apply IH.
    + exact Hb.
    + intros i s Hi. apply Hstep. lia.
    + intros s Hs. apply Hend. now replace (lo + S cnt) with (S lo + cnt) by lia.
Qed.

Lemma map_seq_shift {A} (g : nat -> A) c n :
  map (fun m => g (c + m)) (seq 0 n) = map g (seq c n).
Proof.
  rewrite <- (map_map (fun m => c + m) g). f_equal.
  revert c. induction n as [|n IH]; intros c; [reflexivity |].
  rewrite !seq_S, map_app, IH. simpl. reflexivity.
Qed.

(** The entry of [blocks_] for sub-block [k]. *)
Definition block_entry (bits : list Z) (k : nat) : Z :=
  u16 (Z.of_nat (count_in (bit_at bits) (k / 8 * 2048) (k * 256))).

(** The entry of [super_] for super-block [j]. *)
Definition super_entry (bits : list Z) (j : nat) : Z :=
  u32 (Z.of_nat (count_in (bit_at bits) 0 (j * 2048))).

Lemma build_subs_spec bits j blocks running :
  j * 2048 < length bits ->
  let ss := j * 2048 in
  let se := Nat.min (ss + 2048) (length bits) in
  BitVector.build_subs (BitVector.pack bits) (length bits) ss se (blocks, 0, running)
  = (blocks ++ map (block_entry bits) (seq (j * 8) ((se - ss + 255) / 256)),
     count_in (bit_at bits) ss se,
     running + count_in (bit_at bits) ss se).
Proof.
  intros Hj ss se. unfold BitVector.build_subs.
  change (BitVector.CS_SUPER_BLOCK_SIZE / BitVector.CS_SUB_BLOCK_SIZE) with 8.
  change BitVector.CS_SUB_BLOCK_SIZE with 256.
  unfold for_loop_break. rewrite Nat.sub_0_r.
  pose (P := fun m (st : list Z * nat * nat) =>
               let c := count_in (bit_at bits) ss (Nat.min (ss + m * 256) se) in
               st = (blocks ++ map (block_entry bits) (seq (j * 8) m), c, running + c)
               /\ ss + m * 256 < length bits + 256).
  apply (for_count_break_inv P).
  - unfold P. cbv zeta. rewrite count_in_empty by lia.
    simpl. rewrite app_nil_r. split; [f_equal; lia | lia].
  - intros m [[blocks' l'] r'] Hm [HP Hb]. cbv zeta in HP.
    injection HP as -> -> ->.
    destruct (Nat.leb_spec (length bits) (ss + m * 256)) as [Hbreak | Hcont].
    + (* break *)
      replace ((se - ss + 255) / 256) with m by lia.
      replace (Nat.min (ss + m * 256) se) with se by lia. reflexivity.
    + rewrite build_words_spec by lia.
      unfold P. cbv zeta. split; [| lia].
      rewrite seq_S, map_app, app_assoc. cbn [map].
      rewrite (count_in_split _ ss (Nat.min (ss + m * 256) se) (Nat.min (ss + S m * 256) se)) by lia.
      replace (Nat.min (ss + m * 256) se) with (ss + m * 256) by lia.
      replace (Nat.min (ss + m * 256 + 256) se) with (Nat.min (ss + S m * 256) se) by lia.
      f_equal; [f_equal | lia].
      * f_equal. f_equal. unfold block_entry.
        replace ((j * 8 + m) / 8 * 2048) with ss by lia.
        replace ((j * 8 + m) * 256) with (ss + m * 256) by lia.
        reflexivity.
  - intros s HP. unfold P in HP. cbv zeta in HP. destruct HP as [-> Hb].
    replace ((se - ss + 255) / 256) with (0 + 8) by lia.
    replace (Nat.min (ss + (0 + 8) * 256) se) with se by lia. reflexivity.
Qed.

Lemma count_in_bound bits a b :
  count_in (bit_at bits) a b <= count_in (bit_at bits) 0 (length bits).
Proof.
  destruct (Nat.le_gt_cases b a) as [H | H].
  - rewrite count_in_empty by lia. lia.
  - destruct (Nat.le_gt_cases (length bits) a) as [Ha | Ha].
    + rewrite count_in_beyond by lia. lia.
    + rewrite (count_in_split _ 0 a (length bits)) by lia.
      destruct (Nat.le_gt_cases b (length bits)) as [Hb | Hb].
      * rewrite (count_in_split _ a b (length bits)) by lia. lia.
      * rewrite (count_in_split _ a (length bits) b) by lia.
        rewrite (count_in_beyond bits (length bits) b) by lia. lia.
Qed.

Lemma build_index_spec bits :
  let nbits := length bits in
  BitVector.build_index (BitVector.pack bits) nbits
  = (map (super_entry bits) (seq 0 ((nbits + 2047) / 2048)),
     map (block_entry bits) (seq 0 ((nbits + 255) / 256)),
     count_in (bit_at bits) 0 nbits).
Proof.
  intros nbits. unfold BitVector.build_index.
  change BitVector.CS_SUPER_BLOCK_SIZE with 2048.
  replace ((nbits + 2048 - 1) / 2048) with ((nbits + 2047) / 2048) by lia.
  pose (P := fun j (st : list Z * list Z * nat) =>
               st = (map (super_entry bits) (seq 0 j),
                     map (block_entry bits) (seq 0 (Nat.min (j * 8) ((nbits + 255) / 256))),
                     count_in (bit_at bits) 0 (Nat.min (j * 2048) nbits))).
  match goal with |- ?lhs = _ => assert (HP : P ((nbits + 2047) / 2048) lhs) end.
  { apply for_loop_inv; [lia | |].
    - unfold P. simpl. rewrite count_in_empty by lia. reflexivity.
    - intros j [[super blocks] running] Hj HP. unfold P in HP.
      injection HP as -> -> ->. cbv zeta.
      rewrite (build_subs_spec bits j) by (fold nbits; lia).
      fold nbits. unfold P.
      rewrite seq_S, map_app. cbn [map].
      f_equal; [f_equal |].
      + f_equal. f_equal. unfold super_entry. f_equal. f_equal. f_equal. lia.
      + rewrite <- map_app. f_equal.
        replace (Nat.min (j * 8) ((nbits + 255) / 256)) with (j * 8) by lia.
        replace (Nat.min (S j * 8) ((nbits + 255) / 256))
          with (j * 8 + (Nat.min (j * 2048 + 2048) nbits - j * 2048 + 255) / 256) by lia.
        rewrite seq_app. reflexivity.
      + replace (Nat.min (j * 2048) nbits) with (j * 2048) by lia.
        rewrite (count_in_split _ 0 (j * 2048) (Nat.min (S j * 2048) nbits)) by lia.
        f_equal. f_equal. lia. }
  unfold P in HP. rewrite HP. f_equal; [f_equal |].
  - f_equal. f_equal. lia.
  - f_equal. lia.
Qed.

Lemma count_ones_loop_spec bits :
  BitVector.count_ones_loop (length bits) (BitVector.pack bits)
  = count_in (bit_at bits) 0 (length bits).
Proof.
  unfold BitVector.count_ones_loop. rewrite pack_length.
  pose (P := fun w total =>
               total = count_in (bit_at bits) 0 (Nat.min (w * 64) (length bits))).
  match goal with |- ?lhs = _ => assert (HP : P ((length bits + 63) / 64) lhs) end.
  { apply for_loop_inv; [lia | |].
    - unfold P. rewrite count_in_empty by lia. reflexivity.
    - intros w total Hw HP. unfold P in *. subst total. cbv zeta.
      rewrite (popcount_window bits w _ 0 (length bits)).
      + rewrite (count_in_split _ 0 (Nat.min (w * 64) (length bits))
                   (Nat.min (S w * 64) (length bits))) by lia.
        f_equal. f_equal; lia.
      + intros k. destruct (Nat.ltb_spec (length bits) ((w + 1) * 64)).
        * rewrite Z.land_spec, pack_testbit, low_mask_testbit by lia.
          destruct (bit_at bits (w * 64 + k)); nat_cases.
        * rewrite pack_testbit.
          destruct (bit_at bits (w * 64 + k)); nat_cases. }
  unfold P in HP. rewrite HP. f_equal. lia.
Qed.

Lemma count_ones_spec bits :
  BitVector.count_ones (BitVector.build bits) = count_in (bit_at bits) 0 (length bits).
Proof.
  unfold BitVector.build.
  destruct (Nat.eqb_spec (length bits) 0) as [H0 | H0].
  - rewrite H0. reflexivity.
  - rewrite build_index_spec. unfold BitVector.count_ones.
    cbn [BitVector.bits_ BitVector.nbits_]. apply count_ones_loop_spec.
Qed.

Lemma build_fields bits :
  length bits <> 0 ->
  BitVector.build bits
  = BitVector.mk (length bits) (BitVector.pack bits)
      (map (super_entry bits) (seq 0 ((length bits + 2047) / 2048)))
      (map (block_entry bits) (seq 0 ((length bits + 255) / 256))).
Proof.
  intros H. unfold BitVector.build.
  destruct (Nat.eqb_spec (length bits) 0); [contradiction |].
  now rewrite build_index_spec.
Qed.

Lemma build_nbits bits : BitVector.nbits_ (BitVector.build bits) = length bits.
Proof.
  unfold BitVector.build.
  destruct (Nat.eqb_spec (length bits) 0) as [-> | H]; [reflexivity |].
  now rewrite build_index_spec.
Qed.

Lemma nth_map_seq {A} (g : nat -> A) n k d :
  k < n -> nth k (map g (seq 0 n)) d = g k.
Proof.
  intros H. rewrite (nth_indep _ d (g 0)) by (now rewrite length_map, length_seq).
  rewrite (map_nth g (seq 0 n) 0 k), seq_nth by exact H. reflexivity.
Qed.

(** [rank1] is the prefix count, provided the number of 1-bits fits the
    [uint32_t] cells of [super_]. *)
Lemma rank1_spec bits i :
  (Z.of_nat (count_in (bit_at bits) 0 (length bits)) < 2 ^ 32)%Z ->
  BitVector.rank1 (BitVector.build bits) i = count_in (bit_at bits) 0 i.
Proof.
  intros Hfit. unfold BitVector.rank1.
  destruct (Nat.eqb_spec i 0) as [-> | Hi0]; [reflexivity |].
  rewrite build_nbits.
  destruct (Nat.leb_spec (length bits) i) as [Hge | Hlt].
  { rewrite count_ones_spec, (count_in_clip bits i). f_equal. lia. }
  rewrite build_fields by lia.
  cbn [BitVector.super_ BitVector.blocks_ BitVector.bits_].
  change BitVector.CS_SUPER_BLOCK_SIZE with 2048.
  change BitVector.CS_SUB_BLOCK_SIZE with 256.
  cbv zeta.
  replace (2048 / 256) with 8 by reflexivity.
  assert (Hq : i / 2048 < (length bits + 2047) / 2048) by lia.
  set (q := i / 2048) in *.
  assert (Hq1 : q * 2048 <= i < q * 2048 + 2048) by (unfold q; lia).
  clearbody q.
  rewrite nth_map_seq by exact Hq.
  rewrite length_map, length_seq.
  assert (Hsuper : Z.to_nat (super_entry bits q)
                   = count_in (bit_at bits) 0 (q * 2048)).
  { unfold super_entry, u32.
    pose proof (count_in_bound bits 0 (q * 2048)).
    rewrite Z.mod_small by lia. apply Nat2Z.id. }
  rewrite Hsuper.
  destruct (Nat.eqb_spec (i - q * 2048) 0) as [Hoff | Hoff].
  { f_equal. lia. }
  assert (Hm : (i - q * 2048) / 256 < 8) by lia.
  assert (Hm1 : (i - q * 2048) / 256 * 256 <= i - q * 2048) by lia.
  assert (Hm2 : i - q * 2048 < (i - q * 2048) / 256 * 256 + 256) by lia.
  set (m := (i - q * 2048) / 256) in *. clearbody m.
  assert (Hkl : q * 8 + m < (length bits + 255) / 256) by lia.
  apply Nat.ltb_lt in Hkl as Hkl'. rewrite Hkl'.
  rewrite nth_map_seq by exact Hkl.
  assert (Hblock : Z.to_nat (block_entry bits (q * 8 + m))
                   = count_in (bit_at bits) (q * 2048) (q * 2048 + m * 256)).
  { unfold block_entry, u16.
    replace ((q * 8 + m) / 8 * 2048) with (q * 2048) by lia.
    replace ((q * 8 + m) * 256) with (q * 2048 + m * 256) by lia.
    pose proof (count_in_le (bit_at bits) (q * 2048) (q * 2048 + m * 256)).
    rewrite Z.mod_small by lia. apply Nat2Z.id. }
  rewrite Hblock.
  rewrite <- (count_in_split _ 0 (q * 2048) (q * 2048 + m * 256)) by lia.
  destruct (Nat.eqb_spec i (q * 2048 + m * 256)) as [Hsub | Hsub].
  { now rewrite <- Hsub. }
  rewrite tail_popcount_spec by lia.
  symmetry. apply count_in_split; lia.
Qed.

(** C3: [BitVector::rank1] counts the 1-bits before [i]; [rank1(0) = 0];
    [rank1(i) = count_ones()] from [n_bits] on; and
    [rank0(i) + rank1(i) = min(i, n_bits)].  The number of 1-bits is taken
    to fit the 32-bit cells of the super-block table. *)
Theorem bitvector_rank_consistency (bits : list Z) (i : nat) :
  (Z.of_nat (naive_rank bits (length bits)) < 2 ^ 32)%Z ->
  let bv := BitVector.build bits in
  BitVector.rank1 bv i = naive_rank bits i
  /\ BitVector.rank1 bv 0 = 0
  /\ (length bits <= i -> BitVector.rank1 bv i = BitVector.count_ones bv)
  /\ BitVector.rank0 bv i + BitVector.rank1 bv i = Nat.min i (length bits).
Proof.
  intros Hfit bv. rewrite naive_rank_count in Hfit.
  assert (Hr : forall x, BitVector.rank1 bv x = naive_rank bits x).
  { intros x. unfold bv. rewrite rank1_spec by exact Hfit.
    symmetry. apply naive_rank_count. }
  split; [| split; [| split]].
  - apply Hr.
  - reflexivity.
  - intros Hge. rewrite Hr. unfold bv.
    rewrite count_ones_spec, naive_rank_count, (count_in_clip bits i).
    f_equal. lia.
  - unfold BitVector.rank0. rewrite !Hr, !naive_rank_count.
    assert (Hn : BitVector.nbits_ bv = length bits) by apply build_nbits.
    rewrite Hn.
    destruct (Nat.ltb_spec (length bits) i).
    + pose proof (count_in_le (bit_at bits) 0 (length bits)).
      rewrite (count_in_clip bits i), Nat.min_r by lia. lia.
    + pose proof (count_in_le (bit_at bits) 0 i). lia.
Qed.

Definition rank_bits_example : list Z := [1; 0; 1; 1; 0; 0; 7; 0; 1; 1; 1]%Z.

Lemma bitvector_rank_consistency_witness :
  let bv := BitVector.build rank_bits_example in
  BitVector.rank1 bv 7 = naive_rank rank_bits_example 7
  /\ BitVector.rank1 bv 0 = 0
  /\ (length rank_bits_example <= 7 -> BitVector.rank1 bv 7 = BitVector.count_ones bv)
  /\ BitVector.rank0 bv 7 + BitVector.rank1 bv 7 = Nat.min 7 (length rank_bits_example).
Proof.
  apply (bitvector_rank_consistency rank_bits_example 7).
  vm_compute. reflexivity.
Defined.

(* ------------------------------------------------------------------ *)
(** * BitvectorLearned: the learned rank *)

(** ** The learned rank agrees with the prefix count *)

Lemma i32_small z : (- 2 ^ 31 <= z < 2 ^ 31)%Z -> i32 z = z.
Proof. intros H. unfold i32. rewrite Z.mod_small by lia. lia. Qed.

Lemma accumulate_spec bits lo hi rank :
  lo <= hi ->
  BitvectorLearned.accumulate bits lo hi rank = rank + count_in (bit_at bits) lo hi.
Proof.
  intros H. unfold BitvectorLearned.accumulate.
  apply (for_loop_inv (fun k r => r = rank + count_in (bit_at bits) lo k)); [exact H | |].
  - rewrite count_in_empty by lia. lia.
  - intros k r Hk ->. rewrite count_in_step by lia.
    unfold bit_at. destruct (BitVector.truthy (nth k bits 0%Z)); lia.
Qed.

(** Arithmetic of the two strides. *)
Lemma stride_multiple S s : 0 < s -> S mod s = 0 -> S = S / s * s.
Proof.
  intros Hs Hm. pose proof (Nat.div_mod_eq S s). lia.
Qed.

Lemma coarse_count_lt S nbits j :
  0 < S -> j < (nbits + S - 1) / S -> j * S < nbits.
Proof.
  intros HS Hj.
  pose proof (Nat.Div0.mul_div_le (nbits + S - 1) S) as Hq.
  set (q := (nbits + S - 1) / S) in *. clearbody q. nia.
Qed.

Lemma coarse_idx_lt S nbits i :
  0 < S -> i < nbits -> i / S < (nbits + S - 1) / S.
Proof.
  intros HS Hi. apply Nat.Div0.div_lt_upper_bound.
  pose proof (Nat.div_mod_eq (nbits + S - 1) S) as Hq.
  pose proof (Nat.mod_upper_bound (nbits + S - 1) S ltac:(lia)) as Hr.
  set (q := (nbits + S - 1) / S) in *. clearbody q. lia.
Qed.

Lemma div_bounds a b : 0 < b -> a / b * b <= a < a / b * b + b.
Proof.
  intros Hb. pose proof (Nat.div_mod_eq a b).
  pose proof (Nat.mod_upper_bound a b ltac:(lia)). lia.
Qed.

Lemma cell_index_inj mics j m j' m' :
  m < mics -> m' < mics -> j * mics + m = j' * mics + m' -> j = j' /\ m = m'.
Proof.
  intros Hm Hm' He.
  destruct (Nat.lt_trichotomy j j') as [H | [H | H]].
  - assert (j * mics + mics <= j' * mics) by nia. lia.
  - subst j'. lia.
  - assert (j' * mics + mics <= j * mics) by nia. lia.
Qed.

Lemma cell_index_lt mics ncb q m :
  q < ncb -> m < mics -> q * mics + m < ncb * mics.
Proof. intros Hq Hm. nia. Qed.

(** The residual the build stores for micro-block [m] of coarse block [j]
    when the prediction for the block is [pred]. *)
Definition resid (bits : list Z) (S s : nat) (pred : Z) (j m : nat) : Z :=
  i32 (i32 (Z.of_nat (count_in (bit_at bits) 0 (j * S + m * s))) - pred).

Lemma build_micros_spec bits S s pgm_pred j res :
  0 < s -> S = S / s * s -> j * S < length bits ->
  j * (S / s) + S / s <= length res ->
  let running := count_in (bit_at bits) 0 (j * S) in
  let out := BitvectorLearned.build_micros bits S s pgm_pred j running (res, 0) in
  snd out = count_in (bit_at bits) (j * S) (Nat.min (j * S + S) (length bits))
  /\ length (fst out) = length res
  /\ (forall m, m < S / s -> j * S + m * s < length bits ->
                nth (j * (S / s) + m) (fst out) 0%Z = resid bits S s pgm_pred j m)
  /\ (forall idx, idx < j * (S / s) \/ j * (S / s) + S / s <= idx ->
                  nth idx (fst out) 0%Z = nth idx res 0%Z).
Proof.
  intros Hs HS Hj Hlen running out.
  set (mics := S / s) in *.
  set (se := Nat.min (j * S + S) (length bits)).
  pose (P := fun m (st : list Z * nat) =>
               snd st = count_in (bit_at bits) (j * S) (Nat.min (j * S + m * s) se)
               /\ length (fst st) = length res
               /\ (forall m', m' < m -> j * S + m' * s < length bits ->
                              nth (j * mics + m') (fst st) 0%Z = resid bits S s pgm_pred j m')
               /\ (forall idx, idx < j * mics \/ j * mics + mics <= idx ->
                               nth idx (fst st) 0%Z = nth idx res 0%Z)
               /\ m <= mics).
  pose (Q := fun (st : list Z * nat) =>
               snd st = count_in (bit_at bits) (j * S) se
               /\ length (fst st) = length res
               /\ (forall m, m < mics -> j * S + m * s < length bits ->
                             nth (j * mics + m) (fst st) 0%Z = resid bits S s pgm_pred j m)
               /\ (forall idx, idx < j * mics \/ j * mics + mics <= idx ->
                               nth idx (fst st) 0%Z = nth idx res 0%Z)).
  change (Q out). unfold out, BitvectorLearned.build_micros, for_loop_break.
  fold mics. rewrite Nat.sub_0_r.
  apply (for_count_break_inv P).
  - unfold P. cbn [fst snd]. repeat split; try lia.
    rewrite count_in_empty by lia. reflexivity.
  - intros m [r local] Hm HP. unfold P in HP. cbn [fst snd] in HP.
    destruct HP as (Hlocal & Hlr & Ha & Hb & Hmm).
    destruct (Nat.leb_spec (length bits) (j * S + m * s)) as [Hbreak | Hcont].
    + (* break *)
      unfold Q. cbn [fst snd]. repeat split; auto.
      * rewrite Hlocal. f_equal. unfold se. lia.
      * intros m' Hm' Hpos. apply Ha; [| exact Hpos]. nia.
    + unfold P. cbn [fst snd].
      assert (Hmic : j * S + m * s + s <= j * S + S) by nia.
      rewrite accumulate_spec by lia.
      repeat split.
      * rewrite Hlocal.
        replace (Nat.min (j * S + m * s) se) with (j * S + m * s) by (unfold se; lia).
        replace (Nat.min (j * S + m * s + s) (Nat.min (j * S + S) (length bits)))
          with (Nat.min (j * S + Datatypes.S m * s) se) by (unfold se; lia).
        symmetry. apply count_in_split; unfold se; lia.
      * now rewrite vec_set_length.
      * intros m' Hm' Hpos. rewrite vec_set_nth.
        destruct (Nat.eqb_spec (j * mics + m') (j * mics + m)) as [He | He].
        -- assert (m' = m) by lia. subst m'.
           replace (j * mics + m <? length r) with true
             by (symmetry; apply Nat.ltb_lt; lia).
           cbn [andb]. unfold resid. f_equal. f_equal. f_equal. f_equal.
           rewrite Hlocal. unfold running.
           replace (Nat.min (j * S + m * s) se) with (j * S + m * s) by (unfold se; lia).
           symmetry. apply count_in_split; lia.
        -- cbn [andb]. apply Ha; [lia | exact Hpos].
      * intros idx Hidx. rewrite vec_set_nth.
        destruct (Nat.eqb_spec idx (j * mics + m)) as [He | He]; [lia |].
        cbn [andb]. apply Hb. exact Hidx.
      * lia.
  - intros [r local] HP. unfold P in HP. cbn [fst snd] in HP.
    destruct HP as (Hlocal & Hlr & Ha & Hb & Hmm).
    unfold Q. cbn [fst snd]. repeat split; auto.
    rewrite Hlocal. f_equal. unfold se. nia.
Qed.

(** Step 4 of the build returns when the prediction of every coarse block
    has a value, and then holds the residual of every micro-block. *)
Lemma build_residuals_spec bits S s M :
  0 < s -> 0 < S -> S mod s = 0 ->
  (forall j, j * S < length bits ->
             PgmModel.predict M (u32 (Z.of_nat (j * S))) <> None) ->
  exists res,
    BitvectorLearned.build_residuals bits S s M = Some res
    /\ length res = (length bits + S - 1) / S * (S / s)
    /\ (forall j m pred, m < S / s -> j * S + m * s < length bits ->
          PgmModel.predict M (u32 (Z.of_nat (j * S))) = Some pred ->
          nth (j * (S / s) + m) res 0%Z = resid bits S s pred j m).
Proof.
  intros Hs HS0 Hmod Hdef.
  pose proof (stride_multiple S s Hs Hmod) as HS.
  set (mics := S / s) in *.
  set (ncb := (length bits + S - 1) / S) in *.
  assert (Hmics : 0 < mics) by nia.
  pose (P := fun j (ost : option (list Z * nat)) =>
               exists r running,
                 ost = Some (r, running)
                 /\ running = count_in (bit_at bits) 0 (Nat.min (j * S) (length bits))
                 /\ length r = ncb * mics
                 /\ (forall j' m pred, j' < j -> m < mics -> j' * S + m * s < length bits ->
                       PgmModel.predict M (u32 (Z.of_nat (j' * S))) = Some pred ->
                       nth (j' * mics + m) r 0%Z = resid bits S s pred j' m)).
  unfold BitvectorLearned.build_residuals. fold mics ncb.
  match goal with
  | |- context [for_loop 0 ncb ?body ?init] =>
      assert (HP : P ncb (for_loop 0 ncb body init))
  end.
  { apply for_loop_inv; [lia | |].
    - exists (repeat 0%Z (ncb * mics)), 0. split; [reflexivity |]. split; [| split].
      + rewrite count_in_empty by lia. reflexivity.
      + apply repeat_length.
      + intros j' m pred Hj'. lia.
    - intros j ost Hj (r & running & -> & Hrun & Hlr & Hprev).
      assert (HjS : j * S < length bits) by (apply coarse_count_lt; [lia | fold ncb; lia]).
      replace (Nat.min (j * S) (length bits)) with (j * S) in Hrun by lia.
      subst running. cbv zeta.
      destruct (PgmModel.predict M (u32 (Z.of_nat (j * S)))) as [pgm_pred |] eqn:Hpj;
        [| exfalso; exact (Hdef j HjS Hpj)].
      assert (Hroom : j * (S / s) + S / s <= length r) by (fold mics; nia).
      pose proof (build_micros_spec bits S s pgm_pred j r Hs HS HjS Hroom) as Hm.
      cbv zeta in Hm. fold mics in Hm.
      destruct (BitvectorLearned.build_micros bits S s pgm_pred j
                  (count_in (bit_at bits) 0 (j * S)) (r, 0)) as [r' local].
      cbn [fst snd] in Hm. destruct Hm as (Hlocal & Hlr' & Ha & Hb).
      exists r', (count_in (bit_at bits) 0 (j * S) + local).
      split; [reflexivity |]. split; [| split].
      + rewrite Hlocal.
        rewrite <- (count_in_split _ 0 (j * S) (Nat.min (j * S + S) (length bits))) by lia.
        f_equal. lia.
      + lia.
      + intros j' m pred Hj' Hm Hpos Hpred.
        destruct (Nat.eq_dec j' j) as [-> | Hne].
        * assert (pred = pgm_pred) by congruence. subst pred.
          apply Ha; assumption.
        * rewrite Hb by (left; nia).
          apply Hprev; [lia | assumption | assumption | assumption]. }
  destruct HP as (r & running & Hloop & _ & Hlr & Hall).
  exists r. rewrite Hloop. split; [reflexivity |]. split; [exact Hlr |].
  intros j m pred Hm Hpos Hpred. apply Hall; [| exact Hm | exact Hpos | exact Hpred].
  pose proof (Nat.div_mod_eq (length bits + S - 1) S) as Hq.
  pose proof (Nat.mod_upper_bound (length bits + S - 1) S ltac:(lia)) as Hr.
  fold ncb in Hq.
  destruct (Nat.lt_ge_cases j ncb) as [Hlt | Hge]; [exact Hlt |].
  assert (ncb * S <= j * S) by nia. lia.
Qed.

(** The model that step 3 of [build] fits to the coarse samples of the
    bits: the [pgm_] of the vector built from a non-empty sequence. *)
Definition fitted (bits : list Z) (S : nat) : PgmModel.t :=
  let '(coarse_x, coarse_y) := BitvectorLearned.coarse_samples bits S in
  PgmModel.fit coarse_x coarse_y.

Lemma build_fitted bits S s bl :
  BitvectorLearned.build bits S s = Some bl -> length bits <> 0 ->
  BitvectorLearned.pgm_ bl = fitted bits S.
Proof.
  unfold BitvectorLearned.build, fitted. intros H Hn.
  destruct (Nat.eqb_spec (length bits) 0); [contradiction |].
  destruct (S =? 0); [discriminate |].
  destruct (BitvectorLearned.coarse_samples bits S) as [xs ys].
  destruct ((0 <? s) && (S mod s =? 0)).
  - destruct (BitvectorLearned.build_residuals _ _ _ _); [| discriminate].
    injection H as <-. reflexivity.
  - injection H as <-. reflexivity.
Qed.

(** Position [p] lies in the coarse block that starts at [p / S * S]. *)
Lemma micro_position S s j m :
  0 < s -> S = S / s * s -> m < S / s ->
  (j * S + m * s) mod s = 0 /\ (j * S + m * s) / S * S = j * S.
Proof.
  intros Hs HS Hm. split.
  - rewrite HS. replace (j * (S / s * s) + m * s) with ((j * (S / s) + m) * s) by lia.
    apply Nat.Div0.mod_mul.
  - assert (HSpos : 0 < S) by nia.
    assert (Hq : (j * S + m * s) / S = j).
    { symmetry. apply (Nat.div_unique _ _ _ (m * s)); nia. }
    now rewrite Hq.
Qed.

(** [rank1] of the learned vector is the prefix count when the stored
    residuals do not overflow their [int32_t] cells. *)
Lemma learned_rank1_spec bits S s i :
  0 < s -> 0 < S -> S mod s = 0 ->
  (Z.of_nat (count_in (bit_at bits) 0 (length bits)) < 2 ^ 31)%Z ->
  (forall p, p < length bits -> p mod s = 0 ->
     exists pred,
       PgmModel.predict (fitted bits S) (u32 (Z.of_nat (p / S * S))) = Some pred
       /\ (- 2 ^ 31 <= Z.of_nat (count_in (bit_at bits) 0 p) - pred < 2 ^ 31)%Z) ->
  exists bl,
    BitvectorLearned.build bits S s = Some bl
    /\ BitvectorLearned.rank1 bl i = Some (count_in (bit_at bits) 0 i).
Proof.
  intros Hs HSpos Hmod Hfit Hpred.
  pose proof (stride_multiple S s Hs Hmod) as HS.
  unfold BitvectorLearned.build.
  destruct (Nat.eqb_spec (length bits) 0) as [H0 | H0].
  { (* empty input *)
    eexists. split; [reflexivity |]. unfold BitvectorLearned.rank1.
    destruct (Nat.eqb_spec i 0) as [-> | Hi0]; [reflexivity |].
    cbn [BitvectorLearned.nbits_ Nat.leb].
    rewrite count_in_beyond by lia. reflexivity. }
  destruct (Nat.eqb_spec S 0) as [HS0 | HS0]; [lia |].
  unfold fitted in Hpred.
  destruct (BitvectorLearned.coarse_samples bits S) as [xs ys].
  replace ((0 <? s) && (S mod s =? 0)) with true
    by (symmetry; apply andb_true_iff; split; [apply Nat.ltb_lt | apply Nat.eqb_eq]; lia).
  set (M := PgmModel.fit xs ys) in *.
  assert (Hdef : forall j, j * S < length bits ->
                           PgmModel.predict M (u32 (Z.of_nat (j * S))) <> None).
  { intros j Hj.
    destruct (micro_position S s j 0 Hs HS ltac:(nia)) as [Hm0 Hq0].
    rewrite Nat.mul_0_l, Nat.add_0_r in Hm0, Hq0.
    destruct (Hpred (j * S) Hj Hm0) as (pred & Hp & _).
    rewrite Hq0 in Hp. congruence. }
  destruct (build_residuals_spec bits S s M Hs HSpos Hmod Hdef) as (res & Hbr & Hlr & Hres).
  rewrite Hbr. eexists. split; [reflexivity |].
  unfold BitvectorLearned.rank1, BitvectorLearned.count_ones.
  cbn [BitvectorLearned.S_ BitvectorLearned.s_ BitvectorLearned.bits_
       BitvectorLearned.nbits_ BitvectorLearned.pgm_ BitvectorLearned.residuals_].
  destruct (Nat.eqb_spec i 0) as [-> | Hi0]; [reflexivity |].
  destruct (Nat.leb_spec (length bits) i) as [Hge | Hlt].
  { rewrite count_ones_loop_spec, (count_in_clip bits i). do 2 f_equal. lia. }
  destruct (Nat.eqb_spec S 0) as [HS0' | _]; [lia |].
  destruct (Nat.eqb_spec s 0) as [Hs0' | _]; [lia |].
  cbv zeta.
  pose proof (coarse_idx_lt S (length bits) i HSpos Hlt) as Hq.
  pose proof (div_bounds i S HSpos) as Hqb.
  set (q := i / S) in *.
  set (mics := S / s) in *.
  set (ncb := (length bits + S - 1) / S) in *.
  pose proof (div_bounds (i - q * S) s Hs) as Hmb.
  assert (Hm : (i - q * S) / s < mics).
  { apply Nat.Div0.div_lt_upper_bound. nia. }
  set (m := (i - q * S) / s) in *.
  destruct (micro_position S s q m Hs HS Hm) as [Hpm Hpq].
  destruct (Hpred (q * S + m * s) ltac:(lia) Hpm) as (pred & Hp & Hbound).
  rewrite Hpq in Hp. rewrite Hp.
  assert (Hidx : q * mics + m < length res)
    by (rewrite Hlr; apply cell_index_lt; assumption).
  replace (negb (length res =? 0) && (0 <? s)) with true.
  2:{ symmetry. apply andb_true_iff; split; [| apply Nat.ltb_lt; lia].
      apply negb_true_iff, Nat.eqb_neq. lia. }
  apply Nat.ltb_lt in Hidx as Hidx'. rewrite Hidx'.
  rewrite (Hres q m pred) by (assumption || lia).
  set (c0 := count_in (bit_at bits) 0 (q * S + m * s)) in *.
  assert (Hc0 : c0 <= count_in (bit_at bits) 0 (length bits)).
  { unfold c0. rewrite (count_in_split _ 0 (q * S + m * s) (length bits)) by lia. lia. }
  assert (Hresid : resid bits S s pred q m = (Z.of_nat c0 - pred)%Z).
  { unfold resid. fold c0.
    rewrite (i32_small (Z.of_nat c0)) by lia.
    apply i32_small. exact Hbound. }
  rewrite Hresid.
  assert (Htail : (if 0 <? i - (q * S + m * s)
                   then
                     if (i - 1) / 64 - (q * S + m * s) / 64 + 1
                        <=? BitvectorLearned.CS_MAX_TAIL_POPCOUNTS_R
                     then BitVector.tail_popcount (BitVector.pack bits) (q * S + m * s) i 0
                     else BitVector.tail_popcount (BitVector.pack bits) (q * S + m * s) i 0
                   else 0)
                  = count_in (bit_at bits) (q * S + m * s) i).
  { destruct (Nat.ltb_spec 0 (i - (q * S + m * s))) as [Ht | Ht].
    - destruct (_ <=? _); apply tail_popcount_spec; lia.
    - rewrite count_in_empty by lia. reflexivity. }
  rewrite Htail. f_equal.
  rewrite (count_in_split _ 0 (q * S + m * s) i) by lia. fold c0.
  match goal with |- (if (?z <? 0)%Z then _ else _) = _ =>
    replace z with (Z.of_nat (c0 + count_in (bit_at bits) (q * S + m * s) i)) by lia
  end.
  destruct (Z.ltb_spec (Z.of_nat (c0 + count_in (bit_at bits) (q * S + m * s) i)) 0); [lia |].
  apply Nat2Z.id.
Qed.

(** C2 (amended): a learned and a classic bit-vector built from the same
    bits return the same [rank1] at every index ([i = 0] and [i] beyond the
    bit count included), for a micro stride [s > 0] and a coarse stride
    [S > 0] that is a multiple of it, when the 1-bits fit 31 bits and every
    residual of the build fits its [int32_t] cell: at each multiple [p] of
    [s] below the bit count, the prediction of the model fitted by the
    build, for the start of the coarse block of [p], is defined and within
    an [int32_t] of the true rank at [p].  The build then returns. *)
Theorem learned_rank1_agrees_with_classic (bits : list Z) (S s : nat) (i : nat) :
  0 < s -> 0 < S -> S mod s = 0 ->
  (Z.of_nat (naive_rank bits (length bits)) < 2 ^ 31)%Z ->
  (forall p, p < length bits -> p mod s = 0 ->
     exists pred,
       PgmModel.predict (fitted bits S) (u32 (Z.of_nat (p / S * S))) = Some pred
       /\ (- 2 ^ 31 <= Z.of_nat (naive_rank bits p) - pred < 2 ^ 31)%Z) ->
  exists bl,
    BitvectorLearned.build bits S s = Some bl
    /\ BitvectorLearned.rank1 bl i = Some (BitVector.rank1 (BitVector.build bits) i).
Proof.
  intros Hs HS Hmod Hfit Hpred.
  rewrite naive_rank_count in Hfit.
  rewrite rank1_spec by lia.
  apply (learned_rank1_spec bits S s i Hs HS Hmod Hfit).
  intros p Hp Hps. destruct (Hpred p Hp Hps) as (pred & Hpr & Hb).
  exists pred. split; [exact Hpr |]. now rewrite <- naive_rank_count.
Qed.

Definition learned_bits_example : list Z :=
  [1; 0; 1; 1; 0; 0; 7; 0; 1; 1; 1; 0; 1; 0; 0; 1; 1; 1; 0]%Z.

(** The residual condition on a concrete input, by enumeration of the
    positions. *)
Definition residuals_fit_at (bits : list Z) (S : nat) (p : nat) : bool :=
  match PgmModel.predict (fitted bits S) (u32 (Z.of_nat (p / S * S))) with
  | Some pred =>
      let d := (Z.of_nat (count_in (bit_at bits) 0 p) - pred)%Z in
      (- 2 ^ 31 <=? d)%Z && (d <? 2 ^ 31)%Z
  | None => false
  end.

Lemma residuals_fit_checked bits S s :
  forallb (fun p => negb (p mod s =? 0) || residuals_fit_at bits S p)
          (seq 0 (length bits)) = true ->
  forall p, p < length bits -> p mod s = 0 ->
    exists pred,
      PgmModel.predict (fitted bits S) (u32 (Z.of_nat (p / S * S))) = Some pred
      /\ (- 2 ^ 31 <= Z.of_nat (count_in (bit_at bits) 0 p) - pred < 2 ^ 31)%Z.
Proof.
  intros Hall p Hp Hps. rewrite forallb_forall in Hall.
  specialize (Hall p ltac:(apply in_seq; lia)).
  rewrite Hps in Hall. cbn [Nat.eqb negb orb] in Hall.
  unfold residuals_fit_at in Hall.
  destruct (PgmModel.predict _ _) as [pred |]; [| discriminate].
  exists pred. split; [reflexivity |].
  apply andb_true_iff in Hall. destruct Hall as [Hlo Hhi].
  apply Z.leb_le in Hlo. apply Z.ltb_lt in Hhi. lia.
Qed.

Lemma learned_rank1_agrees_with_classic_witness :
  exists bl,
    BitvectorLearned.build learned_bits_example 8 4 = Some bl
    /\ BitvectorLearned.rank1 bl 14
       = Some (BitVector.rank1 (BitVector.build learned_bits_example) 14).
Proof.
  apply (learned_rank1_agrees_with_classic learned_bits_example 8 4 14).
  - lia.
  - lia.
  - reflexivity.
  - vm_compute. reflexivity.
  - intros p Hp Hps.
    destruct (residuals_fit_checked learned_bits_example 8 4 ltac:(vm_compute; reflexivity)
                p Hp Hps) as (pred & Hpr & Hb).
    exists pred. split; [exact Hpr |]. now rewrite naive_rank_count.
Defined.

(** C2 as stated does not hold: the coarse stride 0 is a multiple of every
    micro stride, and the build of a non-empty sequence then divides by
    zero, so that there is no learned vector to query. *)
Lemma learned_build_fails_on_zero_stride :
  ~ (forall (bits : list Z) (S s i : nat),
       0 < s -> S mod s = 0 ->
       exists bl,
         BitvectorLearned.build bits S s = Some bl
         /\ BitvectorLearned.rank1 bl i
            = Some (BitVector.rank1 (BitVector.build bits) i)).
Proof.
  intros Hall.
  destruct (Hall [1%Z] 0 1 0 ltac:(lia) eq_refl) as (bl & Hbuild & _).
  vm_compute in Hbuild. discriminate Hbuild.
Qed.

(* ------------------------------------------------------------------ *)
(** * WaveletTree: rank by descent *)

(** ** Bits of a symbol *)

Lemma bit_of_testbit x b : WaveletTree.bit_of x b = Z.b2z (Z.testbit x (Z.of_nat b)).
Proof.
  unfold WaveletTree.bit_of.
  change 1%Z with (Z.ones 1). rewrite Z.land_ones by lia.
  change (2 ^ 1)%Z with 2%Z. rewrite <- Z.bit0_mod.
  rewrite Z.shiftr_spec by lia. reflexivity.
Qed.

Lemma bit_of_zero x b :
  (WaveletTree.bit_of x b =? 0)%Z = negb (Z.testbit x (Z.of_nat b)).
Proof. rewrite bit_of_testbit. destruct (Z.testbit x (Z.of_nat b)); reflexivity. Qed.

Lemma truthy_bit_of x b :
  BitVector.truthy (WaveletTree.bit_of x b) = Z.testbit x (Z.of_nat b).
Proof. unfold BitVector.truthy. rewrite bit_of_zero. apply negb_involutive. Qed.

(** Two bytes with the same eight bits are equal. *)
Lemma byte_bits_eq x c :
  (0 <= x < 256)%Z -> (0 <= c < 256)%Z ->
  (forall k, k < 8 -> Z.testbit x (Z.of_nat k) = Z.testbit c (Z.of_nat k)) ->
  x = c.
Proof.
  intros Hx Hc H. apply Z.bits_inj'. intros k Hk.
  destruct (Z.lt_ge_cases k 8) as [Hlt | Hge].
  - replace k with (Z.of_nat (Z.to_nat k)) by lia. apply H. lia.
  - rewrite <- (Z.mod_small x (2 ^ 8)), <- (Z.mod_small c (2 ^ 8)) by lia.
    rewrite !Z.mod_pow2_bits_high by lia. reflexivity.
Qed.

(** ** One level of the build *)

Lemma vec_set_middle {A} (l1 l2 : list A) i x y :
  i = length l1 -> vec_set i x (l1 ++ y :: l2) = l1 ++ x :: l2.
Proof.
  intros ->. induction l1 as [|h t IH]; simpl; [reflexivity | now rewrite IH].
Qed.

Lemma firstn_snoc {A} (l : list A) i d :
  i < length l -> firstn (S i) l = firstn i l ++ [nth i l d].
Proof.
  revert i. induction l as [|h t IH]; intros i Hi; simpl in Hi; [lia |].
  destruct i as [|i]; [reflexivity |].
  rewrite firstn_cons. rewrite (IH i) by lia. reflexivity.
Qed.

Definition level_bits (bit : nat) (cur : list Z) : list Z :=
  map (fun x => WaveletTree.bit_of x bit) cur.

Definition zeros_of (bit : nat) (cur : list Z) : list Z :=
  filter (fun x => negb (Z.testbit x (Z.of_nat bit))) cur.

Definition ones_of (bit : nat) (cur : list Z) : list Z :=
  filter (fun x => Z.testbit x (Z.of_nat bit)) cur.

Lemma split_level_spec bit cur :
  WaveletTree.split_level bit cur = (level_bits bit cur, zeros_of bit cur, ones_of bit cur).
Proof.
  unfold WaveletTree.split_level.
  pose (P := fun i (st : list Z * list Z * list Z) =>
               st = (level_bits bit (firstn i cur) ++ repeat 0%Z (length cur - i),
                     zeros_of bit (firstn i cur), ones_of bit (firstn i cur))).
  match goal with |- ?lhs = _ => assert (HP : P (length cur) lhs) end.
  { apply for_loop_inv; [lia | |].
    - unfold P. rewrite Nat.sub_0_r. reflexivity.
    - intros i [[bv l] r] Hi HP. unfold P in HP. injection HP as -> -> ->.
      unfold P. rewrite (firstn_snoc cur i 0%Z) by lia.
      unfold level_bits, zeros_of, ones_of.
      rewrite map_app, !filter_app. cbn [map filter].
      replace (length cur - i) with (Datatypes.S (length cur - Datatypes.S i)) by lia.
      cbn [repeat].
      rewrite vec_set_middle by (rewrite length_map, length_firstn; lia).
      rewrite <- app_assoc. cbn [app].
      rewrite bit_of_zero.
      destruct (Z.testbit (nth i cur 0%Z) (Z.of_nat bit)); cbn [negb];
        rewrite ?app_nil_r; reflexivity. }
  unfold P in HP. rewrite HP, Nat.sub_diag, firstn_all. cbn [repeat].
  now rewrite app_nil_r.
Qed.

(** The sequence the build holds when it enters level [l]: the input,
    stably partitioned by bits 7, 6, ..., 8 - l in turn. *)
Fixpoint cur_at (bwt : list Z) (l : nat) : list Z :=
  match l with
  | O => bwt
  | Datatypes.S l' =>
      let cur := cur_at bwt l' in
      zeros_of (7 - l') cur ++ ones_of (7 - l') cur
  end.

Lemma partition_length bit (cur : list Z) :
  length (zeros_of bit cur ++ ones_of bit cur) = length cur.
Proof.
  unfold zeros_of, ones_of. rewrite length_app.
  induction cur as [|x cur IH]; [reflexivity |]. cbn [filter].
  destruct (Z.testbit x (Z.of_nat bit)); cbn [negb length]; lia.
Qed.

Lemma cur_at_length bwt l : length (cur_at bwt l) = length bwt.
Proof.
  induction l as [|l IH]; [reflexivity |]. cbn [cur_at].
  now rewrite partition_length.
Qed.

Lemma build_levels bwt :
  length bwt <> 0 ->
  WaveletTree.n_ (WaveletTree.build bwt) = length bwt
  /\ forall l, l < 8 ->
       nth l (WaveletTree.levels_ (WaveletTree.build bwt)) BitVector.empty
       = BitVector.build (level_bits (7 - l) (cur_at bwt l)).
Proof.
  intros Hn. unfold WaveletTree.build.
  destruct (Nat.eqb_spec (length bwt) 0) as [H0 | _]; [contradiction |].
  pose (P := fun l (st : list Z * list BitVector.t) =>
               (l < 8 -> fst st = cur_at bwt l)
               /\ length (snd st) = 8
               /\ forall k, k < l ->
                    nth k (snd st) BitVector.empty
                    = BitVector.build (level_bits (7 - k) (cur_at bwt k))).
  match goal with |- context [for_loop 0 8 ?body ?init] =>
    assert (HP : P 8 (for_loop 0 8 body init)) end.
  { apply for_loop_inv; [lia | |].
    - unfold P. cbn [fst snd]. split; [reflexivity | split; [reflexivity |]].
      intros k Hk. lia.
    - intros l [cur levels] Hl HP. unfold P in HP. cbn [fst snd] in HP.
      destruct HP as (Hcur & Hlen & Hprev).
      rewrite split_level_spec. unfold P. cbn [fst snd].
      specialize (Hcur ltac:(lia)). subst cur.
      split; [| split].
      + intros Hl'. replace (0 <? 7 - l) with true by (symmetry; apply Nat.ltb_lt; lia).
        reflexivity.
      + now rewrite vec_set_length.
      + intros k Hk. rewrite vec_set_nth.
        destruct (Nat.eqb_spec k l) as [-> | Hne].
        * replace (l <? length levels) with true by (symmetry; apply Nat.ltb_lt; lia).
          reflexivity.
        * cbn [andb]. apply Hprev. lia. }
  destruct (for_loop 0 8 _ _) as [cur levels].
  unfold P in HP. cbn [fst snd] in HP. destruct HP as (_ & _ & Hall).
  cbn [WaveletTree.n_ WaveletTree.levels_]. split; [reflexivity | exact Hall].
Qed.

(** ** One level of the descent *)

(** The elements of [l] at positions [[s, e)]. *)
Definition segment (l : list Z) (s e : nat) : list Z := firstn (e - s) (skipn s l).

Lemma segment_app (X A B C : list Z) :
  segment (X ++ A ++ B ++ C) (length X + length A) (length X + length A + length B) = B.
Proof.
  unfold segment.
  replace (length X + length A + length B - (length X + length A)) with (length B) by lia.
  rewrite app_assoc, <- length_app, skipn_app, skipn_all, Nat.sub_diag.
  cbn [app skipn]. rewrite firstn_app, firstn_all, Nat.sub_diag. cbn [firstn].
  apply app_nil_r.
Qed.

Lemma split_at_segment (cur : list Z) s e :
  s <= e -> e <= length cur ->
  cur = firstn s cur ++ segment cur s e ++ skipn e cur
  /\ firstn e cur = firstn s cur ++ segment cur s e.
Proof.
  intros Hse He. unfold segment.
  assert (H1 : firstn e cur = firstn s cur ++ firstn (e - s) (skipn s cur)).
  { rewrite <- (firstn_skipn s (firstn e cur)).
    rewrite firstn_firstn, Nat.min_l by lia.
    rewrite skipn_firstn_comm. reflexivity. }
  split; [| exact H1].
  rewrite app_assoc, <- H1. symmetry. apply firstn_skipn.
Qed.

Lemma zeros_ones_length bit (cur : list Z) :
  length (zeros_of bit cur) + length (ones_of bit cur) = length cur.
Proof. rewrite <- length_app. apply partition_length. Qed.

Lemma zeros_of_app bit a b : zeros_of bit (a ++ b) = zeros_of bit a ++ zeros_of bit b.
Proof. apply filter_app. Qed.

Lemma ones_of_app bit a b : ones_of bit (a ++ b) = ones_of bit a ++ ones_of bit b.
Proof. apply filter_app. Qed.

Lemma segment_zeros bit cur s e :
  s <= e -> e <= length cur ->
  segment (zeros_of bit cur ++ ones_of bit cur)
    (length (zeros_of bit (firstn s cur))) (length (zeros_of bit (firstn e cur)))
  = zeros_of bit (segment cur s e).
Proof.
  intros Hse He. destruct (split_at_segment cur s e Hse He) as [Hcur Hpre].
  rewrite Hpre, zeros_of_app, length_app.
  rewrite Hcur at 1. rewrite !zeros_of_app, <- !app_assoc.
  apply (segment_app [] (zeros_of bit (firstn s cur))).
Qed.

Lemma segment_ones bit cur s e :
  s <= e -> e <= length cur ->
  segment (zeros_of bit cur ++ ones_of bit cur)
    (length (zeros_of bit cur) + length (ones_of bit (firstn s cur)))
    (length (zeros_of bit cur) + length (ones_of bit (firstn e cur)))
  = ones_of bit (segment cur s e).
Proof.
  intros Hse He. destruct (split_at_segment cur s e Hse He) as [Hcur Hpre].
  rewrite Hpre, ones_of_app, length_app, Nat.add_assoc.
  rewrite Hcur at 2. rewrite !ones_of_app.
  apply segment_app.
Qed.

Lemma ones_prefix_le bit (cur : list Z) x :
  length (ones_of bit (firstn x cur)) <= length (ones_of bit cur).
Proof.
  rewrite <- (firstn_skipn x cur) at 2. rewrite ones_of_app, length_app. lia.
Qed.

(** [rank1] on the bit-vector of a level. *)
Lemma level_rank1 bit cur x :
  (Z.of_nat (length cur) < 2 ^ 32)%Z ->
  BitVector.rank1 (BitVector.build (level_bits bit cur)) x
  = length (ones_of bit (firstn x cur)).
Proof.
  intros Hn. rewrite rank1_spec.
  - rewrite <- naive_rank_count. unfold naive_rank, level_bits, ones_of.
    rewrite firstn_map, filter_map_swap, length_map. f_equal.
    apply filter_ext. intros a. apply truthy_bit_of.
  - pose proof (count_in_le (bit_at (level_bits bit cur)) 0 (length (level_bits bit cur))) as H.
    assert (Hl : length (level_bits bit cur) = length cur) by apply length_map.
    rewrite Hl in *. lia.
Qed.

Lemma level_size bit cur :
  BitVector.size (BitVector.build (level_bits bit cur)) = length cur.
Proof. unfold BitVector.size. rewrite build_nbits. apply length_map. Qed.

(** ** The descent *)

(** [x] and [c] agree on bits 7, 6, ..., 8 - l. *)
Definition agree (c : Z) (l : nat) (x : Z) : bool :=
  forallb (fun k => Bool.eqb (Z.testbit x (Z.of_nat (7 - k))) (Z.testbit c (Z.of_nat (7 - k))))
    (seq 0 l).

Definition matched (bwt : list Z) (c : Z) (i l : nat) : list Z :=
  filter (agree c l) (firstn i bwt).

Lemma filter_filter_and {A} (p q : A -> bool) l :
  filter p (filter q l) = filter (fun x => q x && p x) l.
Proof.
  induction l as [|a l IH]; [reflexivity |]. cbn [filter].
  destruct (q a); cbn [filter andb]; [destruct (p a) |]; now rewrite IH.
Qed.

Lemma matched_succ bwt c i l :
  matched bwt c i (Datatypes.S l)
  = if Z.testbit c (Z.of_nat (7 - l))
    then ones_of (7 - l) (matched bwt c i l)
    else zeros_of (7 - l) (matched bwt c i l).
Proof.
  unfold matched, ones_of, zeros_of.
  destruct (Z.testbit c (Z.of_nat (7 - l))) eqn:Hc;
    rewrite filter_filter_and; apply filter_ext; intros x;
    unfold agree; rewrite seq_S, forallb_app; cbn [forallb Nat.add];
    rewrite Hc, andb_true_r; f_equal;
    destruct (Z.testbit x (Z.of_nat (7 - l))); reflexivity.
Qed.

Lemma agree_refl c l : agree c l c = true.
Proof.
  unfold agree. apply forallb_forall. intros k _. apply Bool.eqb_reflx.
Qed.

Lemma matched_nil_occ bwt c i l :
  matched bwt c i l = [] -> naive_occ bwt c i = 0.
Proof.
  unfold matched, naive_occ. intros H.
  induction (firstn i bwt) as [|x L IH]; [reflexivity |].
  cbn [filter] in *. destruct (Z.eqb_spec c x) as [<- | Hne].
  - rewrite agree_refl in H. discriminate.
  - apply IH. destruct (agree c l x); [discriminate | exact H].
Qed.

Lemma in_firstn {A} (x : A) n l : In x (firstn n l) -> In x l.
Proof.
  intros H. rewrite <- (firstn_skipn n l). apply in_or_app. now left.
Qed.

Lemma matched_all bwt c i :
  (0 <= c < 256)%Z -> Forall (fun x => 0 <= x < 256)%Z bwt ->
  length (matched bwt c i 8) = naive_occ bwt c i.
Proof.
  intros Hc Hall. unfold matched, naive_occ. f_equal.
  apply filter_ext_in. intros x Hx.
  assert (Hxr : (0 <= x < 256)%Z).
  { rewrite Forall_forall in Hall. apply Hall.
    apply (in_firstn x i bwt Hx). }
  destruct (Z.eqb_spec c x) as [<- | Hne]; [apply agree_refl |].
  destruct (agree c 8 x) eqn:Ha; [| reflexivity].
  exfalso. apply Hne. symmetry. apply byte_bits_eq; try assumption.
  intros k Hk. unfold agree in Ha. rewrite forallb_forall in Ha.
  specialize (Ha (7 - k)). rewrite in_seq in Ha.
  specialize (Ha ltac:(lia)). replace (7 - (7 - k)) with k in Ha by lia.
  now apply Bool.eqb_prop.
Qed.

(** The rank of the wavelet tree for an in-range index. *)
Lemma wavelet_rank_spec bwt c i :
  (Z.of_nat (length bwt) < 2 ^ 32)%Z ->
  (0 <= c < 256)%Z -> Forall (fun x => 0 <= x < 256)%Z bwt ->
  i <= length bwt ->
  WaveletTree.rank (WaveletTree.build bwt) c i = naive_occ bwt c i.
Proof.
  intros Hn Hc Hall Hi. unfold WaveletTree.rank.
  destruct (Nat.eqb_spec i 0) as [-> | Hi0]; [reflexivity |].
  assert (Hlen : length bwt <> 0) by lia.
  destruct (build_levels bwt Hlen) as [Hnn Hlev].
  rewrite Hnn.
  replace (length bwt <? i) with false by (symmetry; apply Nat.ltb_ge; lia).
  cbn [orb].
  set (wt := WaveletTree.build bwt) in *.
  pose (value := fun st => match st with
                           | WaveletTree.Descending s e => e - s
                           | WaveletTree.Returned r => r
                           end).
  pose (P := fun l st =>
               match st with
               | WaveletTree.Descending s e =>
                   s < e /\ e <= length bwt /\ segment (cur_at bwt l) s e = matched bwt c i l
               | WaveletTree.Returned _ => False
               end).
  pose (Q := fun st => value st = naive_occ bwt c i).
  match goal with |- match ?st with _ => _ end = _ => change (Q st) end.
  unfold for_loop_break. rewrite Nat.sub_0_r.
  apply (for_count_break_inv P).
  - unfold P. split; [lia | split; [lia |]].
    unfold segment, matched. cbn [cur_at skipn]. rewrite Nat.sub_0_r.
    symmetry. unfold agree. cbn [seq forallb].
    induction (firstn i bwt) as [|x L IH]; [reflexivity |]. cbn [filter]. now rewrite IH.
  - intros l [s e | r] Hl HP; [| contradiction].
    unfold P in HP. destruct HP as (Hse & He & Hseg).
    rewrite (Hlev l) by lia.
    rewrite !level_rank1, level_size by (rewrite cur_at_length; exact Hn).
    rewrite bit_of_zero.
    set (cur := cur_at bwt l) in *.
    assert (Hcl : length cur = length bwt) by apply cur_at_length.
    pose proof (zeros_ones_length (7 - l) (firstn s cur)) as Hzs.
    pose proof (zeros_ones_length (7 - l) (firstn e cur)) as Hze.
    pose proof (zeros_ones_length (7 - l) cur) as Hzc.
    rewrite length_firstn in Hzs, Hze.
    rewrite (firstn_all2 (n := length cur)) by lia.
    pose proof (ones_prefix_le (7 - l) cur e) as Hoe.
    pose proof (matched_succ bwt c i l) as Hm.
    destruct (Z.testbit c (Z.of_nat (7 - l))); cbn [negb].
    + (* go right *)
      pose proof (segment_ones (7 - l) cur s e ltac:(lia) ltac:(lia)) as Hso.
      rewrite Hseg, <- Hm in Hso.
      replace (length cur - length (ones_of (7 - l) cur))
        with (length (zeros_of (7 - l) cur)) by lia.
      destruct (Nat.leb_spec
                  (length (zeros_of (7 - l) cur) + length (ones_of (7 - l) (firstn e cur)))
                  (length (zeros_of (7 - l) cur) + length (ones_of (7 - l) (firstn s cur))))
        as [Hempty | Hne].
      * unfold Q, value. symmetry. apply (matched_nil_occ bwt c i (Datatypes.S l)).
        rewrite <- Hso. unfold segment.
        replace (_ - _) with 0 by lia. reflexivity.
      * unfold P. split; [lia | split; [lia |]]. exact Hso.
    + (* go left *)
      pose proof (segment_zeros (7 - l) cur s e ltac:(lia) ltac:(lia)) as Hsz.
      rewrite Hseg, <- Hm in Hsz.
      replace (s - length (ones_of (7 - l) (firstn s cur)))
        with (length (zeros_of (7 - l) (firstn s cur))) by lia.
      replace (e - length (ones_of (7 - l) (firstn e cur)))
        with (length (zeros_of (7 - l) (firstn e cur))) by lia.
      destruct (Nat.leb_spec (length (zeros_of (7 - l) (firstn e cur)))
                  (length (zeros_of (7 - l) (firstn s cur)))) as [Hempty | Hne].
      * unfold Q, value. symmetry. apply (matched_nil_occ bwt c i (Datatypes.S l)).
        rewrite <- Hsz. unfold segment.
        replace (_ - _) with 0 by lia. reflexivity.
      * unfold P. split; [lia | split; [lia |]]. exact Hsz.
  - intros [s e | r] HP; [| contradiction].
    unfold P in HP. destruct HP as (Hse & He & Hseg).
    unfold Q, value. rewrite <- matched_all by assumption.
    cbn [Nat.add] in Hseg. rewrite <- Hseg. unfold segment.
    rewrite length_firstn, length_skipn, cur_at_length. lia.
Qed.

(** Beyond the end the first test of [rank] answers 0 whatever the tree holds. *)
Lemma wavelet_rank_beyond wt c i :
  WaveletTree.n_ wt < i -> WaveletTree.rank wt c i = 0.
Proof.
  intros H. unfold WaveletTree.rank.
  replace (WaveletTree.n_ wt <? i) with true by (symmetry; apply Nat.ltb_lt; exact H).
  now rewrite orb_true_r.
Qed.

(** C5: [rank(c, 0) = 0], but an index beyond [n] is not clamped: on the
    one-symbol sequence ["x"], [rank('x', 2)] is 0 although [rank('x', 1)],
    the total count of ['x'], is 1. *)
Theorem wavelet_rank_edge_cases :
  (forall wt c, WaveletTree.rank wt c 0 = 0)
  /\ WaveletTree.rank (WaveletTree.build [120%Z]) 120%Z 1 = 1
  /\ WaveletTree.rank (WaveletTree.build [120%Z]) 120%Z 2 = 0.
Proof.
  split; [intros wt c; reflexivity |].
  split; vm_compute; reflexivity.
Qed.

(* ------------------------------------------------------------------ *)
(** * The suffix array *)

Lemma byte_val_range b : (0 <= byte_val b < 256)%Z.
Proof.
  unfold byte_val. pose proof (Byte.to_N_bounded b). lia.
Qed.

Lemma byte_val_inj a b : byte_val a = byte_val b -> a = b.
Proof.
  unfold byte_val. intros H. apply N2Z.inj in H.
  apply (f_equal Byte.of_N) in H. rewrite !Byte.of_to_N in H.
  now injection H.
Qed.

Lemma size32_small {A} (v : list A) :
  (Z.of_nat (length v) < 2 ^ 32)%Z -> size32 v = length v.
Proof.
  intros H. unfold size32, u32. rewrite Z.mod_small by lia. apply Nat2Z.id.
Qed.

(** ** The order on strings *)

Lemma string_lt_irrefl x : string_lt x x = false.
Proof.
  induction x as [|a x IH]; [reflexivity |]. cbn [string_lt].
  rewrite Z.ltb_irrefl. exact IH.
Qed.

Lemma string_lt_trans x y z :
  string_lt x y = true -> string_lt y z = true -> string_lt x z = true.
Proof.
  revert y z. induction x as [|a x IH]; intros [|b y] [|c z] Hxy Hyz;
    cbn [string_lt] in *; try discriminate; try reflexivity.
  destruct (Z.ltb_spec (byte_val a) (byte_val b));
    destruct (Z.ltb_spec (byte_val b) (byte_val c));
    destruct (Z.ltb_spec (byte_val a) (byte_val c)); try reflexivity; try lia;
    destruct (Z.ltb_spec (byte_val b) (byte_val a)); try discriminate; try lia;
    destruct (Z.ltb_spec (byte_val c) (byte_val b)); try discriminate; try lia;
    destruct (Z.ltb_spec (byte_val c) (byte_val a)); try lia.
  eapply IH; eassumption.
Qed.

Lemma string_lt_total x y :
  x <> y -> string_lt x y = true \/ string_lt y x = true.
Proof.
  revert y. induction x as [|a x IH]; intros [|b y] Hne; cbn [string_lt].
  - contradiction.
  - now left.
  - now right.
  - destruct (Z.ltb_spec (byte_val a) (byte_val b)); [now left |].
    destruct (Z.ltb_spec (byte_val b) (byte_val a)); [now right |].
    assert (a = b) by (apply byte_val_inj; lia). subst b.
    apply IH. intros ->. now apply Hne.
Qed.

Lemma string_lt_asym x y : string_lt x y = true -> string_lt y x = false.
Proof.
  intros H. destruct (string_lt y x) eqn:E; [| reflexivity].
  pose proof (string_lt_trans _ _ _ H E) as Hxx.
  now rewrite string_lt_irrefl in Hxx.
Qed.

Lemma string_lt_cons a x b y :
  string_lt (a :: x) (b :: y)
  = (byte_val a <? byte_val b)%Z || ((byte_val a =? byte_val b)%Z && string_lt x y).
Proof.
  cbn [string_lt].
  destruct (Z.ltb_spec (byte_val a) (byte_val b)); [reflexivity |].
  destruct (Z.ltb_spec (byte_val b) (byte_val a));
    destruct (Z.eqb_spec (byte_val a) (byte_val b)); try lia; reflexivity.
Qed.

(** ** Insertion sort *)

Section Sort.

Variable A : Type.
Variable comp : A -> A -> bool.
Variable dom : A -> Prop.
Hypothesis comp_trans :
  forall x y z, comp x y = true -> comp y z = true -> comp x z = true.
Hypothesis comp_total :
  forall x y, dom x -> dom y -> x <> y -> comp x y = true \/ comp y x = true.

Let R (x y : A) : Prop := comp x y = true.

Lemma sort_insert_perm x l : Permutation (sort_insert comp x l) (x :: l).
Proof.
  induction l as [|y l IH]; cbn [sort_insert]; [reflexivity |].
  destruct (comp x y); [reflexivity |].
  rewrite IH. apply perm_swap.
Qed.

Lemma std_sort_perm l : Permutation (std_sort comp l) l.
Proof.
  induction l as [|x l IH]; cbn [std_sort]; [reflexivity |].
  rewrite sort_insert_perm. now constructor.
Qed.

Lemma sort_insert_sorted x l :
  dom x -> Forall dom l -> ~ In x l ->
  StronglySorted R l -> StronglySorted R (sort_insert comp x l).
Proof.
  intros Hx Hdom Hnin Hs. induction Hs as [|y l Hs IH Hy]; cbn [sort_insert].
  - constructor; constructor.
  - destruct (comp x y) eqn:Hc.
    + constructor; [constructor; assumption |].
      constructor; [exact Hc |].
      rewrite Forall_forall in *. intros z Hz.
      apply (comp_trans x y z Hc). now apply Hy.
    + inversion Hdom as [|? ? Hdy Hdl]; subst.
      constructor.
      * apply IH; [exact Hdl | intros Hin; apply Hnin; now right].
      * rewrite Forall_forall in *. intros z Hz.
        apply (Permutation_in _ (sort_insert_perm x l)) in Hz.
        destruct Hz as [<- | Hz]; [| now apply Hy].
        destruct (comp_total x y Hx Hdy) as [H | H].
        -- intros ->. apply Hnin. now left.
        -- unfold R in *. congruence.
        -- exact H.
Qed.

Lemma std_sort_sorted l :
  Forall dom l -> NoDup l -> StronglySorted R (std_sort comp l).
Proof.
  intros Hdom Hnd. induction l as [|x l IH]; cbn [std_sort]; [constructor |].
  inversion Hdom; subst. inversion Hnd; subst.
  apply sort_insert_sorted; try assumption.
  - rewrite Forall_forall in *. intros z Hz. 
    apply (Permutation_in _ (std_sort_perm l)) in Hz. auto.
  - intros Hin. apply (Permutation_in _ (std_sort_perm l)) in Hin. contradiction.
  - now apply IH.
Qed.

Lemma strongly_sorted_nth l d :
  StronglySorted R l ->
  forall i j, i < j -> j < length l -> R (nth i l d) (nth j l d).
Proof.
  intros Hs. induction Hs as [|x l Hs IH Hx]; intros i j Hij Hj; cbn [length] in Hj; [lia |].
  destruct j as [|j]; [lia |]. destruct i as [|i]; cbn [nth].
  - rewrite Forall_forall in Hx. apply Hx. apply nth_In. lia.
  - apply IH; lia.
Qed.

End Sort.

(* ------------------------------------------------------------------ *)
(** * Counting along permutations *)

Lemma filter_length_perm {A} (f : A -> bool) l l' :
  Permutation l l' -> length (filter f l) = length (filter f l').
Proof.
  intros H. induction H as [| x l l' _ IH | x y l | l l' l'' _ IH1 _ IH2].
  - reflexivity.
  - cbn [filter]. destruct (f x); cbn [length]; now rewrite IH.
  - cbn [filter]. destruct (f x), (f y); reflexivity.
  - now rewrite IH1.
Qed.

Lemma map_nth_seq {A} (l : list A) d : map (fun i => nth i l d) (seq 0 (length l)) = l.
Proof.
  induction l as [|x l IH]; [reflexivity |].
  cbn [length seq map nth]. f_equal.
  rewrite <- seq_shift, map_map. exact IH.
Qed.

Lemma count_in_filter (f : nat -> bool) n : count_in f 0 n = length (filter f (seq 0 n)).
Proof. unfold count_in. now rewrite Nat.sub_0_r. Qed.

(** Counting over the entries of a permutation of [[0, n)] is counting over
    [[0, n)]. *)
Lemma count_in_perm (f : nat -> bool) (l : list nat) :
  Permutation l (seq 0 (length l)) ->
  count_in (fun i => f (nth i l 0)) 0 (length l) = count_in f 0 (length l).
Proof.
  intros Hp. rewrite !count_in_filter.
  rewrite <- (filter_length_perm f _ _ Hp).
  transitivity (length (filter f (map (fun i => nth i l 0) (seq 0 (length l))))).
  - now rewrite filter_map_swap, length_map.
  - now rewrite map_nth_seq.
Qed.

(** The text position before [q], cyclically. *)
Definition cyc_pred (n q : nat) : nat := (q + n - 1) mod n.

Lemma cyc_pred_perm n : Permutation (map (cyc_pred n) (seq 0 n)) (seq 0 n).
Proof.
  destruct n as [|n]; [reflexivity |].
  cbn [seq map]. rewrite <- seq_shift, map_map.
  rewrite (map_ext_in _ (fun k => k)).
  2:{ intros k Hk. apply in_seq in Hk. unfold cyc_pred.
      replace (Datatypes.S k + Datatypes.S n - 1) with (k + 1 * Datatypes.S n) by lia.
      rewrite Nat.Div0.mod_add. apply Nat.mod_small. lia. }
  rewrite map_id.
  replace (cyc_pred (Datatypes.S n) 0) with n.
  2:{ unfold cyc_pred. symmetry.
      replace (0 + Datatypes.S n - 1) with n by lia. apply Nat.mod_small. lia. }
  rewrite seq_shift. change (0 :: seq 1 n) with (seq 0 (Datatypes.S n)).
  rewrite seq_S. cbn [Nat.add]. apply Permutation_cons_append.
Qed.

Lemma count_in_cyc_pred (f : nat -> bool) n :
  count_in (fun q => f (cyc_pred n q)) 0 n = count_in f 0 n.
Proof.
  rewrite !count_in_filter.
  rewrite <- (filter_length_perm f _ _ (cyc_pred_perm n)).
  rewrite filter_map_swap, length_map. reflexivity.
Qed.

Lemma count_in_or (f g : nat -> bool) a b :
  (forall j, a <= j < b -> f j && g j = false) ->
  count_in (fun j => f j || g j) a b = count_in f a b + count_in g a b.
Proof.
  intros Hex. unfold count_in.
  assert (H : forall l, (forall j, In j l -> f j && g j = false) ->
                        length (filter (fun j => f j || g j) l)
                        = length (filter f l) + length (filter g l)).
  { induction l as [|x l IH]; intros Hl; [reflexivity |].
    cbn [filter]. pose proof (Hl x (or_introl eq_refl)) as Hx.
    specialize (IH (fun j Hj => Hl j (or_intror Hj))).
    destruct (f x), (g x); cbn [orb andb length] in *; try discriminate; lia. }
  apply H. intros j Hj. apply in_seq in Hj. apply Hex. lia.
Qed.

Lemma count_in_below j n : j <= n -> count_in (fun k => k <? j) 0 n = j.
Proof.
  intros H. rewrite (count_in_ext _ (fun k => true && (0 <=? k) && (k <? j))).
  2:{ intros k _. reflexivity. }
  rewrite (count_in_window (fun _ => true) 0 n 0 j).
  rewrite Nat.max_l, Nat.min_r by lia.
  unfold count_in. rewrite Nat.sub_0_r.
  assert (Hall : forall l : list nat, filter (fun _ => true) l = l)
    by (induction l as [|x l IH]; cbn [filter]; congruence).
  rewrite Hall. apply length_seq.
Qed.

Lemma filter_firstn_count {A} (f : A -> bool) (l : list A) d i :
  i <= length l ->
  length (filter f (firstn i l)) = count_in (fun k => f (nth k l d)) 0 i.
Proof.
  revert l. induction i as [|i IH]; intros l Hi.
  - reflexivity.
  - rewrite (firstn_snoc l i d) by lia.
    rewrite filter_app, length_app, IH by lia.
    rewrite count_in_step by lia. cbn [filter].
    destruct (f (nth i l d)); reflexivity.
Qed.

(* ------------------------------------------------------------------ *)
(** * The index of a text whose last byte occurs nowhere else *)

(* ------------------------------------------------------------------ *)
(** * The cumulative table *)

(** Occurrences of the byte value [c] in [l], and bytes of [l] below [c]. *)
Definition freq_of (l : list byte) (c : Z) : nat :=
  length (filter (fun b => (byte_val b =? c)%Z) l).

Definition less_of (l : list byte) (c : Z) : nat :=
  length (filter (fun b => (byte_val b <? c)%Z) l).

Lemma freq_of_le l c : freq_of l c <= length l.
Proof. apply filter_length_le. Qed.

Lemma less_of_le l c : less_of l c <= length l.
Proof. apply filter_length_le. Qed.

Lemma less_of_0 l : less_of l 0 = 0.
Proof.
  unfold less_of. induction l as [|b l IH]; [reflexivity |]. cbn [filter].
  pose proof (byte_val_range b).
  destruct (Z.ltb_spec (byte_val b) 0); [lia | exact IH].
Qed.

Lemma less_of_256 l : less_of l 256 = length l.
Proof.
  unfold less_of. induction l as [|b l IH]; [reflexivity |]. cbn [filter].
  pose proof (byte_val_range b).
  destruct (Z.ltb_spec (byte_val b) 256); [cbn [length]; now rewrite IH | lia].
Qed.

Lemma less_of_succ l c : less_of l (c + 1) = less_of l c + freq_of l c.
Proof.
  unfold less_of, freq_of. induction l as [|b l IH]; [reflexivity |]. cbn [filter].
  destruct (Z.ltb_spec (byte_val b) (c + 1)); destruct (Z.ltb_spec (byte_val b) c);
    destruct (Z.eqb_spec (byte_val b) c); try lia; cbn [length]; lia.
Qed.

Lemma u32_add_l a b : u32 (u32 a + b) = u32 (a + b).
Proof. unfold u32. apply Zplus_mod_idemp_l. Qed.

Lemma u32_small z : (0 <= z < 2 ^ 32)%Z -> u32 z = z.
Proof. apply Z.mod_small. Qed.

Lemma byte_freq_fold l :
  forall acc,
    length acc = 256 ->
    let r := fold_left
               (fun freq ch =>
                  let c := Z.to_nat (byte_val ch) in
                  vec_set c (u32 (nth c freq 0%Z + 1)) freq) l acc in
    length r = 256
    /\ forall c, c < 256 ->
         u32 (nth c r 0%Z) = u32 (nth c acc 0%Z + Z.of_nat (freq_of l (Z.of_nat c))).
Proof.
  induction l as [|b l IH]; intros acc Hacc; cbn [fold_left]; cbv zeta.
  - split; [exact Hacc |]. intros c Hc. cbn. now rewrite Z.add_0_r.
  - destruct (IH (vec_set (Z.to_nat (byte_val b))
                    (u32 (nth (Z.to_nat (byte_val b)) acc 0%Z + 1)) acc)) as [Hlen Hall].
    { now rewrite vec_set_length. }
    cbv zeta in Hlen, Hall.
    split; [exact Hlen |]. intros c Hc. rewrite (Hall c Hc).
    rewrite vec_set_nth. pose proof (byte_val_range b) as Hb.
    unfold freq_of at 2. cbn [filter]. fold (freq_of l (Z.of_nat c)).
    destruct (Nat.eqb_spec c (Z.to_nat (byte_val b))) as [-> | Hne].
    + replace (Z.to_nat (byte_val b) <? length acc) with true
        by (symmetry; apply Nat.ltb_lt; lia).
      cbn [andb]. rewrite Z2Nat.id by lia. rewrite Z.eqb_refl. cbn [length].
      rewrite u32_add_l. f_equal. unfold freq_of. lia.
    + cbn [andb].
      destruct (Z.eqb_spec (byte_val b) (Z.of_nat c)) as [He | _]; [lia | reflexivity].
Qed.

Lemma byte_freq_spec l :
  (Z.of_nat (length l) < 2 ^ 32)%Z ->
  length (FMIndex.byte_freq l) = 256
  /\ forall c, c < 256 ->
       u32 (nth c (FMIndex.byte_freq l) 0%Z) = Z.of_nat (freq_of l (Z.of_nat c)).
Proof.
  intros Hl. unfold FMIndex.byte_freq.
  destruct (byte_freq_fold l (repeat 0%Z 256) (repeat_length _ _)) as [Hlen Hall].
  cbv zeta in Hlen, Hall.
  split; [exact Hlen |]. intros c Hc. rewrite (Hall c Hc).
  rewrite nth_repeat. cbn [Z.add]. apply u32_small.
  pose proof (freq_of_le l (Z.of_nat c)). lia.
Qed.

Lemma build_C_spec l :
  (Z.of_nat (length l) < 2 ^ 32)%Z ->
  length (FMIndex.build_C l) = 257
  /\ forall c, c <= 256 ->
       nth c (FMIndex.build_C l) 0%Z = Z.of_nat (less_of l (Z.of_nat c)).
Proof.
  intros Hl. unfold FMIndex.build_C.
  destruct (byte_freq_spec l Hl) as [Hfl Hf].
  pose (P := fun c (st : list Z * Z) =>
               length (fst st) = 257
               /\ snd st = Z.of_nat (less_of l (Z.of_nat c))
               /\ forall c', c' < c ->
                    nth c' (fst st) 0%Z = Z.of_nat (less_of l (Z.of_nat c'))).
  match goal with |- context [for_loop 0 256 ?body ?init] =>
    assert (HP : P 256 (for_loop 0 256 body init)) end.
  { apply for_loop_inv; [lia | |].
    - unfold P. cbn [fst snd]. split; [reflexivity | split].
      + now rewrite less_of_0.
      + intros c' Hc'. lia.
    - intros c [C cum] Hc HP. unfold P in HP. cbn [fst snd] in HP.
      destruct HP as (Hlen & Hcum & Hprev).
      unfold P. cbn [fst snd]. split; [| split].
      + now rewrite vec_set_length.
      + subst cum. unfold u32. rewrite <- Zplus_mod_idemp_r.
        change ((nth c (FMIndex.byte_freq l) 0 mod 2 ^ 32)%Z)
          with (u32 (nth c (FMIndex.byte_freq l) 0%Z)).
        rewrite (Hf c) by lia.
        replace (Z.of_nat (Datatypes.S c)) with (Z.of_nat c + 1)%Z by lia.
        rewrite less_of_succ.
        pose proof (less_of_le l (Z.of_nat c + 1)) as Hle. rewrite less_of_succ in Hle.
        rewrite Z.mod_small by lia. lia.
      + intros c' Hc'. rewrite vec_set_nth.
        destruct (Nat.eqb_spec c' c) as [-> | Hne].
        * replace (c <? length C) with true by (symmetry; apply Nat.ltb_lt; lia).
          cbn [andb]. exact Hcum.
        * cbn [andb]. apply Hprev. lia. }
  destruct (for_loop 0 256 _ _) as [C cum].
  unfold P in HP. cbn [fst snd] in HP. destruct HP as (Hlen & Hcum & Hprev).
  split; [now rewrite vec_set_length |].
  intros c Hc. rewrite vec_set_nth.
  destruct (Nat.eqb_spec c 256) as [-> | Hne].
  - replace (256 <? length C) with true by (symmetry; apply Nat.ltb_lt; lia).
    cbn [andb]. exact Hcum.
  - cbn [andb]. apply Hprev. lia.
Qed.

Lemma byte_eqb_eq a b : Byte.eqb a b = true <-> a = b.
Proof. split; [apply Byte.byte_dec_bl | apply Byte.byte_dec_lb]. Qed.

Lemma forallb_ext {A} (f g : A -> bool) l :
  (forall x, f x = g x) -> forallb f l = forallb g l.
Proof.
  intros H. induction l as [|x l IH]; [reflexivity |].
  cbn [forallb]. now rewrite H, IH.
Qed.

Lemma skipn_cons_nth {A} (l : list A) d q :
  q < length l -> skipn q l = nth q l d :: skipn (Datatypes.S q) l.
Proof.
  revert q. induction l as [|a l IH]; intros q Hq; cbn [length] in Hq; [lia |].
  destruct q as [|q]; [reflexivity |].
  cbn [skipn nth]. apply IH. lia.
Qed.

(** The index [build_from_text] returns for the stride [d]. *)
Definition built_index (T : list byte) (d : nat) : FMIndex.t :=
  let sa := build_sa_naive T in
  let bwt := build_bwt_from_sa T sa in
  FMIndex.mk (length T) T bwt sa (FMIndex.build_C bwt)
    (WaveletTree.build (map byte_val bwt)) (FMIndex.build_ssa sa d).

Lemma build_from_text_some T p idx :
  FMIndex.build_from_text T p = Some idx ->
  0 < FMIndex.ssa_stride p /\ idx = built_index T (FMIndex.ssa_stride p).
Proof.
  unfold FMIndex.build_from_text.
  destruct (Nat.eqb_spec (FMIndex.ssa_stride p) 0) as [H0 | H0]; [discriminate |].
  intros H. injection H as <-. split; [lia | reflexivity].
Qed.

Section FMTheory.

Variable T : list byte.

Let n : nat := length T.

Hypothesis Hn32 : (Z.of_nat (length T) < 2 ^ 32)%Z.
Hypothesis Hpos : 0 < length T.
Hypothesis Hlast : forall q, q < length T - 1 -> nth q T x00 <> nth (length T - 1) T x00.

Let sa : list nat := build_sa_naive T.
Let bwt : list byte := build_bwt_from_sa T sa.

(** Row [i] of the suffix array, the text byte at [q], the suffix at [q]. *)
Let SA (i : nat) : nat := nth i sa 0.
Let Tat (q : nat) : byte := nth q T x00.
Let suf (q : nat) : list byte := substr T q.
Let L (i : nat) : Z := byte_val (nth i bwt x00).

Lemma suf_lt_total a b :
  a <= n -> b <= n -> a <> b ->
  string_lt (suf a) (suf b) = true \/ string_lt (suf b) (suf a) = true.
Proof.
  intros Ha Hb Hne. apply string_lt_total. intros Heq.
  apply (f_equal (@length byte)) in Heq. unfold suf, substr in Heq.
  rewrite !length_skipn in Heq. fold n in Heq. lia.
Qed.

Lemma sa_perm : Permutation sa (seq 0 n).
Proof.
  unfold sa, build_sa_naive. rewrite size32_small by exact Hn32.
  apply std_sort_perm.
Qed.

Lemma sa_length : length sa = n.
Proof. rewrite (Permutation_length sa_perm). apply length_seq. Qed.

Lemma sa_nodup : NoDup sa.
Proof.
  apply (Permutation_NoDup (Permutation_sym sa_perm)). apply seq_NoDup.
Qed.

Lemma SA_lt i : i < n -> SA i < n.
Proof.
  intros Hi. assert (Hin : In (SA i) sa) by (apply nth_In; rewrite sa_length; exact Hi).
  apply (Permutation_in _ sa_perm) in Hin. apply in_seq in Hin. lia.
Qed.

Lemma SA_inj i j : i < n -> j < n -> SA i = SA j -> i = j.
Proof.
  intros Hi Hj He.
  apply (proj1 (NoDup_nth sa 0) sa_nodup); rewrite ?sa_length; assumption.
Qed.

Lemma SA_surj q : q < n -> exists i, i < n /\ SA i = q.
Proof.
  intros Hq. assert (Hin : In q sa).
  { apply (Permutation_in _ (Permutation_sym sa_perm)). apply in_seq. lia. }
  destruct (In_nth sa q 0 Hin) as (i & Hi & He).
  exists i. rewrite sa_length in Hi. split; assumption.
Qed.

Lemma SA_sorted i j :
  i < j -> j < n -> string_lt (suf (SA i)) (suf (SA j)) = true.
Proof.
  intros Hij Hj.
  assert (Hs : StronglySorted
                 (fun a b => string_lt (substr T a) (substr T b) = true) sa).
  { unfold sa, build_sa_naive. rewrite size32_small by exact Hn32.
    apply (std_sort_sorted nat _ (fun a => a <= n)).
    - intros x y z. apply string_lt_trans.
    - intros x y Hx Hy Hne. now apply suf_lt_total.
    - apply Forall_forall. intros x Hx. apply in_seq in Hx. fold n in Hx. lia.
    - apply seq_NoDup. }
  apply (strongly_sorted_nth nat _ sa 0 Hs i j Hij). now rewrite sa_length.
Qed.

Lemma SA_order i j :
  i < n -> j < n -> string_lt (suf (SA i)) (suf (SA j)) = (i <? j).
Proof.
  intros Hi Hj. destruct (Nat.ltb_spec i j) as [Hlt | Hge].
  - now apply SA_sorted.
  - destruct (Nat.eq_dec i j) as [-> | Hne]; [apply string_lt_irrefl |].
    apply string_lt_asym. apply SA_sorted; lia.
Qed.

Lemma suf_cons q : q < n -> suf q = Tat q :: suf (q + 1).
Proof.
  intros Hq. unfold suf, substr, Tat.
  replace (q + 1) with (Datatypes.S q) by lia.
  now apply skipn_cons_nth.
Qed.

(** Rows of the index counted through the text positions they hold. *)
Lemma count_rows (f : nat -> bool) :
  count_in (fun i => f (SA i)) 0 n = count_in f 0 n.
Proof.
  rewrite <- sa_length. apply count_in_perm. rewrite sa_length. exact sa_perm.
Qed.

(** The text position of the BWT byte of row [i]. *)
Let prev (i : nat) : nat := cyc_pred n (SA i).

Lemma prev_lt i : prev i < n.
Proof. unfold prev, cyc_pred. apply Nat.mod_upper_bound. lia. Qed.

Lemma count_prev (f : nat -> bool) :
  count_in (fun i => f (prev i)) 0 n = count_in f 0 n.
Proof.
  unfold prev. rewrite (count_rows (fun q => f (cyc_pred n q))).
  apply count_in_cyc_pred.
Qed.

Lemma prev_succ i : i < n -> (prev i + 1) mod n = SA i.
Proof.
  intros Hi. pose proof (SA_lt i Hi) as Hs. unfold prev, cyc_pred.
  destruct (Nat.eq_dec (SA i) 0) as [H0 | H0].
  - rewrite H0. replace (0 + n - 1) with (n - 1) by lia.
    rewrite (Nat.mod_small (n - 1)) by lia.
    replace (n - 1 + 1) with n by lia. apply Nat.Div0.mod_same.
  - replace (SA i + n - 1) with (SA i - 1 + 1 * n) by lia.
    rewrite Nat.Div0.mod_add, (Nat.mod_small (SA i - 1)) by lia.
    replace (SA i - 1 + 1) with (SA i) by lia. apply Nat.mod_small. lia.
Qed.

Lemma prev_inj i j : i < n -> j < n -> prev i = prev j -> i = j.
Proof.
  intros Hi Hj He. apply SA_inj; try assumption.
  rewrite <- (prev_succ i Hi), <- (prev_succ j Hj). now rewrite He.
Qed.

Lemma bwt_length : length bwt = n.
Proof.
  unfold bwt, build_bwt_from_sa. rewrite length_map, length_seq.
  apply size32_small. exact Hn32.
Qed.

Lemma bwt_nth i : i < n -> nth i bwt x00 = Tat (prev i).
Proof.
  intros Hi. unfold bwt, build_bwt_from_sa.
  rewrite size32_small by exact Hn32. fold n.
  rewrite nth_map_seq by exact Hi. fold (SA i).
  pose proof (SA_lt i Hi) as Hs. unfold prev, cyc_pred, Tat.
  destruct (Nat.eqb_spec (SA i) 0) as [H0 | H0].
  - rewrite H0. f_equal. replace (0 + n - 1) with (n - 1) by lia.
    symmetry. apply Nat.mod_small. lia.
  - f_equal. replace (SA i + n - 1) with (SA i - 1 + 1 * n) by lia.
    rewrite Nat.Div0.mod_add. symmetry. apply Nat.mod_small. lia.
Qed.

(** ** Cyclic occurrences *)

(** [Q] is read in the text from [q] on, cyclically. *)
Definition cmatch (Q : list byte) (q : nat) : bool :=
  forallb (fun k => Byte.eqb (nth k Q x00) (nth ((q + k) mod length T) T x00))
    (seq 0 (length Q)).

Lemma forallb_seq_shift (f : nat -> bool) a m :
  forallb f (seq (Datatypes.S a) m) = forallb (fun k => f (Datatypes.S k)) (seq a m).
Proof.
  revert a. induction m as [|m IH]; intros a; [reflexivity |].
  cbn [seq forallb]. now rewrite IH.
Qed.

Lemma cmatch_cons ch Q q :
  q < n ->
  cmatch (ch :: Q) q = Byte.eqb ch (Tat q) && cmatch Q ((q + 1) mod n).
Proof.
  intros Hq. unfold cmatch. cbn [length seq forallb nth].
  rewrite Nat.add_0_r, (Nat.mod_small q) by exact Hq. f_equal.
  rewrite forallb_seq_shift. apply forallb_ext. intros k.
  cbn [nth]. f_equal. f_equal. fold n.
  rewrite Nat.Div0.add_mod_idemp_l. f_equal. lia.
Qed.

Lemma cmatch_app A B q :
  cmatch (A ++ B) q = cmatch A q && cmatch B ((q + length A) mod n).
Proof.
  revert q. induction A as [|a A IH]; intros q.
  - cbn [app length]. unfold cmatch at 2. cbn [length seq forallb].
    unfold cmatch. apply forallb_ext. intros k. fold n.
    rewrite Nat.add_0_r, Nat.Div0.add_mod_idemp_l. reflexivity.
  - unfold cmatch. cbn [app length seq forallb nth].
    rewrite <- andb_assoc. f_equal.
    rewrite !forallb_seq_shift.
    specialize (IH (q + 1)). unfold cmatch in IH.
    rewrite (forallb_ext _ (fun k => Byte.eqb (nth k (A ++ B) x00)
                                       (nth ((q + 1 + k) mod length T) T x00))).
    2:{ intros k. cbn [nth]. do 3 f_equal. lia. }
    rewrite IH. f_equal.
    + apply forallb_ext. intros k. cbn [nth]. do 3 f_equal. lia.
    + replace (q + 1 + length A) with (q + Datatypes.S (length A)) by lia.
      reflexivity.
Qed.

(** A pattern that holds the last byte of the text at most as its own last
    byte cannot wrap around the end of the text. *)
Lemma cmatch_occurs P q :
  P <> [] ->
  (forall k, k + 1 < length P -> nth k P x00 <> nth (length T - 1) T x00) ->
  q < n -> cmatch P q = occurs_at T P q.
Proof.
  intros HP Hinner Hq. unfold occurs_at. fold n.
  destruct (Nat.leb_spec (q + length P) n) as [Hfit | Hwrap].
  - cbn [andb]. unfold cmatch.
    assert (H : forall l, (forall k, In k l -> k < length P) ->
                forallb (fun k => Byte.eqb (nth k P x00) (nth ((q + k) mod length T) T x00)) l
                = forallb (fun k => Byte.eqb (nth k P x00) (nth (q + k) T x00)) l).
    { induction l as [|k l IH]; intros Hl; [reflexivity |].
      cbn [forallb]. rewrite IH by (intros k' Hk'; apply Hl; now right).
      specialize (Hl k (or_introl eq_refl)). fold n.
      rewrite Nat.mod_small by lia. reflexivity. }
    apply H. intros k Hk. apply in_seq in Hk. lia.
  - cbn [andb].
    destruct (cmatch P q) eqn:Hm; [| reflexivity]. exfalso.
    unfold cmatch in Hm. rewrite forallb_forall in Hm.
    specialize (Hm (n - 1 - q)). rewrite in_seq in Hm. specialize (Hm ltac:(lia)).
    apply byte_eqb_eq in Hm.
    replace (q + (n - 1 - q)) with (n - 1) in Hm by lia.
    fold n in Hm. rewrite Nat.mod_small in Hm by lia.
    apply (Hinner (n - 1 - q)); [lia | exact Hm].
Qed.

(** ** The index and its tables *)

Variable d : nat.
Hypothesis Hd : 0 < d.

Let idx : FMIndex.t := built_index T d.

Lemma idx_built p :
  FMIndex.ssa_stride p = d -> FMIndex.build_from_text T p = Some idx.
Proof.
  intros Hp. unfold FMIndex.build_from_text. rewrite Hp.
  destruct (Nat.eqb_spec d 0); [lia | reflexivity].
Qed.

Lemma idx_meta_n : FMIndex.meta_n idx = n.
Proof. reflexivity. Qed.

Lemma idx_bwt : FMIndex.bwt_ idx = bwt.
Proof. reflexivity. Qed.

Lemma idx_C : FMIndex.C_ idx = FMIndex.build_C bwt.
Proof. reflexivity. Qed.

Lemma idx_wavelet : FMIndex.wavelet_ idx = WaveletTree.build (map byte_val bwt).
Proof. reflexivity. Qed.

Lemma idx_stride : FMIndex.stride (FMIndex.ssa_ idx) = d.
Proof. reflexivity. Qed.

Lemma idx_samples :
  FMIndex.samples (FMIndex.ssa_ idx)
  = for_loop 0 (length sa)
      (fun i samples =>
         if i mod d =? 0 then vec_set (i / d) (nth i sa 0) samples else samples)
      (repeat 0 ((length sa + d - 1) / d)).
Proof. reflexivity. Qed.

Lemma L_spec i : i < n -> L i = byte_val (Tat (prev i)).
Proof. intros Hi. unfold L. now rewrite bwt_nth. Qed.

Lemma L_range i : (0 <= L i < 256)%Z.
Proof. apply byte_val_range. Qed.

Lemma list_count_rows (f : byte -> bool) :
  length (filter f bwt) = count_in (fun k => f (nth k bwt x00)) 0 n.
Proof.
  rewrite <- (firstn_all bwt) at 1. rewrite bwt_length.
  apply filter_firstn_count. rewrite bwt_length. lia.
Qed.

Lemma C_at_spec c :
  (0 <= c <= 256)%Z ->
  FMIndex.C_at idx c = count_in (fun k => (L k <? c)%Z) 0 n.
Proof.
  intros Hc. unfold FMIndex.C_at. rewrite idx_C.
  destruct (build_C_spec bwt) as [_ HC]; [rewrite bwt_length; exact Hn32 |].
  rewrite HC by lia. rewrite Nat2Z.id, Z2Nat.id by lia.
  unfold less_of. apply list_count_rows.
Qed.

Lemma occ_spec c i :
  (0 <= c < 256)%Z -> i <= n ->
  FMIndex.occ idx c i = count_in (fun k => (L k =? c)%Z) 0 i.
Proof.
  intros Hc Hi. unfold FMIndex.occ. rewrite idx_wavelet.
  rewrite wavelet_rank_spec.
  - unfold naive_occ. rewrite (filter_firstn_count _ _ 0%Z) by (rewrite length_map, bwt_length; lia).
    apply count_in_ext. intros k Hk. unfold L.
    change 0%Z with (byte_val x00) at 1. rewrite map_nth. apply Z.eqb_sym.
  - rewrite length_map, bwt_length. exact Hn32.
  - lia.
  - apply Forall_forall. intros x Hx. apply in_map_iff in Hx.
    destruct Hx as (b & <- & _). apply byte_val_range.
  - rewrite length_map, bwt_length. exact Hi.
Qed.

Lemma occ_mono c i j :
  (0 <= c < 256)%Z -> i <= j -> j <= n -> FMIndex.occ idx c i <= FMIndex.occ idx c j.
Proof.
  intros Hc Hij Hj. rewrite !occ_spec by lia.
  rewrite (count_in_split _ 0 i j) by lia. lia.
Qed.

Lemma occ_step c i :
  (0 <= c < 256)%Z -> i < n ->
  FMIndex.occ idx c (i + 1) = FMIndex.occ idx c i + (if (L i =? c)%Z then 1 else 0).
Proof.
  intros Hc Hi. rewrite !occ_spec by lia.
  replace (i + 1) with (Datatypes.S i) by lia. apply count_in_step. lia.
Qed.

Lemma C_plus_occ_le c :
  (0 <= c < 256)%Z -> FMIndex.C_at idx c + FMIndex.occ idx c n <= n.
Proof.
  intros Hc. rewrite C_at_spec, occ_spec by lia.
  rewrite <- (count_in_or (fun k => (L k <? c)%Z) (fun k => (L k =? c)%Z)).
  - etransitivity; [apply count_in_le | lia].
  - intros k _. destruct (Z.ltb_spec (L k) c); destruct (Z.eqb_spec (L k) c); try lia; reflexivity.
Qed.

(** ** The LF mapping *)

(** Rows with the same BWT byte keep their order under [LF]. *)
Lemma same_byte_order k i :
  k < n -> i < n -> L k = L i ->
  string_lt (suf (prev k + 1)) (suf (prev i + 1)) = (k <? i).
Proof.
  intros Hk Hi HL.
  pose proof (prev_lt k) as Hpk. pose proof (prev_lt i) as Hpi.
  pose proof (prev_succ k Hk) as Hsk. pose proof (prev_succ i Hi) as Hsi.
  rewrite !L_spec in HL by assumption. apply byte_val_inj in HL.
  destruct (Nat.eq_dec (prev k) (n - 1)) as [Hek | Hnk].
  - assert (prev i = n - 1).
    { destruct (Nat.eq_dec (prev i) (n - 1)) as [H | H]; [exact H |].
      exfalso. apply (Hlast (prev i)); [fold n; lia |].
      unfold Tat in HL. rewrite <- HL, Hek. reflexivity. }
    assert (k = i) by (apply prev_inj; try assumption; lia). subst i.
    rewrite string_lt_irrefl. symmetry. apply Nat.ltb_irrefl.
  - destruct (Nat.eq_dec (prev i) (n - 1)) as [Hei | Hni].
    + exfalso. apply (Hlast (prev k)); [fold n; lia |].
      unfold Tat in HL. rewrite HL, Hei. reflexivity.
    + rewrite Nat.mod_small in Hsk, Hsi by lia.
      rewrite Hsk, Hsi. now apply SA_order.
Qed.

Lemma LF_spec i :
  i < n -> FMIndex.LF idx i < n /\ SA (FMIndex.LF idx i) = prev i.
Proof.
  intros Hi.
  destruct (SA_surj (prev i) (prev_lt i)) as (j & Hj & HSj).
  assert (HLF : FMIndex.LF idx i = j).
  { unfold FMIndex.LF. rewrite idx_bwt, bwt_length.
    replace (n <=? i) with false by (symmetry; apply Nat.leb_gt; exact Hi).
    fold idx. fold (L i). pose proof (L_range i) as Hc.
    rewrite C_at_spec, occ_spec by lia.
    transitivity (count_in (fun k => k <? j) 0 n); [| apply count_in_below; lia].
    symmetry.
    rewrite (count_in_ext (fun k => k <? j)
               (fun k => (fun q => string_lt (suf q) (suf (prev i))) (SA k)) 0 n).
    2:{ intros k Hk. rewrite <- HSj. symmetry. apply SA_order; lia. }
    rewrite (count_rows (fun q => string_lt (suf q) (suf (prev i)))).
    rewrite (count_in_ext _
               (fun q => (byte_val (Tat q) <? L i)%Z
                         || ((byte_val (Tat q) =? L i)%Z
                             && string_lt (suf (q + 1)) (suf (prev i + 1)))) 0 n).
    2:{ intros q Hq. rewrite (suf_cons q), (suf_cons (prev i)) by (try apply prev_lt; lia).
        rewrite string_lt_cons, L_spec by exact Hi. reflexivity. }
    rewrite count_in_or.
    2:{ intros q _. destruct (Z.ltb_spec (byte_val (Tat q)) (L i));
          destruct (Z.eqb_spec (byte_val (Tat q)) (L i)); try lia; reflexivity. }
    f_equal.
    - rewrite <- (count_prev (fun q => (byte_val (Tat q) <? L i)%Z)).
      apply count_in_ext. intros k Hk. rewrite (L_spec k) by lia. reflexivity.
    - rewrite <- (count_prev (fun q => (byte_val (Tat q) =? L i)%Z
                                       && string_lt (suf (q + 1)) (suf (prev i + 1)))).
      rewrite (count_in_ext _ (fun k => (L k =? L i)%Z && (0 <=? k) && (k <? i)) 0 n).
      + rewrite (count_in_window (fun k => (L k =? L i)%Z) 0 n 0 i).
        f_equal; lia.
      + intros k Hk. rewrite <- (L_spec k) by lia.
        destruct (Z.eqb_spec (L k) (L i)) as [He | Hne]; [| reflexivity].
        cbn [andb]. rewrite same_byte_order by (try assumption; lia).
        reflexivity. }
  rewrite HLF. split; assumption.
Qed.

(** ** Backward search *)

(** The rows [[sp, ep)] are those whose suffix starts, cyclically, with [Q]. *)
Definition rows_of (sp ep : nat) (Q : list byte) : Prop :=
  sp <= ep /\ ep <= n /\
  forall i, i < n -> (sp <=? i) && (i <? ep) = cmatch Q (SA i).

Lemma LF_unfold i :
  i < n -> FMIndex.LF idx i = FMIndex.C_at idx (L i) + FMIndex.occ idx (L i) i.
Proof.
  intros Hi. unfold FMIndex.LF. rewrite idx_bwt, bwt_length.
  replace (n <=? i) with false by (symmetry; apply Nat.leb_gt; exact Hi).
  reflexivity.
Qed.

(** The row holding the [r]-th occurrence of [c] in the BWT. *)
Lemma occ_select c a e r :
  (0 <= c < 256)%Z -> a <= e -> e <= n ->
  FMIndex.occ idx c a <= r -> r < FMIndex.occ idx c e ->
  exists i, a <= i /\ i < e /\ L i = c /\ FMIndex.occ idx c i = r.
Proof.
  intros Hc Hae. induction Hae as [|e Hae IH]; intros He Hlo Hhi; [lia |].
  replace (Datatypes.S e) with (e + 1) in Hhi by lia.
  rewrite occ_step in Hhi by lia.
  destruct (Nat.lt_ge_cases r (FMIndex.occ idx c e)) as [Hlt | Hge].
  - destruct (IH ltac:(lia) Hlo Hlt) as (i & H1 & H2 & H3 & H4).
    exists i. repeat split; try assumption; lia.
  - destruct (Z.eqb_spec (L e) c) as [HL | HL]; [| lia].
    exists e. repeat split; try assumption; lia.
Qed.

Lemma cyc_pred_succ q : q < n -> cyc_pred n ((q + 1) mod n) = q.
Proof.
  intros Hq. unfold cyc_pred.
  destruct (Nat.eq_dec (q + 1) n) as [He | Hne].
  - rewrite He, Nat.Div0.mod_same. replace (0 + n - 1) with (n - 1) by lia.
    rewrite Nat.mod_small by lia. lia.
  - rewrite (Nat.mod_small (q + 1)) by lia.
    replace (q + 1 + n - 1) with (q + 1 * n) by lia.
    rewrite Nat.Div0.mod_add. apply Nat.mod_small. exact Hq.
Qed.

Lemma backward_step sp ep Q ch :
  rows_of sp ep Q ->
  let c := byte_val ch in
  rows_of (FMIndex.C_at idx c + FMIndex.occ idx c sp)
          (FMIndex.C_at idx c + FMIndex.occ idx c ep) (ch :: Q).
Proof.
  intros (Hse & He & Hrows) c.
  pose proof (byte_val_range ch) as Hc. fold c in Hc.
  split; [| split].
  - apply Nat.add_le_mono_l. apply occ_mono; assumption.
  - etransitivity; [| apply (C_plus_occ_le c Hc)].
    apply Nat.add_le_mono_l. apply occ_mono; try assumption. lia.
  - intros j Hj. pose proof (SA_lt j Hj) as HSj.
    rewrite cmatch_cons by exact HSj.
    apply eq_true_iff_eq. rewrite !andb_true_iff, Nat.leb_le, Nat.ltb_lt. split.
    + (* a row of the new range *)
      intros [Hlo Hhi].
      destruct (occ_select c sp ep (j - FMIndex.C_at idx c) Hc Hse He) as (i & Hi1 & Hi2 & HLi & Hocc);
        [lia | lia |].
      assert (Hi : i < n) by lia.
      assert (HLF : FMIndex.LF idx i = j) by (rewrite LF_unfold, HLi, Hocc by exact Hi; lia).
      destruct (LF_spec i Hi) as [_ HSLF]. rewrite HLF in HSLF.
      rewrite HSLF, prev_succ by exact Hi. split.
      * apply byte_eqb_eq. apply byte_val_inj. fold c. rewrite <- HLi. now apply L_spec.
      * rewrite <- Hrows by exact Hi. apply andb_true_iff. rewrite Nat.leb_le, Nat.ltb_lt. lia.
    + (* a row that matches *)
      intros [Hch Hm]. apply byte_eqb_eq in Hch.
      destruct (SA_surj ((SA j + 1) mod n)) as (i & Hi & HSi); [apply Nat.mod_upper_bound; lia |].
      assert (Hprev : prev i = SA j) by (unfold prev; rewrite HSi; now apply cyc_pred_succ).
      destruct (LF_spec i Hi) as [HLFn HSLF].
      assert (HLF : FMIndex.LF idx i = j) by (apply SA_inj; try assumption; congruence).
      assert (HLi : L i = c) by (rewrite L_spec, Hprev by exact Hi; unfold c; now rewrite Hch).
      rewrite <- HSi, <- Hrows in Hm by exact Hi.
      apply andb_true_iff in Hm. rewrite Nat.leb_le, Nat.ltb_lt in Hm.
      rewrite LF_unfold, HLi in HLF by exact Hi.
      pose proof (occ_mono c sp i Hc ltac:(lia) ltac:(lia)).
      pose proof (occ_mono c (i + 1) ep Hc ltac:(lia) He).
      pose proof (occ_step c i Hc Hi) as Hstep.
      rewrite HLi, Z.eqb_refl in Hstep. lia.
Qed.

Lemma backward_search_spec rp :
  forall Q sp ep,
    rows_of sp ep Q ->
    match FMIndex.backward_search idx rp sp ep with
    | Some (sp', ep') => rows_of sp' ep' (rev rp ++ Q)
    | None => forall q, q < n -> cmatch (rev rp ++ Q) q = false
    end.
Proof.
  induction rp as [|ch rest IH]; intros Q sp ep Hrows; cbn [FMIndex.backward_search rev].
  - exact Hrows.
  - pose proof (backward_step sp ep Q ch Hrows) as Hstep. cbv zeta in Hstep.
    rewrite <- app_assoc. cbn [app].
    destruct (Nat.leb_spec (FMIndex.C_at idx (byte_val ch) + FMIndex.occ idx (byte_val ch) ep)
                (FMIndex.C_at idx (byte_val ch) + FMIndex.occ idx (byte_val ch) sp)) as [Hempty | Hne].
    + intros q Hq. rewrite cmatch_app.
      destruct Hstep as (_ & _ & Hall).
      destruct (SA_surj ((q + length (rev rest)) mod n)) as (i & Hi & HSi);
        [apply Nat.mod_upper_bound; lia |].
      rewrite <- HSi, <- Hall by exact Hi.
      replace ((_ <=? i) && (i <? _)) with false; [apply andb_false_r |].
      symmetry. apply andb_false_iff. rewrite Nat.leb_gt, Nat.ltb_ge. lia.
    + apply IH. exact Hstep.
Qed.

Lemma rows_of_all : rows_of 0 n [].
Proof.
  split; [lia | split; [lia |]]. intros i Hi.
  replace (i <? n) with true by (symmetry; apply Nat.ltb_lt; exact Hi). reflexivity.
Qed.

Lemma search_from_all P :
  match FMIndex.backward_search idx (rev P) 0 n with
  | Some (sp, ep) => rows_of sp ep P
  | None => forall q, q < n -> cmatch P q = false
  end.
Proof.
  pose proof (backward_search_spec (rev P) [] 0 n rows_of_all) as H.
  now rewrite rev_involutive, app_nil_r in H.
Qed.

(** [count] is the number of cyclic occurrences. *)
Lemma count_cyclic P :
  P <> [] -> FMIndex.count idx P = count_in (cmatch P) 0 n.
Proof.
  intros HP. unfold FMIndex.count. rewrite idx_meta_n.
  destruct (Nat.eqb_spec (length P) 0) as [H0 | _];
    [destruct P; [contradiction | discriminate] |].
  destruct (Nat.eqb_spec n 0) as [H0 | _]; [lia |].
  pose proof (search_from_all P) as Hs.
  destruct (FMIndex.backward_search idx (rev P) 0 n) as [[sp ep] |].
  - destruct Hs as (Hse & He & Hrows).
    rewrite <- (count_rows (cmatch P)).
    rewrite <- (count_in_ext (fun i => true && (sp <=? i) && (i <? ep))).
    2:{ intros i Hi. cbn [andb]. apply Hrows. lia. }
    rewrite (count_in_window (fun _ => true) 0 n sp ep).
    rewrite Nat.max_r, Nat.min_r by lia.
    unfold count_in.
    assert (Hall : forall l : list nat, filter (fun _ => true) l = l)
      by (induction l as [|x l IH]; cbn [filter]; congruence).
    now rewrite Hall, length_seq.
  - symmetry. apply count_in_false. intros q Hq. apply Hs. lia.
Qed.

(** ** Counting plain occurrences *)

Lemma count_naive P :
  P <> [] ->
  (forall k, k + 1 < length P -> nth k P x00 <> nth (length T - 1) T x00) ->
  FMIndex.count idx P = naive_count T P.
Proof.
  intros HP Hinner. rewrite count_cyclic by exact HP.
  unfold naive_count, naive_locate. fold n. rewrite <- count_in_filter.
  apply count_in_ext. intros q Hq. apply cmatch_occurs; try assumption. lia.
Qed.

(** ** The walk to a sampled row *)

(** The number of [LF] steps from row [i] to row 0. *)
Let dist (i : nat) : nat :=
  if SA 0 <=? SA i then SA i - SA 0 else SA i + n - SA 0.

Lemma prev_cases i :
  i < n -> prev i = if SA i =? 0 then n - 1 else SA i - 1.
Proof.
  intros Hi. pose proof (SA_lt i Hi) as Hs. unfold prev, cyc_pred.
  destruct (Nat.eqb_spec (SA i) 0) as [H0 | H0].
  - rewrite H0. replace (0 + n - 1) with (n - 1) by lia. apply Nat.mod_small. lia.
  - replace (SA i + n - 1) with (SA i - 1 + 1 * n) by lia.
    rewrite Nat.Div0.mod_add. apply Nat.mod_small. lia.
Qed.

Lemma dist_lt i : i < n -> dist i < n.
Proof.
  intros Hi. pose proof (SA_lt i Hi). pose proof (SA_lt 0 Hpos).
  unfold dist. destruct (Nat.leb_spec (SA 0) (SA i)); lia.
Qed.

Lemma dist_zero i : i < n -> dist i = 0 -> i = 0.
Proof.
  intros Hi H0. pose proof (SA_lt i Hi). pose proof (SA_lt 0 Hpos).
  apply SA_inj; try assumption.
  unfold dist in H0. destruct (Nat.leb_spec (SA 0) (SA i)); lia.
Qed.

Lemma dist_LF i :
  i < n -> i <> 0 -> dist (FMIndex.LF idx i) + 1 = dist i.
Proof.
  intros Hi Hne. destruct (LF_spec i Hi) as [HLn HS].
  pose proof (SA_lt i Hi). pose proof (SA_lt 0 Hpos).
  assert (SA i <> SA 0) by (intros He; apply Hne; apply SA_inj; assumption).
  rewrite prev_cases in HS by exact Hi.
  unfold dist. rewrite HS.
  destruct (Nat.eqb_spec (SA i) 0);
    destruct (Nat.leb_spec (SA 0) (SA i));
    destruct (Nat.leb_spec (SA 0) (n - 1));
    destruct (Nat.leb_spec (SA 0) (SA i - 1)); lia.
Qed.

Lemma lf_walk_spec fuel :
  forall pos steps,
    pos < n -> dist pos <= fuel -> steps + dist pos < n ->
    exists r k,
      FMIndex.lf_walk idx fuel pos steps = (r, k)
      /\ r < n /\ r mod d = 0 /\ steps <= k /\ k <= steps + dist pos
      /\ (SA r + (k - steps)) mod n = SA pos.
Proof.
  induction fuel as [|fuel IH]; intros pos steps Hpos' Hfuel Hsteps; cbn [FMIndex.lf_walk].
  - assert (pos = 0) by (apply dist_zero; [exact Hpos' | lia]). subst pos.
    exists 0, steps. repeat split; try lia.
    + apply Nat.Div0.mod_0_l.
    + rewrite Nat.sub_diag, Nat.add_0_r. apply Nat.mod_small. now apply SA_lt.
  - rewrite idx_stride, idx_meta_n.
    destruct (Nat.eqb_spec (pos mod d) 0) as [Hs | Hns]; cbn [negb andb].
    + exists pos, steps. repeat split; try lia.
      rewrite Nat.sub_diag, Nat.add_0_r. apply Nat.mod_small. now apply SA_lt.
    + replace (steps <? n) with true by (symmetry; apply Nat.ltb_lt; lia).
      assert (Hne : pos <> 0) by (intros ->; apply Hns; apply Nat.Div0.mod_0_l).
      pose proof (dist_LF pos Hpos' Hne) as Hd1.
      destruct (LF_spec pos Hpos') as [HLn HS].
      destruct (IH (FMIndex.LF idx pos) (steps + 1) HLn ltac:(lia) ltac:(lia))
        as (r & k & Hw & Hr & Hrm & Hk1 & Hk2 & Hsa).
      exists r, k. repeat split; try assumption; try lia.
      rewrite <- (prev_succ pos Hpos'), <- HS, <- Hsa.
      rewrite Nat.Div0.add_mod_idemp_l. f_equal. lia.
Qed.

(** From every row the walk of [locate] stops at a sampled row after fewer
    than [n] steps, and the steps lead back to the row's text position. *)
Lemma lf_walk_from_row i :
  i < n ->
  exists r k,
    FMIndex.lf_walk idx n i 0 = (r, k)
    /\ r < n /\ r mod d = 0 /\ k < n /\ (SA r + k) mod n = SA i.
Proof.
  intros Hi. pose proof (dist_lt i Hi) as Hdl.
  destruct (lf_walk_spec n i 0 Hi ltac:(lia) ltac:(lia))
    as (r & k & Hw & Hr & Hrm & Hk1 & Hk2 & Hsa).
  exists r, k. rewrite Nat.sub_0_r in Hsa. repeat split; try assumption. lia.
Qed.

(** ** The samples *)

Lemma ssa_samples_spec :
  length (FMIndex.samples (FMIndex.ssa_ idx)) = (n + d - 1) / d
  /\ forall r, r < n -> r mod d = 0 ->
       nth (r / d) (FMIndex.samples (FMIndex.ssa_ idx)) 0 = SA r.
Proof.
  rewrite idx_samples, sa_length.
  pose (P := fun i (smp : list nat) =>
               length smp = (n + d - 1) / d
               /\ forall r, r < i -> r mod d = 0 -> nth (r / d) smp 0 = SA r).
  match goal with |- length ?lhs = _ /\ _ => assert (HP : P n lhs) end.
  { apply for_loop_inv; [lia | |].
    - unfold P. split; [apply repeat_length |]. intros r Hr. lia.
    - intros i smp Hi [Hlen Hprev]. unfold P.
      destruct (Nat.eqb_spec (i mod d) 0) as [Hs | Hns].
      + split; [now rewrite vec_set_length |].
        intros r Hr Hrm. rewrite vec_set_nth.
        pose proof (coarse_idx_lt d n i Hd ltac:(lia)) as Hid.
        pose proof (Nat.div_mod_eq i d) as Hi1. pose proof (Nat.div_mod_eq r d) as Hr1.
        destruct (Nat.eqb_spec (r / d) (i / d)) as [He | Hne].
        * replace (i / d <? length smp) with true by (symmetry; apply Nat.ltb_lt; lia).
          cbn [andb]. fold (SA i). f_equal. rewrite He in Hr1. lia.
        * cbn [andb]. apply Hprev; [| exact Hrm].
          destruct (Nat.eq_dec r i) as [-> | Hri]; [contradiction | lia].
      + split; [exact Hlen |]. intros r Hr Hrm. apply Hprev; [| exact Hrm].
        destruct (Nat.eq_dec r i) as [-> | Hri]; [contradiction | lia]. }
  exact HP.
Qed.

(** ** Locate *)

Lemma locate_rows_spec cnt :
  forall i limit acc,
    i + cnt <= n ->
    FMIndex.locate_rows idx cnt i limit acc
    = FMIndex.Positions (acc ++ map SA (seq i (Nat.min cnt (limit - length acc)))).
Proof.
  induction cnt as [|cnt IH]; intros i limit acc Hi; cbn [FMIndex.locate_rows].
  - rewrite Nat.min_0_l. cbn [seq map]. now rewrite app_nil_r.
  - destruct (Nat.ltb_spec (length acc) limit) as [Hroom | Hfull].
    + destruct (lf_walk_from_row i ltac:(lia)) as (r & k & Hw & Hr & Hrm & Hk & Hsa).
      rewrite idx_meta_n, Hw.
      replace (n <=? k) with false by (symmetry; apply Nat.leb_gt; exact Hk).
      destruct ssa_samples_spec as [Hlen Hsmp].
      rewrite idx_stride.
      rewrite Hlen.
      pose proof (coarse_idx_lt d n r Hd Hr) as Hrd.
      replace ((n + d - 1) / d <=? r / d) with false by (symmetry; apply Nat.leb_gt; exact Hrd).
      rewrite (Hsmp r Hr Hrm), Hsa.
      rewrite IH by lia.
      rewrite <- app_assoc, length_app. cbn [length app].
      replace (Nat.min (Datatypes.S cnt) (limit - length acc))
        with (Datatypes.S (Nat.min cnt (limit - (length acc + 1)))) by lia.
      cbn [seq map]. replace (i + 1) with (Datatypes.S i) by lia. reflexivity.
    + replace (Nat.min (Datatypes.S cnt) (limit - length acc)) with 0 by lia.
      cbn [seq map]. now rewrite app_nil_r.
Qed.

(** [locate] never throws on this index. *)
Lemma locate_total P limit : exists ps, FMIndex.locate idx P limit = FMIndex.Positions ps.
Proof.
  unfold FMIndex.locate.
  destruct ((length P =? 0) || (FMIndex.meta_n idx =? 0)); [now exists [] |].
  pose proof (search_from_all P) as Hs.
  rewrite idx_meta_n.
  destruct (FMIndex.backward_search idx (rev P) 0 n) as [[sp ep] |]; [| now exists []].
  destruct Hs as (Hse & He & _).
  rewrite locate_rows_spec by lia. eexists. reflexivity.
Qed.

(** [locate] with room for every hit returns the text positions of the
    rows of the final range: the cyclic occurrences. *)
Lemma locate_cyclic P limit :
  P <> [] -> FMIndex.count idx P <= limit ->
  exists ps,
    FMIndex.locate idx P limit = FMIndex.Positions ps
    /\ length ps = FMIndex.count idx P
    /\ forall q, In q ps <-> q < n /\ cmatch P q = true.
Proof.
  intros HP Hlim. unfold FMIndex.locate, FMIndex.count in Hlim |- *.
  rewrite idx_meta_n in Hlim |- *.
  destruct (Nat.eqb_spec (length P) 0) as [H0 | _];
    [destruct P; [contradiction | discriminate] |].
  destruct (Nat.eqb_spec n 0) as [H0 | _]; [lia |]. cbn [orb].
  pose proof (search_from_all P) as Hs.
  destruct (FMIndex.backward_search idx (rev P) 0 n) as [[sp ep] |].
  - destruct Hs as (Hse & He & Hrows).
    exists (map SA (seq sp (ep - sp))). split; [| split].
    + rewrite locate_rows_spec by lia. cbn [length app].
      now rewrite Nat.sub_0_r, Nat.min_l by lia.
    + now rewrite length_map, length_seq.
    + intros q. rewrite in_map_iff. split.
      * intros (i & <- & Hin). apply in_seq in Hin.
        split; [apply SA_lt; lia |].
        rewrite <- Hrows by lia. apply andb_true_iff.
        rewrite Nat.leb_le, Nat.ltb_lt. lia.
      * intros [Hq Hm]. destruct (SA_surj q Hq) as (i & Hi & <-).
        exists i. split; [reflexivity |]. apply in_seq.
        rewrite <- Hrows in Hm by exact Hi. apply andb_true_iff in Hm.
        rewrite Nat.leb_le, Nat.ltb_lt in Hm. lia.
  - exists []. split; [reflexivity | split; [reflexivity |]].
    intros q. split; [contradiction |]. intros [Hq Hm]. rewrite Hs in Hm by exact Hq.
    discriminate.
Qed.

End FMTheory.

(* ------------------------------------------------------------------ *)
(** * Properties of the built index *)

(** The text is not empty and its last byte, the sentinel, is strictly
    below every other byte of the text. *)
Definition ends_with_sentinel (T : list byte) : Prop :=
  T <> [] /\
  forall q, q < length T - 1 ->
    (byte_val (nth (length T - 1) T x00) < byte_val (nth q T x00))%Z.

(** The sentinel of [T] occurs in [P] at most as the last byte of [P]. *)
Definition sentinel_only_last (T P : list byte) : Prop :=
  forall k, k + 1 < length P -> nth k P x00 <> nth (length T - 1) T x00.

Lemma sentinel_pos T : ends_with_sentinel T -> 0 < length T.
Proof. intros [Hne _]. destruct T; [contradiction | cbn [length]; lia]. Qed.

Lemma sentinel_unique T :
  ends_with_sentinel T ->
  forall q, q < length T - 1 -> nth q T x00 <> nth (length T - 1) T x00.
Proof.
  intros [_ Hmin] q Hq He. specialize (Hmin q Hq). rewrite He in Hmin. lia.
Qed.

Definition banana_text : list byte := ["b"; "a"; "n"; "a"; "n"; "a"; "$"]%byte.
Definition short_text : list byte := ["a"; "$"]%byte.
Definition pattern_ana : list byte := ["a"; "n"; "a"]%byte.
Definition pattern_wrapping : list byte := ["$"; "a"]%byte.

Lemma banana_sentinel : ends_with_sentinel banana_text.
Proof.
  split; [discriminate |]. intros q Hq. cbn in Hq.
  do 6 (destruct q as [|q]; [vm_compute; reflexivity |]). lia.
Qed.

Lemma short_sentinel : ends_with_sentinel short_text.
Proof.
  split; [discriminate |]. intros q Hq. cbn in Hq.
  destruct q as [|q]; [vm_compute; reflexivity | lia].
Qed.

(** C1, as amended: on a text that ends with a unique minimal sentinel (and
    whose length fits the [uint32_t] suffix array), for a non-empty pattern
    that holds the sentinel at most as its last byte, [count] is the number
    of occurrences of the pattern in the text, and [locate] with a limit of
    at least that count returns exactly the starting positions of the
    occurrences, each once. *)
Theorem fm_count_locate_correct
    (T P : list byte) (params : FMIndex.BuildParams) (idx : FMIndex.t) (limit : nat) :
  ends_with_sentinel T ->
  (Z.of_nat (length T) < 2 ^ 32)%Z ->
  FMIndex.build_from_text T params = Some idx ->
  P <> [] ->
  sentinel_only_last T P ->
  FMIndex.count idx P = naive_count T P
  /\ (naive_count T P <= limit ->
      exists ps,
        FMIndex.locate idx P limit = FMIndex.Positions ps
        /\ length ps = naive_count T P
        /\ forall q, In q ps <-> In q (naive_locate T P)).
Proof.
  intros Hsent Hn32 Hbuild HP Hinner.
  destruct (build_from_text_some T params idx Hbuild) as [Hd ->].
  pose proof (sentinel_pos T Hsent) as Hpos.
  pose proof (sentinel_unique T Hsent) as Hlast.
  pose proof (count_naive T Hn32 Hpos Hlast _ Hd P HP Hinner) as Hcount.
  split; [exact Hcount |]. intros Hlim.
  destruct (locate_cyclic T Hn32 Hpos Hlast _ Hd P limit HP) as (ps & Hloc & Hlen & Hin).
  { rewrite Hcount. exact Hlim. }
  exists ps. split; [exact Hloc | split; [now rewrite Hlen |]].
  intros q. rewrite Hin. unfold naive_locate. rewrite filter_In, in_seq.
  split.
  - intros [Hq Hm]. split; [lia |].
    rewrite <- (cmatch_occurs T Hpos P q HP Hinner Hq). exact Hm.
  - intros [Hq Ho]. split; [lia |].
    rewrite (cmatch_occurs T Hpos P q HP Hinner); [exact Ho | lia].
Qed.

Lemma fm_count_locate_correct_witness :
  exists idx,
    FMIndex.build_from_text banana_text FMIndex.default_params = Some idx
    /\ FMIndex.count idx pattern_ana = naive_count banana_text pattern_ana
    /\ (naive_count banana_text pattern_ana <= 10 ->
        exists ps,
          FMIndex.locate idx pattern_ana 10 = FMIndex.Positions ps
          /\ length ps = naive_count banana_text pattern_ana
          /\ forall q, In q ps <-> In q (naive_locate banana_text pattern_ana)).
Proof.
  exists (built_index banana_text 32). split; [reflexivity |].
  apply (fm_count_locate_correct banana_text pattern_ana FMIndex.default_params
           (built_index banana_text 32) 10).
  - exact banana_sentinel.
  - vm_compute. reflexivity.
  - reflexivity.
  - discriminate.
  - intros k Hk. cbn in Hk.
    do 2 (destruct k as [|k]; [vm_compute; discriminate |]). lia.
Defined.

(** C1 as stated fails for a pattern that holds the sentinel before its
    end: in ["a$"] the pattern ["$a"] does not occur, yet the backward
    search wraps around the end of the text and counts one occurrence. *)
Lemma fm_count_wraps_around_sentinel :
  ~ (forall (T P : list byte) (params : FMIndex.BuildParams) (idx : FMIndex.t),
       ends_with_sentinel T ->
       (Z.of_nat (length T) < 2 ^ 32)%Z ->
       FMIndex.build_from_text T params = Some idx ->
       P <> [] ->
       FMIndex.count idx P = naive_count T P).
Proof.
  intros H.
  specialize (H short_text pattern_wrapping FMIndex.default_params (built_index short_text 32)
                short_sentinel).
  assert (Hc : FMIndex.count (built_index short_text 32) pattern_wrapping = 1)
    by (vm_compute; reflexivity).
  assert (Hn : naive_count short_text pattern_wrapping = 0) by (vm_compute; reflexivity).
  rewrite Hc, Hn in H.
  assert (1 = 0); [| discriminate].
  apply H; [vm_compute; reflexivity | reflexivity | discriminate].
Qed.

(** C4, as amended: on a correctly built index the walk of [locate] from
    any row stops at a sampled row (a multiple of the stride) after fewer
    than [n] steps, so that [locate] never takes its error branches. *)
Theorem lf_walk_reaches_sample
    (T : list byte) (params : FMIndex.BuildParams) (idx : FMIndex.t) (i : nat) :
  ends_with_sentinel T ->
  (Z.of_nat (length T) < 2 ^ 32)%Z ->
  FMIndex.build_from_text T params = Some idx ->
  i < length T ->
  (exists r steps,
     FMIndex.lf_walk idx (FMIndex.meta_n idx) i 0 = (r, steps)
     /\ r < length T
     /\ r mod FMIndex.ssa_stride params = 0
     /\ steps < length T)
  /\ forall P limit, exists ps, FMIndex.locate idx P limit = FMIndex.Positions ps.
Proof.
  intros Hsent Hn32 Hbuild Hi.
  destruct (build_from_text_some T params idx Hbuild) as [Hd ->].
  pose proof (sentinel_pos T Hsent) as Hpos.
  pose proof (sentinel_unique T Hsent) as Hlast.
  split.
  - destruct (lf_walk_from_row T Hn32 Hpos Hlast _ Hd i Hi) as (r & k & Hw & Hr & Hrm & Hk & _).
    exists r, k. repeat split; assumption.
  - intros P limit. apply (locate_total T Hn32 Hpos Hlast _ Hd).
Qed.

Lemma lf_walk_reaches_sample_witness :
  (exists r steps,
     FMIndex.lf_walk (built_index banana_text 4)
       (FMIndex.meta_n (built_index banana_text 4)) 1 0 = (r, steps)
     /\ r < length banana_text
     /\ r mod FMIndex.ssa_stride (FMIndex.mkParams 512 64 4) = 0
     /\ steps < length banana_text)
  /\ forall P limit,
       exists ps, FMIndex.locate (built_index banana_text 4) P limit = FMIndex.Positions ps.
Proof.
  apply (lf_walk_reaches_sample banana_text (FMIndex.mkParams 512 64 4)
           (built_index banana_text 4) 1).
  - exact banana_sentinel.
  - vm_compute. reflexivity.
  - reflexivity.
  - vm_compute. lia.
Defined.

(** C4 as stated fails: with stride 4 on ["banana$"], the walk from row 1
    visits rows 5, 2, 6, 3 and reaches the sampled row 4 only after 5 steps. *)
Lemma lf_walk_exceeds_stride :
  ~ (forall (T : list byte) (params : FMIndex.BuildParams) (idx : FMIndex.t) (i : nat),
       ends_with_sentinel T ->
       (Z.of_nat (length T) < 2 ^ 32)%Z ->
       FMIndex.build_from_text T params = Some idx ->
       i < length T ->
       snd (FMIndex.lf_walk idx (FMIndex.meta_n idx) i 0) <= FMIndex.ssa_stride params).
Proof.
  intros H.
  specialize (H banana_text (FMIndex.mkParams 512 64 4) (built_index banana_text 4) 1
                banana_sentinel).
  assert (Hw : FMIndex.lf_walk (built_index banana_text 4)
                 (FMIndex.meta_n (built_index banana_text 4)) 1 0 = (4, 5))
    by (vm_compute; reflexivity).
  rewrite Hw in H. cbn [snd FMIndex.ssa_stride] in H.
  assert (5 <= 4); [| lia].
  apply H; [vm_compute; reflexivity | reflexivity | vm_compute; lia].
Qed.

(** C6: on a built index [count] of the empty pattern is the length of the
    text, and on the index of the empty text [count] of any pattern is 0. *)
Theorem fm_count_edge_cases
    (T : list byte) (params : FMIndex.BuildParams) (idx : FMIndex.t) :
  FMIndex.build_from_text T params = Some idx ->
  FMIndex.count idx [] = length T
  /\ (T = [] -> forall P, FMIndex.count idx P = 0).
Proof.
  intros Hbuild. destruct (build_from_text_some T params idx Hbuild) as [_ ->].
  split; [reflexivity |].
  intros -> P. unfold FMIndex.count. cbn [built_index FMIndex.meta_n length].
  destruct (length P =? 0); reflexivity.
Qed.

Lemma fm_count_edge_cases_witness :
  FMIndex.count (built_index banana_text 32) [] = length banana_text
  /\ (banana_text = [] -> forall P, FMIndex.count (built_index banana_text 32) P = 0).
Proof.
  apply (fm_count_edge_cases banana_text FMIndex.default_params).
  reflexivity.
Defined.

(** C10: on a built index [locate] of the empty pattern returns no position,
    whatever the limit, while [count] of the empty pattern returns [n]. *)
Theorem fm_locate_empty_pattern
    (T : list byte) (params : FMIndex.BuildParams) (idx : FMIndex.t) (limit : nat) :
  FMIndex.build_from_text T params = Some idx ->
  FMIndex.locate idx [] limit = FMIndex.Positions []
  /\ FMIndex.count idx [] = length T.
Proof.
  intros Hbuild. destruct (build_from_text_some T params idx Hbuild) as [_ ->].
  split; reflexivity.
Qed.

Lemma fm_locate_empty_pattern_witness :
  FMIndex.locate (built_index banana_text 32) [] 5 = FMIndex.Positions []
  /\ FMIndex.count (built_index banana_text 32) [] = length banana_text.
Proof.
  apply (fm_locate_empty_pattern banana_text FMIndex.default_params).
  reflexivity.
Defined.

Lemma size32_bound {A} (v : list A) : (Z.of_nat (size32 v) < 2 ^ 32)%Z.
Proof.
  unfold size32, u32.
  pose proof (Z.mod_pos_bound (Z.of_nat (length v)) (2 ^ 32) ltac:(lia)). lia.
Qed.

Lemma built_bwt_length T d : length (FMIndex.bwt_ (built_index T d)) = size32 T.
Proof.
  cbn [built_index FMIndex.bwt_]. unfold build_bwt_from_sa.
  now rewrite length_map, length_seq.
Qed.

(** C7: the C-table of a built index has 257 entries, starts at 0, grows
    from [C[c]] to [C[c+1]] by the number of bytes [c] in the BWT, and ends
    with the length of the BWT, which is the length [n] of the text when
    that fits the [uint32_t] the builders count in.  The queries are
    functions of the index that return counts and positions only: they
    leave the table as it is. *)
Theorem fm_c_table
    (T : list byte) (params : FMIndex.BuildParams) (idx : FMIndex.t) :
  FMIndex.build_from_text T params = Some idx ->
  length (FMIndex.C_ idx) = 257
  /\ nth 0 (FMIndex.C_ idx) 0%Z = 0%Z
  /\ (forall c, c < 256 ->
        (nth (c + 1) (FMIndex.C_ idx) 0 - nth c (FMIndex.C_ idx) 0)%Z
        = Z.of_nat (freq_of (FMIndex.bwt_ idx) (Z.of_nat c)))
  /\ nth 256 (FMIndex.C_ idx) 0%Z = Z.of_nat (length (FMIndex.bwt_ idx))
  /\ ((Z.of_nat (length T) < 2 ^ 32)%Z ->
      nth 256 (FMIndex.C_ idx) 0%Z = Z.of_nat (length T)).
Proof.
  intros Hbuild. destruct (build_from_text_some T params idx Hbuild) as [_ ->].
  set (d := FMIndex.ssa_stride params).
  pose proof (built_bwt_length T d) as Hbl.
  assert (Hfit : (Z.of_nat (length (FMIndex.bwt_ (built_index T d))) < 2 ^ 32)%Z)
    by (rewrite Hbl; apply size32_bound).
  destruct (build_C_spec (FMIndex.bwt_ (built_index T d)) Hfit) as [Hlen HC].
  change (FMIndex.C_ (built_index T d))
    with (FMIndex.build_C (FMIndex.bwt_ (built_index T d))).
  split; [exact Hlen |]. split; [| split; [| split]].
  - rewrite HC by lia. cbn [Z.of_nat]. now rewrite less_of_0.
  - intros c Hc. rewrite !HC by lia.
    replace (Z.of_nat (c + 1)) with (Z.of_nat c + 1)%Z by lia.
    rewrite less_of_succ. lia.
  - rewrite HC by lia. change (Z.of_nat 256) with 256%Z. now rewrite less_of_256.
  - intros Hn. rewrite HC by lia. change (Z.of_nat 256) with 256%Z.
    rewrite less_of_256, Hbl, size32_small by exact Hn. reflexivity.
Qed.

Lemma fm_c_table_witness :
  let idx := built_index banana_text 32 in
  length (FMIndex.C_ idx) = 257
  /\ nth 0 (FMIndex.C_ idx) 0%Z = 0%Z
  /\ (forall c, c < 256 ->
        (nth (c + 1) (FMIndex.C_ idx) 0 - nth c (FMIndex.C_ idx) 0)%Z
        = Z.of_nat (freq_of (FMIndex.bwt_ idx) (Z.of_nat c)))
  /\ nth 256 (FMIndex.C_ idx) 0%Z = Z.of_nat (length (FMIndex.bwt_ idx))
  /\ ((Z.of_nat (length banana_text) < 2 ^ 32)%Z ->
      nth 256 (FMIndex.C_ idx) 0%Z = Z.of_nat (length banana_text)).
Proof.
  apply (fm_c_table banana_text FMIndex.default_params).
  reflexivity.
Defined.

(* ------------------------------------------------------------------ *)
(** * VebLayout: alignment *)

Lemma le_bytes_length width z : length (le_bytes width z) = width.
Proof.
  revert z. induction width as [|w IH]; intros z; cbn [le_bytes length]; [reflexivity |].
  now rewrite IH.
Qed.

Lemma pad_to_macroblock_aligned packed :
  length (VebLayout.pad_to_macroblock packed) mod VebLayout.VEB_MACROBLOCK_SIZE = 0.
Proof.
  unfold VebLayout.pad_to_macroblock.
  assert (Hm : VebLayout.VEB_MACROBLOCK_SIZE <> 0) by discriminate.
  generalize dependent VebLayout.VEB_MACROBLOCK_SIZE. intros m Hm.
  destruct (Nat.eqb_spec (length packed mod m) 0) as [H0 | Hne]; cbn [negb].
  - exact H0.
  - rewrite length_app, repeat_length.
    pose proof (Nat.div_mod_eq (length packed) m) as Hdm.
    pose proof (Nat.mod_upper_bound (length packed) m Hm) as Hlt.
    replace (length packed + (m - length packed mod m))
      with ((length packed / m + 1) * m) by nia.
    apply Nat.Div0.mod_mul.
Qed.

(** The last two steps of [build] keep every offset from [top] on a multiple
    of the macroblock size. *)
Lemma bottom_levels_aligned levels top order :
  forall st,
    (forall level, top <= level ->
       nth level (fst st) 0 mod VebLayout.VEB_MACROBLOCK_SIZE = 0) ->
    forall level, top <= level ->
      nth level (fst (fold_left (VebLayout.place_bottom_level levels top) order st)) 0
      mod VebLayout.VEB_MACROBLOCK_SIZE = 0.
Proof.
  induction order as [|idx order IH]; intros st Hall level Hlevel; cbn [fold_left].
  - now apply Hall.
  - apply IH; [| exact Hlevel].
    intros l Hl. destruct st as [offsets packed].
    unfold VebLayout.place_bottom_level. cbn [fst] in *.
    rewrite vec_set_nth.
    destruct ((l =? top + idx) && (top + idx <? length offsets)).
    + apply pad_to_macroblock_aligned.
    + now apply Hall.
Qed.

Lemma top_levels_untouched levels top :
  forall level, top <= level ->
    nth level
      (fst (for_loop 0 top (VebLayout.place_top_level levels)
              (repeat 0 (length levels), []))) 0 = 0.
Proof.
  intros level Hlevel.
  apply (for_loop_inv
           (fun i (st : list nat * list Z) =>
              forall l, i <= l -> nth l (fst st) 0 = 0)); [lia | | | lia].
  - intros l _. cbn [fst]. apply nth_repeat.
  - intros i [offsets packed] Hi Hprev l Hl.
    unfold VebLayout.place_top_level. cbn [fst] in *.
    rewrite vec_set_nth.
    destruct (Nat.eqb_spec l i) as [-> | Hne]; [lia |].
    cbn [andb]. apply Hprev. lia.
Qed.

Lemma veb_build_aligned (levels : list BitVector.t) (top_k : nat) :
  let v := VebLayout.build levels top_k in
  (forall level, top_k <= level ->
     VebLayout.get_level_offset v level mod VebLayout.VEB_MACROBLOCK_SIZE = 0)
  /\ VebLayout.size v mod VebLayout.VEB_MACROBLOCK_SIZE = 0.
Proof.
  cbv zeta. unfold VebLayout.build.
  set (top := Nat.min top_k (length levels)).
  pose proof (top_levels_untouched levels top) as Htop.
  destruct (for_loop 0 top _ (repeat 0 (length levels), [])) as [offsets packed].
  cbn [fst] in Htop.
  set (st := if 0 <? length levels - top then _ else _).
  assert (Hbottom : forall level, top <= level ->
                      nth level (fst st) 0 mod VebLayout.VEB_MACROBLOCK_SIZE = 0).
  { intros level Hlevel. unfold st. destruct (0 <? length levels - top).
    - apply bottom_levels_aligned; [| exact Hlevel].
      intros l Hl. cbn [fst]. rewrite Htop by exact Hl. apply Nat.Div0.mod_0_l.
    - cbn [fst]. rewrite Htop by exact Hlevel. apply Nat.Div0.mod_0_l. }
  destruct st as [offsets' packed'].
  cbn [fst] in Hbottom.
  unfold VebLayout.get_level_offset, VebLayout.size.
  cbn [VebLayout.level_offsets_ VebLayout.packed_data_].
  split.
  - intros level Hlevel. destruct (level <? length offsets').
    + apply Hbottom. unfold top. lia.
    + apply Nat.Div0.mod_0_l.
  - apply pad_to_macroblock_aligned.
Qed.

(** C8: after [build], the offset of every bottom level (index [>= top_k])
    that [get_level_offset] returns is a multiple of 4096, and so is the
    size of the packed buffer. *)
Theorem veb_layout_alignment (levels : list BitVector.t) (top_k : nat) :
  let v := VebLayout.build levels top_k in
  (forall level, top_k <= level -> VebLayout.get_level_offset v level mod 4096 = 0)
  /\ VebLayout.size v mod 4096 = 0.
Proof. exact (veb_build_aligned levels top_k). Qed.

(* ------------------------------------------------------------------ *)
(** * IndexWriter: the finalized file *)

(** ** The file stream *)

Lemma ofstream_write_put bytes f :
  Ofstream.put (Ofstream.write bytes f) = Ofstream.put f + length bytes.
Proof. reflexivity. Qed.

(** What was written is found back at the position it was written at. *)
Lemma ofstream_write_read bytes f :
  firstn (length bytes) (skipn (Ofstream.put f) (Ofstream.data (Ofstream.write bytes f)))
  = bytes.
Proof.
  unfold Ofstream.write. cbn [Ofstream.data].
  set (before := firstn (Ofstream.put f) _).
  assert (Hlen : length before = Ofstream.put f).
  { unfold before. rewrite length_firstn, length_app, repeat_length. lia. }
  rewrite skipn_app, Hlen, Nat.sub_diag. cbn [skipn].
  rewrite (skipn_all2 before) by lia. cbn [app].
  rewrite firstn_app, Nat.sub_diag. cbn [firstn].
  now rewrite firstn_all, app_nil_r.
Qed.

(** A write at the front leaves everything behind it as it was. *)
Lemma ofstream_write_front bytes f off :
  length bytes <= off ->
  length bytes <= length (Ofstream.data f) ->
  skipn off (Ofstream.data (Ofstream.write bytes (Ofstream.seekp 0 f)))
  = skipn off (Ofstream.data f)
  /\ firstn (length bytes) (Ofstream.data (Ofstream.write bytes (Ofstream.seekp 0 f)))
     = bytes.
Proof.
  intros Hoff Hlen.
  unfold Ofstream.write, Ofstream.seekp. cbn [Ofstream.data Ofstream.put firstn app Nat.add].
  split.
  - rewrite skipn_app, (skipn_all2 bytes) by lia. cbn [app].
    rewrite skipn_skipn. f_equal. lia.
  - rewrite firstn_app, Nat.sub_diag. cbn [firstn].
    now rewrite firstn_all, app_nil_r.
Qed.

Lemma ofstream_write_length bytes f :
  Ofstream.put f + length bytes
  <= length (Ofstream.data (Ofstream.write bytes f)).
Proof.
  unfold Ofstream.write. cbn [Ofstream.data].
  rewrite !length_app, length_firstn, length_app, repeat_length. lia.
Qed.

(** ** The writer *)

(** The writer keeps the stream position and its own count of bytes equal,
    past the room left for the header. *)
Definition writer_ok (w : IndexWriter.t) : Prop :=
  Ofstream.put (IndexWriter.file_ w) = IndexWriter.current_offset_ w
  /\ IndexWriter.sizeof_IndexHeader <= IndexWriter.current_offset_ w
  /\ length (IndexWriter.offsets (IndexWriter.header_ w)) = IndexWriter.NUM_SECTIONS
  /\ length (IndexWriter.magic (IndexWriter.header_ w)) = 8.

Lemma create_ok : writer_ok IndexWriter.create.
Proof. repeat split. apply Nat.le_refl. Qed.

Lemma write_raw_ok bytes w : writer_ok w -> writer_ok (IndexWriter.write_raw bytes w).
Proof.
  intros (Hput & Hsz & Hoffs & Hmag). unfold writer_ok, IndexWriter.write_raw.
  cbn [IndexWriter.file_ IndexWriter.header_ IndexWriter.current_offset_].
  rewrite ofstream_write_put. repeat split; lia || assumption.
Qed.

Lemma set_offset_ok section w : writer_ok w -> writer_ok (IndexWriter.set_offset section w).
Proof.
  intros (Hput & Hsz & Hoffs & Hmag). unfold writer_ok, IndexWriter.set_offset.
  cbn [IndexWriter.file_ IndexWriter.header_ IndexWriter.current_offset_
       IndexWriter.offsets IndexWriter.magic].
  rewrite vec_set_length. repeat split; assumption.
Qed.

Lemma write_array_ok width vec w :
  writer_ok w -> writer_ok (IndexWriter.write_array width vec w).
Proof.
  intros Hw. unfold IndexWriter.write_array.
  destruct (0 <? length vec); repeat apply write_raw_ok; exact Hw.
Qed.

(** Once entered, the padding loop does not come to an end. *)
Lemma pad_loop_runs_on fuel padding w :
  0 < padding -> IndexWriter.pad_loop fuel padding 0 w = None.
Proof.
  intros Hpos. revert w. induction fuel as [|fuel IH]; intros w; cbn [IndexWriter.pad_loop];
    destruct (Nat.ltb_spec 0 padding) as [_ | Hge]; try lia; [reflexivity | apply IH].
Qed.

(** [align_to] returns exactly when no padding is needed, and then changes
    nothing. *)
Lemma align_to_spec fuel alignment w :
  0 < alignment ->
  IndexWriter.align_to fuel alignment w
  = if IndexWriter.current_offset_ w mod alignment =? 0 then Some w else None.
Proof.
  intros Hpos. unfold IndexWriter.align_to.
  destruct (Nat.eqb_spec (IndexWriter.current_offset_ w mod alignment) 0) as [H0 | Hne];
    cbn [negb]; [reflexivity |].
  apply pad_loop_runs_on.
  pose proof (Nat.mod_upper_bound (IndexWriter.current_offset_ w) alignment). lia.
Qed.

Lemma align_to_some fuel alignment w w' :
  0 < alignment ->
  IndexWriter.align_to fuel alignment w = Some w' ->
  w' = w /\ IndexWriter.current_offset_ w mod alignment = 0.
Proof.
  intros Hpos. rewrite align_to_spec by exact Hpos.
  destruct (Nat.eqb_spec (IndexWriter.current_offset_ w mod alignment) 0); [| discriminate].
  intros [= <-]. now split.
Qed.

Ltac aligned_case H :=
  match type of H with
  | context [IndexWriter.align_to ?fuel ?a ?w] =>
      let E := fresh "Halign" in
      let w' := fresh "w" in
      destruct (IndexWriter.align_to fuel a w) as [w'|] eqn:E; [| discriminate H];
      apply align_to_some in E; [| lia]; destruct E as [-> E]
  end.

Lemma perform_ok fuel c w w' :
  writer_ok w -> IndexWriter.perform fuel c w = Some w' -> writer_ok w'.
Proof.
  intros Hw Hc. destruct c; cbn [IndexWriter.perform] in Hc.
  - injection Hc as <-. destruct Hw as (Hput & Hsz & Hoffs & Hmag).
    unfold writer_ok, IndexWriter.write_header.
    cbn [IndexWriter.file_ IndexWriter.header_ IndexWriter.current_offset_
         IndexWriter.offsets IndexWriter.magic].
    rewrite vec_set_length. repeat split; assumption.
  - unfold IndexWriter.write_text in Hc. aligned_case Hc. injection Hc as <-.
    now repeat apply write_raw_ok; apply set_offset_ok.
  - unfold IndexWriter.write_bwt in Hc. aligned_case Hc. injection Hc as <-.
    now apply write_array_ok, set_offset_ok.
  - unfold IndexWriter.write_c_array in Hc. aligned_case Hc. injection Hc as <-.
    now apply write_array_ok, set_offset_ok.
  - unfold IndexWriter.write_ssa in Hc. aligned_case Hc. aligned_case Hc.
    injection Hc as <-.
    now apply write_array_ok, write_raw_ok, set_offset_ok.
  - unfold IndexWriter.write_wavelet in Hc. aligned_case Hc. injection Hc as <-.
    now repeat apply write_array_ok; apply write_raw_ok, set_offset_ok.
  - unfold IndexWriter.write_veb_layout in Hc.
    assert (Hzero : writer_ok
              (IndexWriter.mk (IndexWriter.file_ w)
                 (IndexWriter.mkHeader (IndexWriter.magic (IndexWriter.header_ w))
                    (IndexWriter.version (IndexWriter.header_ w))
                    (IndexWriter.reserved1 (IndexWriter.header_ w))
                    (IndexWriter.flags (IndexWriter.header_ w))
                    (IndexWriter.text_len (IndexWriter.header_ w))
                    (vec_set IndexWriter.SECTION_VEB_LAYOUT 0
                       (IndexWriter.offsets (IndexWriter.header_ w))))
                 (IndexWriter.current_offset_ w))).
    { destruct Hw as (Hput & Hsz & Hoffs & Hmag). unfold writer_ok.
      cbn [IndexWriter.file_ IndexWriter.header_ IndexWriter.current_offset_
           IndexWriter.offsets IndexWriter.magic].
      rewrite vec_set_length. repeat split; assumption. }
    destruct veb_data as [[|b veb]|].
    + now injection Hc as <-.
    + aligned_case Hc. injection Hc as <-.
      now repeat apply write_raw_ok; apply set_offset_ok.
    + now injection Hc as <-.
Qed.

Lemma perform_all_ok fuel calls :
  forall w w', writer_ok w -> IndexWriter.perform_all fuel calls w = Some w' -> writer_ok w'.
Proof.
  induction calls as [|c rest IH]; intros w w' Hw Hrun; cbn [IndexWriter.perform_all] in Hrun.
  - now injection Hrun as <-.
  - destruct (IndexWriter.perform fuel c w) as [w1|] eqn:Hc; [| discriminate].
    eapply IH; [| exact Hrun]. eapply perform_ok; eassumption.
Qed.

Lemma header_bytes_length h :
  length (IndexWriter.magic h) = 8 ->
  length (IndexWriter.offsets h) = IndexWriter.NUM_SECTIONS ->
  length (IndexWriter.header_bytes h) = IndexWriter.sizeof_IndexHeader.
Proof.
  intros Hmag Hoffs. unfold IndexWriter.header_bytes.
  rewrite !length_app, !le_bytes_length, Hmag.
  rewrite (flat_map_constant_length (c := 8)) by (intros; apply le_bytes_length).
  rewrite Hoffs. reflexivity.
Qed.

(** [finalize] returns exactly when the writer stands on a multiple of 8. *)
Lemma finalize_returns fuel w :
  IndexWriter.finalize fuel w <> None <-> IndexWriter.current_offset_ w mod 8 = 0.
Proof.
  unfold IndexWriter.finalize. rewrite align_to_spec by lia.
  destruct (Nat.eqb_spec (IndexWriter.current_offset_ w mod 8) 0) as [H0 | Hne].
  - split; [intros _; exact H0 | discriminate].
  - split; [intros H; now elim H | intros H; contradiction].
Qed.

(** In a finalized file the footer stands at the offset the header records
    for it, and the header is at the front. *)
Lemma finalize_spec fuel w w' :
  writer_ok w ->
  IndexWriter.finalize fuel w = Some w' ->
  IndexWriter.section_u64_bytes IndexWriter.SECTION_FOOTER w'
  = le_bytes 8 IndexWriter.footer_magic
  /\ firstn IndexWriter.sizeof_IndexHeader (Ofstream.data (IndexWriter.file_ w'))
     = IndexWriter.header_bytes (IndexWriter.header_ w')
  /\ nth IndexWriter.SECTION_FOOTER (IndexWriter.offsets (IndexWriter.header_ w')) 0
     = IndexWriter.current_offset_ w.
Proof.
  intros Hw Hfin. unfold IndexWriter.finalize in Hfin. aligned_case Hfin.
  cbv zeta in Hfin.
  pose proof (set_offset_ok IndexWriter.SECTION_FOOTER w Hw) as Hw1.
  set (w1 := IndexWriter.set_offset IndexWriter.SECTION_FOOTER w) in *.
  pose proof (write_raw_ok (le_bytes 8 IndexWriter.footer_magic) w1 Hw1) as Hw2.
  set (w2 := IndexWriter.write_raw (le_bytes 8 IndexWriter.footer_magic) w1) in *.
  assert (Hw' : w' = IndexWriter.mk
                       (Ofstream.write (IndexWriter.header_bytes (IndexWriter.header_ w2))
                          (Ofstream.seekp 0 (IndexWriter.file_ w2)))
                       (IndexWriter.header_ w2) (IndexWriter.current_offset_ w2))
    by congruence.
  clear Hfin.
  assert (Hhdr : IndexWriter.header_ w2 = IndexWriter.header_ w1) by reflexivity.
  assert (Hoff : nth IndexWriter.SECTION_FOOTER (IndexWriter.offsets (IndexWriter.header_ w1)) 0
                 = IndexWriter.current_offset_ w).
  { unfold w1, IndexWriter.set_offset. cbn [IndexWriter.header_ IndexWriter.offsets].
    rewrite vec_set_nth, Nat.eqb_refl.
    destruct Hw as (_ & _ & Hoffs & _). rewrite Hoffs. reflexivity. }
  destruct Hw1 as (Hput1 & Hsz1 & Hoffs1 & Hmag1).
  assert (Hcur1 : IndexWriter.current_offset_ w1 = IndexWriter.current_offset_ w) by reflexivity.
  assert (Hfile2 : IndexWriter.file_ w2
                   = Ofstream.write (le_bytes 8 IndexWriter.footer_magic) (IndexWriter.file_ w1))
    by reflexivity.
  clearbody w2. clearbody w1. subst w'.
  rewrite <- Hhdr in Hoff, Hoffs1, Hmag1.
  pose proof (header_bytes_length (IndexWriter.header_ w2) Hmag1 Hoffs1) as Hhlen.
  pose proof (ofstream_write_length (le_bytes 8 IndexWriter.footer_magic)
                (IndexWriter.file_ w1)) as Hflen.
  rewrite le_bytes_length, <- Hfile2 in Hflen.
  destruct (ofstream_write_front (IndexWriter.header_bytes (IndexWriter.header_ w2))
              (IndexWriter.file_ w2) (IndexWriter.current_offset_ w)) as [Hback Hfront].
  { rewrite Hhlen. lia. }
  { rewrite Hhlen. lia. }
  unfold IndexWriter.section_u64_bytes.
  cbn [IndexWriter.file_ IndexWriter.header_].
  rewrite Hoff. split; [| split; [| reflexivity]].
  - rewrite Hback, Hfile2, <- Hcur1, <- Hput1.
    rewrite <- (le_bytes_length 8 IndexWriter.footer_magic) at 1.
    apply ofstream_write_read.
  - rewrite <- Hhlen. exact Hfront.
Qed.

(** ** The footer of a finalized file *)

(** A writer session: the header fields, an 8-byte text, an 8-byte vector
    and a two-entry table, each of which leaves the writer on a multiple
    of 8. *)
Definition index_calls_example : list IndexWriter.call :=
  [IndexWriter.Write_header 0 8;
   IndexWriter.Write_text ["a"; "b"; "r"; "a"; "c"; "a"; "d"; "$"]%byte;
   IndexWriter.Write_bwt [100; 114; 99; 36; 97; 97; 97; 98]%Z;
   IndexWriter.Write_c_array [0; 8]%Z].

Definition writer_example : IndexWriter.t :=
  Eval vm_compute in
    match IndexWriter.perform_all 0 index_calls_example IndexWriter.create with
    | Some w => w
    | None => IndexWriter.create
    end.

(** The eight bytes that the comment beside the constant of [finalize]
    names: the characters CSEND followed by three zero bytes. *)
Definition footer_comment_bytes : list Z := [67; 83; 69; 78; 68; 0; 0; 0]%Z.

(** C9: [finalize] on a fresh writer returns, and the eight bytes of the
    file at the offset recorded for the FOOTER section are
    00 53 43 53 45 4E 44 00, the little-endian bytes of the constant
    0x444E4553435300 of [finalize].  They are neither the little-endian
    bytes of 0x0000435345444E44 nor the bytes that the comment beside the
    constant names.  By [finalize_spec] every finalized file carries the
    same eight bytes. *)
Theorem index_footer_marker :
  exists w',
    IndexWriter.finalize 0 IndexWriter.create = Some w'
    /\ IndexWriter.section_u64_bytes IndexWriter.SECTION_FOOTER w'
       = [0; 83; 67; 83; 69; 78; 68; 0]%Z
    /\ IndexWriter.section_u64_bytes IndexWriter.SECTION_FOOTER w'
       <> le_bytes 8 0x0000435345444E44
    /\ IndexWriter.section_u64_bytes IndexWriter.SECTION_FOOTER w'
       <> footer_comment_bytes.
Proof.
  eexists. split; [vm_compute; reflexivity |].
  split; [vm_compute; reflexivity |].
  split; vm_compute; discriminate.
Qed.

(* ================================================================== *)
(** * Further properties of the code *)

(* ------------------------------------------------------------------ *)
(** ** BitVector: reading bits back *)

Lemma land_one_testbit x : Z.land x 1 = Z.b2z (Z.testbit x 0).
Proof.
  change 1%Z with (Z.ones 1). rewrite Z.land_ones by lia.
  change (2 ^ 1)%Z with 2%Z. now rewrite <- Z.bit0_mod.
Qed.

Lemma get_spec bits i :
  BitVector.get (BitVector.build bits) i
  = if i <? length bits then Z.b2z (bit_at bits i) else 0%Z.
Proof.
  unfold BitVector.get. rewrite build_nbits.
  destruct (Nat.leb_spec (length bits) i) as [Hge | Hlt].
  - destruct (Nat.ltb_spec i (length bits)); [lia | reflexivity].
  - destruct (Nat.ltb_spec i (length bits)); [| lia].
    rewrite build_fields by lia. cbn [BitVector.bits_]. cbv zeta.
    rewrite land_one_testbit. unfold shr64.
    rewrite Z.shiftr_spec by lia. rewrite Z.add_0_l, pack_testbit.
    pose proof (Nat.mod_upper_bound i 64 ltac:(lia)) as Hm.
    pose proof (Nat.div_mod_eq i 64) as Hdm.
    destruct (Nat.ltb_spec (i mod 64) 64); [| lia]. cbn [andb].
    do 2 f_equal. lia.
Qed.

(** X1: [get] on a built bit-vector gives back the input bit, as 0 or 1
    (an input byte other than 0 counts as 1), and 0 from the length on. *)
Theorem bitvector_get_reads_input_bit (bits : list Z) (i : nat) :
  BitVector.get (BitVector.build bits) i
  = if i <? length bits then Z.b2z (BitVector.truthy (nth i bits 0%Z)) else 0%Z.
Proof. exact (get_spec bits i). Qed.

(** X2: [rank1] grows from [i] to [i + 1] by the bit that [get] reads at
    [i], and never decreases. *)
Theorem bitvector_rank1_step (bits : list Z) (i : nat) :
  (Z.of_nat (naive_rank bits (length bits)) < 2 ^ 32)%Z ->
  let bv := BitVector.build bits in
  (i < length bits ->
   BitVector.rank1 bv (i + 1) = BitVector.rank1 bv i + Z.to_nat (BitVector.get bv i))
  /\ forall j, i <= j -> BitVector.rank1 bv i <= BitVector.rank1 bv j.
Proof.
  intros Hfit. cbv zeta. rewrite naive_rank_count in Hfit.
  split.
  - intros Hi. rewrite !rank1_spec by exact Hfit. rewrite get_spec.
    destruct (Nat.ltb_spec i (length bits)); [| lia].
    rewrite Nat.add_1_r, count_in_step by lia.
    destruct (bit_at bits i); reflexivity.
  - intros j Hij. rewrite !rank1_spec by exact Hfit.
    rewrite (count_in_split _ 0 i j) by lia. lia.
Qed.

Lemma bitvector_rank1_step_witness :
  let bv := BitVector.build rank_bits_example in
  (6 < length rank_bits_example ->
   BitVector.rank1 bv (6 + 1) = BitVector.rank1 bv 6 + Z.to_nat (BitVector.get bv 6))
  /\ forall j, 6 <= j -> BitVector.rank1 bv 6 <= BitVector.rank1 bv j.
Proof.
  apply (bitvector_rank1_step rank_bits_example 6).
  vm_compute. reflexivity.
Defined.

(* ------------------------------------------------------------------ *)
(** ** WaveletTree: rank at every index *)

(** X3: on a tree built over bytes, [rank(c, i)] is the number of [c] among
    the first [i] symbols for every [i] up to the length, and 0 beyond. *)
Theorem wavelet_rank_counts_symbol (bwt : list Z) (c : Z) (i : nat) :
  (Z.of_nat (length bwt) < 2 ^ 32)%Z ->
  (0 <= c < 256)%Z ->
  Forall (fun x => 0 <= x < 256)%Z bwt ->
  WaveletTree.rank (WaveletTree.build bwt) c i
  = if i <=? length bwt then naive_occ bwt c i else 0.
Proof.
  intros Hn Hc Hall.
  destruct (Nat.leb_spec i (length bwt)) as [Hle | Hgt].
  - now apply wavelet_rank_spec.
  - apply wavelet_rank_beyond.
    unfold WaveletTree.build.
    destruct (Nat.eqb_spec (length bwt) 0) as [H0 | H0].
    + cbn [WaveletTree.n_]. lia.
    + destruct (build_levels bwt H0) as [Hnn _].
      unfold WaveletTree.build in Hnn.
      destruct (Nat.eqb_spec (length bwt) 0); [contradiction |].
      rewrite Hnn. exact Hgt.
Qed.

Definition wavelet_symbols_example : list Z := [98; 97; 110; 97; 110; 97; 36]%Z.

Lemma wavelet_rank_counts_symbol_witness :
  WaveletTree.rank (WaveletTree.build wavelet_symbols_example) 97 5
  = if 5 <=? length wavelet_symbols_example
    then naive_occ wavelet_symbols_example 97 5 else 0.
Proof.
  apply (wavelet_rank_counts_symbol wavelet_symbols_example 97 5).
  - vm_compute. reflexivity.
  - lia.
  - unfold wavelet_symbols_example. repeat constructor; lia.
Defined.

(* ------------------------------------------------------------------ *)
(** ** WaveletTree: access *)

Lemma split_at_nth (cur : list Z) pos :
  pos < length cur ->
  cur = firstn pos cur ++ nth pos cur 0%Z :: skipn (Datatypes.S pos) cur.
Proof.
  intros H. rewrite <- (skipn_cons_nth cur 0%Z pos H). symmetry. apply firstn_skipn.
Qed.

Lemma zeros_of_cons bit x l :
  zeros_of bit (x :: l)
  = if Z.testbit x (Z.of_nat bit) then zeros_of bit l else x :: zeros_of bit l.
Proof. unfold zeros_of. cbn [filter]. now destruct (Z.testbit x (Z.of_nat bit)). Qed.

Lemma ones_of_cons bit x l :
  ones_of bit (x :: l)
  = if Z.testbit x (Z.of_nat bit) then x :: ones_of bit l else ones_of bit l.
Proof. unfold ones_of. cbn [filter]. now destruct (Z.testbit x (Z.of_nat bit)). Qed.

Lemma partition_position_app bit (A B : list Z) x :
  let cur := A ++ x :: B in
  let pos' := if Z.testbit x (Z.of_nat bit)
              then length (zeros_of bit cur) + length (ones_of bit A)
              else length (zeros_of bit A) in
  pos' < length cur
  /\ nth pos' (zeros_of bit cur ++ ones_of bit cur) 0%Z = x.
Proof.
  cbv zeta.
  pose proof (partition_length bit (A ++ x :: B)) as Hlen.
  rewrite length_app in Hlen.
  pose proof (partition_length bit A) as HlenA. rewrite length_app in HlenA.
  rewrite !zeros_of_app, !ones_of_app, zeros_of_cons, ones_of_cons in *.
  destruct (Z.testbit x (Z.of_nat bit)).
  - rewrite !length_app in *. cbn [length] in *. split; [lia |].
    rewrite app_nth2 by (rewrite length_app; lia).
    rewrite length_app.
    replace (length (zeros_of bit A) + length (zeros_of bit B) + length (ones_of bit A)
             - (length (zeros_of bit A) + length (zeros_of bit B)))
      with (length (ones_of bit A)) by lia.
    apply nth_middle.
  - rewrite !length_app in *. cbn [length] in *. split; [lia |].
    rewrite <- app_assoc. cbn [app]. apply nth_middle.
Qed.

(** Where the symbol at [pos] stands after the stable partition of one
    level. *)
Lemma partition_position bit (cur : list Z) pos :
  pos < length cur ->
  let x := nth pos cur 0%Z in
  let zeros_before := length (zeros_of bit (firstn pos cur)) in
  let ones_before := length (ones_of bit (firstn pos cur)) in
  let pos' := if Z.testbit x (Z.of_nat bit)
              then length (zeros_of bit cur) + ones_before else zeros_before in
  zeros_before + ones_before = pos
  /\ pos' < length cur
  /\ nth pos' (zeros_of bit cur ++ ones_of bit cur) 0%Z = x.
Proof.
  intros Hpos. cbv zeta.
  pose proof (split_at_nth cur pos Hpos) as Hcur.
  split.
  - rewrite <- length_app, partition_length, length_firstn. lia.
  - pose proof (partition_position_app bit (firstn pos cur)
                  (skipn (Datatypes.S pos) cur) (nth pos cur 0%Z)) as H.
    cbv zeta in H. rewrite <- Hcur in H. exact H.
Qed.

Lemma b2z_testbit (b : bool) (k : Z) : Z.testbit (Z.b2z b) k = b && (k =? 0)%Z.
Proof.
  destruct b; cbn [Z.b2z andb].
  - destruct (Z.eqb_spec k 0) as [-> | Hne]; [reflexivity |].
    destruct k; [contradiction | reflexivity | reflexivity].
  - apply Z.bits_0.
Qed.

(** One more bit of [x] gathered into [symbol], from the top. *)
Lemma gather_bit (x symbol : Z) (l : nat) :
  l < 8 -> (0 <= x < 256)%Z ->
  (forall k, (0 <= k)%Z ->
     Z.testbit symbol k = Z.testbit x k && (8 - Z.of_nat l <=? k)%Z) ->
  let bit_val := Z.b2z (Z.testbit x (Z.of_nat (7 - l))) in
  forall k, (0 <= k)%Z ->
    Z.testbit (Z.lor symbol (Z.shiftl bit_val (Z.of_nat (7 - l))) mod 2 ^ 8) k
    = Z.testbit x k && (8 - Z.of_nat (Datatypes.S l) <=? k)%Z.
Proof.
  intros Hl Hx Hsym bit_val k Hk.
  assert (Hhigh : (8 <= k)%Z -> Z.testbit x k = false).
  { intros H8. apply (Z.bits_above_log2 x k); [lia |].
    destruct (Z.eq_dec x 0) as [-> | Hx0]; [cbn; lia |].
    apply Z.log2_lt_pow2; [lia |].
    apply Z.lt_le_trans with (2 ^ 8)%Z; [lia |].
    apply Z.pow_le_mono_r; lia. }
  destruct (Z.ltb_spec k 8) as [Hlt | Hge].
  - rewrite Z.mod_pow2_bits_low by lia.
    rewrite Z.lor_spec, Hsym by lia.
    rewrite Z.shiftl_spec by lia. unfold bit_val. rewrite b2z_testbit.
    replace (Z.of_nat (7 - l)) with (7 - Z.of_nat l)%Z by lia.
    destruct (Z.eqb_spec (k - (7 - Z.of_nat l)) 0) as [He | Hne].
    + replace k with (7 - Z.of_nat l)%Z by lia.
      destruct (Z.testbit x (7 - Z.of_nat l)); cbn [andb orb];
        repeat match goal with |- context [(?a <=? ?b)%Z] =>
          destruct (Z.leb_spec a b); try lia end; reflexivity.
    + rewrite andb_false_r, orb_false_r.
      f_equal.
      repeat match goal with |- context [(?a <=? ?b)%Z] =>
        destruct (Z.leb_spec a b); try lia end; reflexivity.
  - rewrite Z.mod_pow2_bits_high by lia. now rewrite Hhigh by lia.
Qed.

Lemma level_get bit (cur : list Z) pos :
  pos < length cur ->
  BitVector.get (BitVector.build (level_bits bit cur)) pos
  = Z.b2z (Z.testbit (nth pos cur 0%Z) (Z.of_nat bit)).
Proof.
  intros Hpos. rewrite get_spec. unfold level_bits at 1. rewrite length_map.
  destruct (Nat.ltb_spec pos (length cur)); [| lia].
  f_equal. unfold bit_at, level_bits.
  rewrite (nth_indep _ 0%Z (WaveletTree.bit_of 0 bit)) by (rewrite length_map; exact Hpos).
  rewrite (map_nth (fun y => WaveletTree.bit_of y bit) cur 0%Z pos). apply truthy_bit_of.
Qed.

Lemma access_spec (bwt : list Z) (i : nat) :
  (Z.of_nat (length bwt) < 2 ^ 32)%Z ->
  Forall (fun x => 0 <= x < 256)%Z bwt ->
  i < length bwt ->
  WaveletTree.access (WaveletTree.build bwt) i = nth i bwt 0%Z.
Proof.
  intros Hn Hall Hi.
  assert (Hlen : length bwt <> 0) by lia.
  destruct (build_levels bwt Hlen) as [Hnn Hlev].
  unfold WaveletTree.access. rewrite Hnn.
  destruct (Nat.leb_spec (length bwt) i); [lia |].
  set (x := nth i bwt 0%Z).
  assert (Hx : (0 <= x < 256)%Z).
  { rewrite Forall_forall in Hall. apply Hall. apply nth_In. exact Hi. }
  pose (P := fun l (st : Z * nat) =>
               snd st < length bwt
               /\ nth (snd st) (cur_at bwt l) 0%Z = x
               /\ forall k, (0 <= k)%Z ->
                    Z.testbit (fst st) k = Z.testbit x k && (8 - Z.of_nat l <=? k)%Z).
  match goal with |- fst ?loop = _ => assert (HP : P 8 loop) end.
  { apply for_loop_inv; [lia | |].
    - unfold P. cbn [fst snd cur_at]. split; [exact Hi |]. split; [reflexivity |].
      intros k Hk. rewrite Z.bits_0.
      destruct (Z.leb_spec (8 - Z.of_nat 0) k) as [H8 | H8].
      + rewrite andb_true_r. symmetry.
        apply (Z.bits_above_log2 x k); [lia |].
        destruct (Z.eq_dec x 0) as [-> | Hx0]; [cbn; lia |].
        apply Z.log2_lt_pow2; [lia |].
        apply Z.lt_le_trans with (2 ^ 8)%Z; [lia |].
        apply Z.pow_le_mono_r; lia.
      + now rewrite andb_false_r.
    - intros l [symbol pos] Hl (Hpos & Hnth & Hsym). cbn [fst snd] in Hpos, Hnth, Hsym.
      rewrite Hlev by lia.
      set (cur := cur_at bwt l) in *.
      assert (Hcl : length cur = length bwt) by apply cur_at_length.
      assert (Hpc : pos < length cur) by lia.
      rewrite level_get by exact Hpc. rewrite Hnth.
      rewrite !level_rank1 by (rewrite Hcl; exact Hn).
      rewrite level_size. rewrite firstn_all.
      destruct (partition_position (7 - l) cur pos Hpc) as (Hsum & Hlt & Hpn).
      rewrite Hnth in Hlt, Hpn.
      pose proof (partition_length (7 - l) cur) as Hpl. rewrite length_app in Hpl.
      pose proof (gather_bit x symbol l ltac:(lia) Hx Hsym) as Hg. cbv zeta in Hg.
      unfold P. cbn [cur_at]. fold cur.
      destruct (Z.testbit x (Z.of_nat (7 - l))) eqn:Hb; cbn [Z.b2z Z.eqb fst snd].
      + replace (length cur - length (ones_of (7 - l) cur))
          with (length (zeros_of (7 - l) cur)) by lia.
        split; [lia |]. split; [exact Hpn | exact Hg].
      + replace (pos - length (ones_of (7 - l) (firstn pos cur)))
          with (length (zeros_of (7 - l) (firstn pos cur))) by lia.
        split; [lia |]. split; [exact Hpn | exact Hg]. }
  destruct HP as (_ & _ & Hbits).
  apply Z.bits_inj'. intros k Hk. rewrite Hbits by exact Hk.
  destruct (Z.leb_spec (8 - Z.of_nat 8) k); [apply andb_true_r | lia].
Qed.

(** X4: [access] on a tree built over bytes returns the symbol at [i] for
    every [i] below the length, and 0 from the length on. *)
Theorem wavelet_access_returns_symbol (bwt : list Z) (i : nat) :
  (Z.of_nat (length bwt) < 2 ^ 32)%Z ->
  Forall (fun x => 0 <= x < 256)%Z bwt ->
  WaveletTree.access (WaveletTree.build bwt) i
  = if i <? length bwt then nth i bwt 0%Z else 0%Z.
Proof.
  intros Hn Hall.
  destruct (Nat.ltb_spec i (length bwt)) as [Hlt | Hge].
  - now apply access_spec.
  - unfold WaveletTree.access.
    assert (Hnn : WaveletTree.n_ (WaveletTree.build bwt) = length bwt).
    { destruct (Nat.eq_dec (length bwt) 0) as [H0 | H0].
      - unfold WaveletTree.build. rewrite H0. reflexivity.
      - apply build_levels, H0. }
    rewrite Hnn. destruct (Nat.leb_spec (length bwt) i); [reflexivity | lia].
Qed.

Lemma wavelet_access_returns_symbol_witness :
  WaveletTree.access (WaveletTree.build wavelet_symbols_example) 4
  = if 4 <? length wavelet_symbols_example then nth 4 wavelet_symbols_example 0%Z else 0%Z.
Proof.
  apply (wavelet_access_returns_symbol wavelet_symbols_example 4).
  - vm_compute. reflexivity.
  - unfold wavelet_symbols_example. repeat constructor; lia.
Defined.

(** X5: [rank] and [access] fit together: from [i] to [i + 1] the rank of
    [c] grows by one exactly when [access(i)] is [c]. *)
Theorem wavelet_rank_access_step (bwt : list Z) (c : Z) (i : nat) :
  (Z.of_nat (length bwt) < 2 ^ 32)%Z ->
  (0 <= c < 256)%Z ->
  Forall (fun x => 0 <= x < 256)%Z bwt ->
  i < length bwt ->
  let wt := WaveletTree.build bwt in
  WaveletTree.rank wt c (i + 1)
  = WaveletTree.rank wt c i + (if (WaveletTree.access wt i =? c)%Z then 1 else 0).
Proof.
  intros Hn Hc Hall Hi. cbv zeta.
  rewrite !wavelet_rank_spec by (assumption || lia).
  rewrite access_spec by assumption.
  unfold naive_occ.
  rewrite Nat.add_1_r.
  rewrite (firstn_snoc bwt i 0%Z Hi), filter_app, length_app. f_equal.
  cbn [filter]. rewrite (Z.eqb_sym c).
  destruct (nth i bwt 0 =? c)%Z; reflexivity.
Qed.

Lemma wavelet_rank_access_step_witness :
  let wt := WaveletTree.build wavelet_symbols_example in
  WaveletTree.rank wt 97 (3 + 1)
  = WaveletTree.rank wt 97 3 + (if (WaveletTree.access wt 3 =? 97)%Z then 1 else 0).
Proof.
  apply (wavelet_rank_access_step wavelet_symbols_example 97 3).
  - vm_compute. reflexivity.
  - lia.
  - unfold wavelet_symbols_example. repeat constructor; lia.
  - vm_compute. lia.
Defined.

(* ------------------------------------------------------------------ *)
(** ** The suffix array and the transform *)

(** The last byte of the text occurs nowhere else in it. *)
Definition unique_terminator (T : list byte) : Prop :=
  T <> [] /\
  forall q, q < length T - 1 -> nth q T x00 <> nth (length T - 1) T x00.

Lemma sentinel_is_unique_terminator T : ends_with_sentinel T -> unique_terminator T.
Proof.
  intros H. split; [apply H | apply sentinel_unique, H].
Qed.

Lemma unique_terminator_pos T : unique_terminator T -> 0 < length T.
Proof. intros [Hne _]. destruct T; [contradiction | cbn [length]; lia]. Qed.

(** A text whose last byte is unique without being the smallest. *)
Definition tilde_text : list byte := ["t"; "o"; " "; "b"; "e"; " "; "t"; "o"; "~"]%byte.

Lemma tilde_text_terminated : unique_terminator tilde_text.
Proof.
  split; [discriminate |]. intros q Hq. cbn in Hq.
  do 8 (destruct q as [|q]; [vm_compute; discriminate |]). lia.
Qed.

(** X6: [build_sa_naive] returns the positions [0 .. n-1], each once, in
    the strictly increasing order of the suffixes that start there. *)
Theorem suffix_array_sorted_permutation (T : list byte) :
  (Z.of_nat (length T) < 2 ^ 32)%Z ->
  let sa := build_sa_naive T in
  Permutation sa (seq 0 (length T))
  /\ forall i j, i < j -> j < length T ->
       string_lt (substr T (nth i sa 0)) (substr T (nth j sa 0)) = true.
Proof.
  intros Hn. cbv zeta. split; [apply sa_perm, Hn |].
  intros i j Hij Hj. apply SA_sorted; [exact Hn | lia | exact Hij | exact Hj].
Qed.

Lemma suffix_array_sorted_permutation_witness :
  let sa := build_sa_naive banana_text in
  Permutation sa (seq 0 (length banana_text))
  /\ forall i j, i < j -> j < length banana_text ->
       string_lt (substr banana_text (nth i sa 0)) (substr banana_text (nth j sa 0)) = true.
Proof.
  apply (suffix_array_sorted_permutation banana_text).
  vm_compute. reflexivity.
Defined.

(** X7: the transform built from the suffix array is a rearrangement of the
    bytes of the text. *)
Theorem bwt_is_permutation_of_text (T : list byte) :
  (Z.of_nat (length T) < 2 ^ 32)%Z ->
  Permutation (build_bwt_from_sa T (build_sa_naive T)) T.
Proof.
  intros Hn.
  destruct T as [|b T'] eqn:HT; [reflexivity |]. rewrite <- HT in *.
  assert (Hpos : 0 < length T) by (rewrite HT; cbn [length]; lia).
  clear HT b T'.
  set (n := length T). set (sa := build_sa_naive T).
  assert (Hbwt : build_bwt_from_sa T sa
                 = map (fun q => nth q T x00) (map (cyc_pred n) sa)).
  { apply (nth_ext _ _ x00 x00).
    - unfold sa. rewrite bwt_length by exact Hn.
      rewrite !length_map. unfold sa. now rewrite sa_length.
    - intros i Hi. unfold sa in Hi. rewrite bwt_length in Hi by exact Hn.
      unfold sa at 1. rewrite bwt_nth by assumption.
      rewrite map_map.
      rewrite (nth_indep (map (fun x => nth (cyc_pred n x) T x00) sa)
                 x00 (nth (cyc_pred n 0) T x00))
        by (rewrite length_map; unfold sa; rewrite sa_length; assumption).
      rewrite (map_nth (fun x => nth (cyc_pred n x) T x00) sa 0 i).
      reflexivity. }
  rewrite Hbwt.
  transitivity (map (fun q => nth q T x00) (seq 0 n)).
  - apply Permutation_map.
    transitivity (map (cyc_pred n) (seq 0 n)).
    + apply Permutation_map. apply sa_perm. exact Hn.
    + apply cyc_pred_perm.
  - unfold n. now rewrite map_nth_seq.
Qed.

Lemma bwt_is_permutation_of_text_witness :
  Permutation (build_bwt_from_sa banana_text (build_sa_naive banana_text)) banana_text.
Proof.
  apply (bwt_is_permutation_of_text banana_text).
  vm_compute. reflexivity.
Defined.

(* ------------------------------------------------------------------ *)
(** ** FMIndex: the queries on any terminated text *)

Section Queries.

Variable T : list byte.
Variable params : FMIndex.BuildParams.
Variable idx : FMIndex.t.

Hypothesis Hterm : unique_terminator T.
Hypothesis Hn32 : (Z.of_nat (length T) < 2 ^ 32)%Z.
Hypothesis Hbuild : FMIndex.build_from_text T params = Some idx.

Let Hpos : 0 < length T := unique_terminator_pos T Hterm.
Let Hlast := proj2 Hterm.

Lemma built_is : 0 < FMIndex.ssa_stride params /\ idx = built_index T (FMIndex.ssa_stride params).
Proof. apply build_from_text_some, Hbuild. Qed.

Lemma lf_row i :
  i < length T ->
  FMIndex.LF idx i < length T
  /\ nth (FMIndex.LF idx i) (FMIndex.sa_ idx) 0
     = if nth i (FMIndex.sa_ idx) 0 =? 0 then length T - 1
       else nth i (FMIndex.sa_ idx) 0 - 1.
Proof.
  intros Hi. destruct built_is as [Hd ->].
  destruct (LF_spec T Hn32 Hpos Hlast _ Hd i Hi) as [Hlt HSA].
  split; [exact Hlt |].
  cbn [built_index FMIndex.sa_]. rewrite HSA.
  apply (prev_cases T Hn32 Hpos _ Hd i Hi).
Qed.

Lemma lf_beyond i : length T <= i -> FMIndex.LF idx i = 0.
Proof.
  intros Hi. destruct built_is as [Hd ->]. unfold FMIndex.LF.
  rewrite idx_bwt, bwt_length by exact Hn32.
  destruct (Nat.leb_spec (length T) i); [reflexivity | lia].
Qed.

Lemma count_is_range (P : list byte) :
  P <> [] ->
  match FMIndex.backward_search idx (rev P) 0 (length T) with
  | Some (sp, ep) =>
      rows_of T sp ep P
      /\ FMIndex.count idx P = ep - sp
      /\ forall limit,
           FMIndex.locate idx P limit
           = FMIndex.Positions
               (map (fun i => nth i (build_sa_naive T) 0) (seq sp (Nat.min (ep - sp) limit)))
  | None =>
      FMIndex.count idx P = 0
      /\ forall limit, FMIndex.locate idx P limit = FMIndex.Positions []
  end.
Proof.
  intros HP. destruct built_is as [Hd Hidx].
  pose proof (search_from_all T Hn32 Hpos Hlast _ Hd P) as Hs.
  rewrite <- Hidx in Hs.
  assert (Hmeta : FMIndex.meta_n idx = length T) by (rewrite Hidx; reflexivity).
  assert (HlenP : (length P =? 0) = false).
  { apply Nat.eqb_neq. destruct P; [contradiction | cbn [length]; lia]. }
  assert (Hn0 : (length T =? 0) = false) by (apply Nat.eqb_neq; lia).
  unfold FMIndex.count, FMIndex.locate. rewrite Hmeta, HlenP, Hn0. cbn [orb].
  destruct (FMIndex.backward_search idx (rev P) 0 (length T)) as [[sp ep]|].
  - split; [exact Hs |]. split; [reflexivity |].
    intros limit. destruct Hs as (Hle & Hep & _).
    rewrite Hidx.
    rewrite (locate_rows_spec T Hn32 Hpos Hlast _ Hd) by lia.
    cbn [app length]. now rewrite Nat.sub_0_r.
  - split; [reflexivity | intros; reflexivity].
Qed.

Lemma locate_any_limit (P : list byte) (limit : nat) :
  P <> [] ->
  exists ps,
    FMIndex.locate idx P limit = FMIndex.Positions ps
    /\ length ps = Nat.min (FMIndex.count idx P) limit
    /\ NoDup ps
    /\ forall q, In q ps -> q < length T /\ cmatch T P q = true.
Proof.
  intros HP. pose proof (count_is_range P HP) as H.
  destruct built_is as [Hd _].
  destruct (FMIndex.backward_search idx (rev P) 0 (length T)) as [[sp ep]|].
  - destruct H as (Hrows & Hcount & Hloc). destruct Hrows as (Hle & Hep & Hrows).
    eexists. split; [apply Hloc |]. rewrite Hcount.
    split; [now rewrite length_map, length_seq |].
    split.
    + apply NoDup_map_NoDup_ForallPairs; [| apply seq_NoDup].
      intros a b Ha Hb Hab. apply in_seq in Ha, Hb.
      apply (SA_inj T Hn32 a b); [lia | lia | exact Hab].
    + intros q Hq. apply in_map_iff in Hq. destruct Hq as (i & <- & Hi).
      apply in_seq in Hi.
      split; [apply (SA_lt T Hn32 Hpos); lia |].
      rewrite <- Hrows by lia.
      apply andb_true_iff. split; [apply Nat.leb_le | apply Nat.ltb_lt]; lia.
  - destruct H as [Hcount Hloc]. exists []. rewrite Hcount, Hloc.
    split; [reflexivity |]. split; [reflexivity |].
    split; [constructor | intros q []].
Qed.

End Queries.

(** X8: on the index of a text whose last byte is unique, [LF] takes the
    row of the suffix at [p] to the row of the suffix at [p - 1] (from
    [p = 0] to the row of the last suffix), and is 0 from row [n] on. *)
Theorem lf_steps_back_one_position
    (T : list byte) (params : FMIndex.BuildParams) (idx : FMIndex.t) (i : nat) :
  unique_terminator T ->
  (Z.of_nat (length T) < 2 ^ 32)%Z ->
  FMIndex.build_from_text T params = Some idx ->
  (i < length T ->
   FMIndex.LF idx i < length T
   /\ nth (FMIndex.LF idx i) (FMIndex.sa_ idx) 0
      = if nth i (FMIndex.sa_ idx) 0 =? 0 then length T - 1
        else nth i (FMIndex.sa_ idx) 0 - 1)
  /\ (length T <= i -> FMIndex.LF idx i = 0).
Proof.
  intros Hterm Hn Hbuild. split.
  - apply (lf_row T params idx Hterm Hn Hbuild).
  - apply (lf_beyond T params idx Hterm Hn Hbuild).
Qed.

Lemma lf_steps_back_one_position_witness :
  (2 < length tilde_text ->
   FMIndex.LF (built_index tilde_text 32) 2 < length tilde_text
   /\ nth (FMIndex.LF (built_index tilde_text 32) 2)
        (FMIndex.sa_ (built_index tilde_text 32)) 0
      = if nth 2 (FMIndex.sa_ (built_index tilde_text 32)) 0 =? 0
        then length tilde_text - 1
        else nth 2 (FMIndex.sa_ (built_index tilde_text 32)) 0 - 1)
  /\ (length tilde_text <= 2 -> FMIndex.LF (built_index tilde_text 32) 2 = 0).
Proof.
  apply (lf_steps_back_one_position tilde_text FMIndex.default_params).
  - exact tilde_text_terminated.
  - vm_compute. reflexivity.
  - reflexivity.
Defined.

(** X9: for a non-empty pattern, [count] is the number of positions of the
    text at which the pattern matches when the text is read cyclically
    (past its end, from its start again); it is at most [n]. *)
Theorem fm_count_counts_cyclic_matches
    (T P : list byte) (params : FMIndex.BuildParams) (idx : FMIndex.t) :
  unique_terminator T ->
  (Z.of_nat (length T) < 2 ^ 32)%Z ->
  FMIndex.build_from_text T params = Some idx ->
  P <> [] ->
  FMIndex.count idx P = length (filter (cmatch T P) (seq 0 (length T)))
  /\ FMIndex.count idx P <= length T.
Proof.
  intros Hterm Hn Hbuild HP.
  destruct (build_from_text_some T params idx Hbuild) as [Hd ->].
  rewrite (count_cyclic T Hn (unique_terminator_pos T Hterm) (proj2 Hterm) _ Hd P HP).
  split; [apply count_in_filter |].
  pose proof (count_in_le (cmatch T P) 0 (length T)). lia.
Qed.

Definition pattern_wrapping_to : list byte := ["~"; "t"; "o"]%byte.

Lemma fm_count_counts_cyclic_matches_witness :
  FMIndex.count (built_index tilde_text 32) pattern_wrapping_to
  = length (filter (cmatch tilde_text pattern_wrapping_to) (seq 0 (length tilde_text)))
  /\ FMIndex.count (built_index tilde_text 32) pattern_wrapping_to <= length tilde_text.
Proof.
  apply (fm_count_counts_cyclic_matches tilde_text pattern_wrapping_to FMIndex.default_params).
  - exact tilde_text_terminated.
  - vm_compute. reflexivity.
  - reflexivity.
  - discriminate.
Defined.

(** X10: for a non-empty pattern and any limit, [locate] returns
    [min(count, limit)] positions, no position twice, each one a position
    of the text at which the pattern matches cyclically. *)
Theorem fm_locate_respects_limit
    (T P : list byte) (params : FMIndex.BuildParams) (idx : FMIndex.t) (limit : nat) :
  unique_terminator T ->
  (Z.of_nat (length T) < 2 ^ 32)%Z ->
  FMIndex.build_from_text T params = Some idx ->
  P <> [] ->
  exists ps,
    FMIndex.locate idx P limit = FMIndex.Positions ps
    /\ length ps = Nat.min (FMIndex.count idx P) limit
    /\ NoDup ps
    /\ forall q, In q ps -> q < length T /\ cmatch T P q = true.
Proof.
  intros Hterm Hn Hbuild HP.
  exact (locate_any_limit T params idx Hterm Hn Hbuild P limit HP).
Qed.

Definition pattern_a : list byte := ["a"]%byte.

Lemma fm_locate_respects_limit_witness :
  exists ps,
    FMIndex.locate (built_index banana_text 32) pattern_a 2 = FMIndex.Positions ps
    /\ length ps = Nat.min (FMIndex.count (built_index banana_text 32) pattern_a) 2
    /\ NoDup ps
    /\ forall q, In q ps -> q < length banana_text /\ cmatch banana_text pattern_a q = true.
Proof.
  apply (fm_locate_respects_limit banana_text pattern_a FMIndex.default_params).
  - exact (sentinel_is_unique_terminator banana_text banana_sentinel).
  - vm_compute. reflexivity.
  - reflexivity.
  - discriminate.
Defined.

(* ------------------------------------------------------------------ *)
(** ** FMIndex: extract, and locate read back *)

Lemma extract_spec (idx : FMIndex.t) (p len : nat) :
  FMIndex.extract idx p len = firstn len (skipn p (FMIndex.text_ idx)).
Proof.
  unfold FMIndex.extract.
  destruct (Nat.leb_spec (length (FMIndex.text_ idx)) p) as [Hge | Hlt].
  - rewrite skipn_all2 by exact Hge. now rewrite firstn_nil.
  - destruct (Nat.le_gt_cases len (length (FMIndex.text_ idx) - p)) as [Hle | Hgt].
    + now rewrite Nat.min_l.
    + rewrite Nat.min_r by lia.
      rewrite !firstn_all2 by (rewrite length_skipn; lia). reflexivity.
Qed.

Lemma built_text T params idx :
  FMIndex.build_from_text T params = Some idx -> FMIndex.text_ idx = T.
Proof.
  intros H. destruct (build_from_text_some T params idx H) as [_ ->]. reflexivity.
Qed.

Lemma occurs_at_substring (T P : list byte) (q : nat) :
  occurs_at T P q = true -> firstn (length P) (skipn q T) = P.
Proof.
  unfold occurs_at. intros H. apply andb_true_iff in H. destruct H as [Hfit Hall].
  apply Nat.leb_le in Hfit. rewrite forallb_forall in Hall.
  apply (nth_ext _ _ x00 x00).
  - rewrite length_firstn, length_skipn. lia.
  - intros k Hk. rewrite length_firstn, length_skipn in Hk.
    rewrite nth_firstn.
    destruct (Nat.ltb_spec k (length P)); [| lia].
    rewrite nth_skipn. symmetry. apply byte_eqb_eq. apply Hall. apply in_seq. lia.
Qed.

(** X11: [extract] returns the bytes of the text from [p] on, at most [len]
    of them and none when [p] is past the end; reading [a + b] bytes is
    reading [a] and then [b], and reading [n] bytes from 0 is the text. *)
Theorem fm_extract_substring
    (T : list byte) (params : FMIndex.BuildParams) (idx : FMIndex.t) :
  FMIndex.build_from_text T params = Some idx ->
  (forall p len, FMIndex.extract idx p len = firstn len (skipn p T))
  /\ (forall p a b,
        FMIndex.extract idx p (a + b)
        = FMIndex.extract idx p a ++ FMIndex.extract idx (p + a) b)
  /\ FMIndex.extract idx 0 (length T) = T.
Proof.
  intros Hbuild. pose proof (built_text T params idx Hbuild) as Htext.
  split; [| split].
  - intros p len. now rewrite extract_spec, Htext.
  - intros p a b. rewrite !extract_spec, Htext.
    rewrite <- (firstn_skipn a (firstn (a + b) (skipn p T))) at 1.
    f_equal.
    + rewrite firstn_firstn. f_equal. lia.
    + rewrite skipn_firstn_comm, skipn_skipn. f_equal; [lia |]. f_equal. lia.
  - rewrite extract_spec, Htext. cbn [skipn]. apply firstn_all.
Qed.

Lemma fm_extract_substring_witness :
  (forall p len,
     FMIndex.extract (built_index banana_text 32) p len = firstn len (skipn p banana_text))
  /\ (forall p a b,
        FMIndex.extract (built_index banana_text 32) p (a + b)
        = FMIndex.extract (built_index banana_text 32) p a
          ++ FMIndex.extract (built_index banana_text 32) (p + a) b)
  /\ FMIndex.extract (built_index banana_text 32) 0 (length banana_text) = banana_text.
Proof.
  apply (fm_extract_substring banana_text FMIndex.default_params).
  reflexivity.
Defined.

(** X12: when the terminator occurs in the pattern at most as its last
    byte, every position that [locate] returns, read back with [extract]
    over the length of the pattern, gives the pattern. *)
Theorem fm_locate_extract_round_trip
    (T P : list byte) (params : FMIndex.BuildParams) (idx : FMIndex.t) (limit : nat) :
  unique_terminator T ->
  (Z.of_nat (length T) < 2 ^ 32)%Z ->
  FMIndex.build_from_text T params = Some idx ->
  P <> [] ->
  sentinel_only_last T P ->
  exists ps,
    FMIndex.locate idx P limit = FMIndex.Positions ps
    /\ forall q, In q ps -> FMIndex.extract idx q (length P) = P.
Proof.
  intros Hterm Hn Hbuild HP Hinner.
  destruct (locate_any_limit T params idx Hterm Hn Hbuild P limit HP)
    as (ps & Hloc & _ & _ & Hin).
  exists ps. split; [exact Hloc |].
  intros q Hq. destruct (Hin q Hq) as [Hlt Hm].
  rewrite extract_spec, (built_text T params idx Hbuild).
  apply occurs_at_substring.
  rewrite <- (cmatch_occurs T (unique_terminator_pos T Hterm) P q HP Hinner Hlt).
  exact Hm.
Qed.

Lemma fm_locate_extract_round_trip_witness :
  exists ps,
    FMIndex.locate (built_index banana_text 32) pattern_ana 1 = FMIndex.Positions ps
    /\ forall q, In q ps ->
         FMIndex.extract (built_index banana_text 32) q (length pattern_ana) = pattern_ana.
Proof.
  apply (fm_locate_extract_round_trip banana_text pattern_ana FMIndex.default_params).
  - exact (sentinel_is_unique_terminator banana_text banana_sentinel).
  - vm_compute. reflexivity.
  - reflexivity.
  - discriminate.
  - intros k Hk. cbn in Hk.
    do 2 (destruct k as [|k]; [vm_compute; discriminate |]). lia.
Defined.

(* ------------------------------------------------------------------ *)
(** ** FMIndex: the sampled suffix array *)

(** X13: the sampled suffix array of a built index keeps the stride, has
    [ceil(n / d)] samples, and its [k]-th sample is the suffix-array entry
    of row [k * d]. *)
Theorem ssa_samples_every_stride
    (T : list byte) (params : FMIndex.BuildParams) (idx : FMIndex.t) :
  (Z.of_nat (length T) < 2 ^ 32)%Z ->
  FMIndex.build_from_text T params = Some idx ->
  let d := FMIndex.ssa_stride params in
  FMIndex.stride (FMIndex.ssa_ idx) = d
  /\ length (FMIndex.samples (FMIndex.ssa_ idx)) = (length T + d - 1) / d
  /\ forall k, k * d < length T ->
       nth k (FMIndex.samples (FMIndex.ssa_ idx)) 0 = nth (k * d) (FMIndex.sa_ idx) 0.
Proof.
  intros Hn Hbuild. cbv zeta.
  destruct (build_from_text_some T params idx Hbuild) as [Hd ->].
  set (d := FMIndex.ssa_stride params) in *.
  split; [reflexivity |].
  destruct T as [|b T'] eqn:HT.
  - split; [| intros k Hk; cbn [length] in Hk; lia].
    cbn [built_index FMIndex.ssa_ FMIndex.samples FMIndex.build_ssa length build_sa_naive].
    unfold build_sa_naive, size32. cbn [length].
    change (Z.to_nat (u32 (Z.of_nat 0))) with 0. cbn [seq std_sort length].
    rewrite for_loop_empty by lia. rewrite repeat_length. reflexivity.
  - rewrite <- HT in *.
    assert (Hpos : 0 < length T) by (rewrite HT; cbn [length]; lia).
    destruct (ssa_samples_spec T Hn Hpos d Hd) as [Hlen Hnth].
    split; [exact Hlen |].
    intros k Hk. rewrite <- (Nat.div_mul k d) at 1 by lia.
    apply Hnth; [exact Hk | apply Nat.Div0.mod_mul].
Qed.

Lemma ssa_samples_every_stride_witness :
  let d := FMIndex.ssa_stride (FMIndex.mkParams 512 64 4) in
  FMIndex.stride (FMIndex.ssa_ (built_index banana_text 4)) = d
  /\ length (FMIndex.samples (FMIndex.ssa_ (built_index banana_text 4)))
     = (length banana_text + d - 1) / d
  /\ forall k, k * d < length banana_text ->
       nth k (FMIndex.samples (FMIndex.ssa_ (built_index banana_text 4))) 0
       = nth (k * d) (FMIndex.sa_ (built_index banana_text 4)) 0.
Proof.
  apply (ssa_samples_every_stride banana_text (FMIndex.mkParams 512 64 4)).
  - vm_compute. reflexivity.
  - reflexivity.
Defined.

(* ------------------------------------------------------------------ *)
(** ** SSA: looking a sample up *)

(** X14: on the sampled suffix array of a built index, [sample_at] at a row
    below [n] gives the suffix-array entry of the row when the row is a
    multiple of the stride, and raises its exception otherwise. *)
Theorem ssa_sample_at_row
    (T : list byte) (params : FMIndex.BuildParams) (idx : FMIndex.t) (i : nat) :
  (Z.of_nat (length T) < 2 ^ 32)%Z ->
  FMIndex.build_from_text T params = Some idx ->
  i < length T ->
  FMIndex.sample_at (FMIndex.ssa_ idx) i
  = Some (if i mod FMIndex.ssa_stride params =? 0
          then FMIndex.Sample (nth i (FMIndex.sa_ idx) 0)
          else FMIndex.Not_a_sample_index).
Proof.
  intros Hn Hbuild Hi.
  destruct (build_from_text_some T params idx Hbuild) as [Hd ->].
  set (d := FMIndex.ssa_stride params) in *.
  destruct (ssa_samples_spec T Hn ltac:(lia) d Hd) as [Hlen Hnth].
  unfold FMIndex.sample_at.
  change (FMIndex.stride (FMIndex.ssa_ (built_index T d))) with d.
  destruct (Nat.eqb_spec d 0); [lia |].
  destruct (Nat.eqb_spec (i mod d) 0) as [Hm | Hm]; cbn [negb]; [| reflexivity].
  rewrite Hlen, Hnth by assumption.
  assert (Hq : i / d < (length T + d - 1) / d).
  { pose proof (Nat.div_mod_eq i d) as Hdm.
    apply Nat.Div0.div_lt_upper_bound.
    pose proof (Nat.div_mod_eq (length T + d - 1) d) as Hdm'.
    pose proof (Nat.mod_upper_bound (length T + d - 1) d ltac:(lia)) as Hub.
    nia. }
  destruct (Nat.ltb_spec (i / d) ((length T + d - 1) / d)); [reflexivity | lia].
Qed.

Lemma ssa_sample_at_row_witness :
  FMIndex.sample_at (FMIndex.ssa_ (built_index banana_text 4)) 4
  = Some (if 4 mod FMIndex.ssa_stride (FMIndex.mkParams 512 64 4) =? 0
          then FMIndex.Sample (nth 4 (FMIndex.sa_ (built_index banana_text 4)) 0)
          else FMIndex.Not_a_sample_index).
Proof.
  apply (ssa_sample_at_row banana_text (FMIndex.mkParams 512 64 4)).
  - vm_compute. reflexivity.
  - reflexivity.
  - vm_compute. lia.
Defined.

(* ------------------------------------------------------------------ *)
(** ** BitvectorLearned: building from packed words *)

(** Bit [j] of packed words, 0 where the words end. *)
Definition word_bit (words : list Z) (j : nat) : bool :=
  (j / 64 <? length words) && Z.testbit (nth (j / 64) words 0%Z) (Z.of_nat (j mod 64)).

Lemma unpack_length words nbits : length (BitvectorLearned.unpack words nbits) = nbits.
Proof. unfold BitvectorLearned.unpack. now rewrite length_map, length_seq. Qed.

Lemma unpack_bit words nbits j :
  j < nbits -> bit_at (BitvectorLearned.unpack words nbits) j = word_bit words j.
Proof.
  intros Hj. unfold bit_at, BitvectorLearned.unpack, word_bit.
  rewrite nth_map_seq by exact Hj.
  rewrite land_one_testbit. unfold shr64.
  rewrite Z.shiftr_spec by lia. rewrite Z.add_0_l.
  destruct (j / 64 <? length words); cbn [andb]; [| reflexivity].
  destruct (Z.testbit (nth (j / 64) words 0%Z) (Z.of_nat (j mod 64))); reflexivity.
Qed.

Lemma unpack_count words nbits p :
  p <= nbits ->
  count_in (bit_at (BitvectorLearned.unpack words nbits)) 0 p
  = count_in (word_bit words) 0 p.
Proof.
  intros Hp. apply count_in_ext. intros j Hj. apply unpack_bit. lia.
Qed.

(** X15: [build_from_words] returns a learned bit-vector that ranks the
    bits of the words: [rank1(i)] is the number of set bits among the first
    [min(i, nbits)] bit positions of the words, positions past the words
    counting as 0.  The strides are positive, [S] a multiple of [s], the
    set bits among the first [nbits] positions fit 31 bits, and every
    residual of the build fits its [int32_t] cell: at each multiple [p] of
    [s] below [nbits], the prediction of the model fitted by the build, for
    the start of the coarse block of [p], is defined and within an
    [int32_t] of the number of set bits before [p]. *)
Theorem learned_build_from_words_rank (words : list Z) (nbits S s i : nat) :
  0 < s -> 0 < S -> S mod s = 0 ->
  (Z.of_nat (count_in (word_bit words) 0 nbits) < 2 ^ 31)%Z ->
  (forall p, p < nbits -> p mod s = 0 ->
     exists pred,
       PgmModel.predict (fitted (BitvectorLearned.unpack words nbits) S)
                        (u32 (Z.of_nat (p / S * S))) = Some pred
       /\ (- 2 ^ 31 <= Z.of_nat (count_in (word_bit words) 0 p) - pred < 2 ^ 31)%Z) ->
  exists bl,
    BitvectorLearned.build_from_words words nbits S s = Some bl
    /\ BitvectorLearned.rank1 bl i
       = Some (count_in (word_bit words) 0 (Nat.min i nbits)).
Proof.
  intros Hs HS Hmod Hn Hpred. unfold BitvectorLearned.build_from_words.
  set (bits := BitvectorLearned.unpack words nbits) in *.
  assert (Hlen : length bits = nbits) by apply unpack_length.
  destruct (learned_rank1_spec bits S s i Hs HS Hmod) as (bl & Hbuild & Hrank).
  - rewrite Hlen. unfold bits. rewrite unpack_count by lia. exact Hn.
  - intros p Hp Hps. rewrite Hlen in Hp.
    destruct (Hpred p Hp Hps) as (pred & Hpr & Hb).
    exists pred. split; [exact Hpr |].
    unfold bits. rewrite unpack_count by lia. exact Hb.
  - exists bl. split; [exact Hbuild |]. rewrite Hrank. f_equal.
    rewrite count_in_clip, Hlen. unfold bits. apply unpack_count. lia.
Qed.

(** One word of 64 set bits, read over 70 positions: the last six lie past
    the words. *)
Definition dense_words_example : list Z := [18446744073709551615%Z].

Lemma learned_build_from_words_rank_witness :
  exists bl,
    BitvectorLearned.build_from_words dense_words_example 70 16 8 = Some bl
    /\ BitvectorLearned.rank1 bl 67
       = Some (count_in (word_bit dense_words_example) 0 (Nat.min 67 70)).
Proof.
  apply (learned_build_from_words_rank dense_words_example 70 16 8 67).
  - lia.
  - lia.
  - reflexivity.
  - vm_compute. reflexivity.
  - intros p Hp Hps.
    destruct (residuals_fit_checked (BitvectorLearned.unpack dense_words_example 70) 16 8
                ltac:(vm_compute; reflexivity) p
                ltac:(rewrite unpack_length; exact Hp) Hps) as (pred & Hpr & Hb).
    exists pred. split; [exact Hpr |].
    rewrite unpack_count in Hb by lia. exact Hb.
Defined.

(* ------------------------------------------------------------------ *)
(** ** WaveletLevel: the tail popcount *)

Lemma wavelet_level_pack bits :
  (Z.of_nat (length bits) + 63 < 2 ^ 32)%Z ->
  WaveletLevel.pack_bits bits = BitVector.pack bits.
Proof.
  intros H. unfold WaveletLevel.pack_bits, BitVector.pack.
  rewrite size32_small by lia. unfold u32.
  rewrite Z.mod_small by lia.
  replace (Z.to_nat (Z.of_nat (length bits) + 63)) with (length bits + 63) by lia.
  reflexivity.
Qed.

Lemma shl64_testbit x (t k : nat) :
  Z.testbit (shl64 x t) (Z.of_nat k)
  = (k <? 64) && (t <=? k) && Z.testbit x (Z.of_nat (k - t)).
Proof.
  unfold shl64. rewrite u64_testbit, Z.shiftl_spec by lia.
  destruct (Nat.leb_spec t k) as [Hle | Hlt].
  - replace (Z.of_nat k - Z.of_nat t)%Z with (Z.of_nat (k - t)) by lia.
    now rewrite andb_true_r.
  - rewrite Z.testbit_neg_r by lia. now rewrite andb_false_r.
Qed.

Lemma tail_mask_testbit (len j : nat) :
  len <= 64 ->
  Z.testbit (if len =? 64 then ALL_ONES else (shl64 1 len - 1)%Z) (Z.of_nat j) = (j <? len).
Proof.
  intros Hlen. destruct (Nat.eqb_spec len 64) as [-> | Hne].
  - apply ALL_ONES_testbit.
  - apply low_mask_testbit. lia.
Qed.

Lemma popcount_tail_spec bits bitpos len :
  (Z.of_nat (length bits) + 63 < 2 ^ 32)%Z ->
  len <= 64 ->
  bitpos + len <= length bits ->
  WaveletLevel.popcount_tail (WaveletLevel.pack_bits bits) bitpos len
  = Some (count_in (bit_at bits) bitpos (bitpos + len)).
Proof.
  intros Hn Hlen Hend. rewrite wavelet_level_pack by exact Hn.
  unfold WaveletLevel.popcount_tail.
  destruct (Nat.eqb_spec len 0) as [-> | Hl0].
  { rewrite count_in_empty by lia. reflexivity. }
  cbv zeta. rewrite pack_length.
  pose proof (Nat.div_mod_eq bitpos 64) as Hdm.
  pose proof (Nat.mod_upper_bound bitpos 64 ltac:(lia)) as Hm.
  set (w := bitpos / 64) in *. set (offset := bitpos mod 64) in *.
  assert (Hw : w < (length bits + 63) / 64) by (apply div64_lt; lia).
  destruct (Nat.leb_spec ((length bits + 63) / 64) w); [lia |].
  unfold u32. rewrite Z.mod_small by lia.
  destruct (Z.leb_spec (Z.of_nat (offset + len)) 64) as [Hfit | Hcross].
  - destruct (Nat.ltb_spec 64 len); [lia |]. f_equal.
    rewrite (popcount_window bits w _ bitpos (bitpos + len)).
    + f_equal; lia.
    + intros k. rewrite Z.land_spec, pack_testbit, shl64_testbit, tail_mask_testbit by lia.
      destruct (bit_at bits (w * 64 + k)); nat_cases.
  - assert (Hw2 : w + 1 < (length bits + 63) / 64).
    { replace (w + 1) with ((bitpos + len - 1) / 64).
      - apply div64_lt. lia.
      - symmetry. apply (Nat.div_unique _ 64 _ (offset + len - 1 - 64)); lia. }
    destruct (Nat.leb_spec ((length bits + 63) / 64) (w + 1)); [lia |].
    destruct (Nat.ltb_spec 64 (len - (64 - offset))); [lia |]. f_equal.
    rewrite (popcount_window bits w _ bitpos (bitpos + len)).
    + rewrite (popcount_window bits (w + 1) _ bitpos (bitpos + len)).
      * rewrite (count_in_split _ bitpos (w * 64 + 64) (bitpos + len)) by lia.
        f_equal; f_equal; lia.
      * intros k. rewrite Z.land_spec, pack_testbit, tail_mask_testbit by lia.
        destruct (bit_at bits ((w + 1) * 64 + k)); nat_cases.
    + intros k. rewrite Z.land_spec, pack_testbit, shl_ones_testbit.
      destruct (bit_at bits (w * 64 + k)); nat_cases.
Qed.

(** X16: over the words that [build] packs, [popcount_tail(bitpos, len)]
    with [len] up to 64 is the number of set bits of the input at the
    positions [bitpos .. bitpos + len - 1], whether or not they lie in one
    word. *)
Theorem wavelet_level_popcount_tail (bits : list Z) (bitpos len : nat) :
  (Z.of_nat (length bits) + 63 < 2 ^ 32)%Z ->
  len <= 64 ->
  bitpos + len <= length bits ->
  WaveletLevel.popcount_tail (WaveletLevel.pack_bits bits) bitpos len
  = Some (length (filter BitVector.truthy (firstn len (skipn bitpos bits)))).
Proof.
  intros Hn Hlen Hend. rewrite popcount_tail_spec by assumption. f_equal.
  change (length (filter BitVector.truthy (firstn len (skipn bitpos bits))))
    with (naive_rank (skipn bitpos bits) len).
  rewrite naive_rank_count.
  replace (count_in (bit_at bits) bitpos (bitpos + len))
    with (count_in (bit_at bits) (bitpos + 0) (bitpos + len)) by (f_equal; lia).
  rewrite <- (count_in_shift (bit_at bits) bitpos 0 len).
  apply count_in_ext. intros k _. unfold bit_at. now rewrite nth_skipn.
Qed.

Lemma wavelet_level_popcount_tail_witness :
  WaveletLevel.popcount_tail (WaveletLevel.pack_bits (repeat 1%Z 70 ++ learned_bits_example)) 60 20
  = Some (length (filter BitVector.truthy
                    (firstn 20 (skipn 60 (repeat 1%Z 70 ++ learned_bits_example))))).
Proof.
  apply (wavelet_level_popcount_tail (repeat 1%Z 70 ++ learned_bits_example) 60 20).
  - vm_compute. reflexivity.
  - lia.
  - vm_compute. lia.
Defined.

(* ------------------------------------------------------------------ *)
(** ** VebLayout: the order and the place of the levels *)

Lemma append_loop lo hi (acc : list nat) :
  lo <= hi ->
  for_loop lo hi (fun i order => order ++ [i]) acc = acc ++ seq lo (hi - lo).
Proof.
  intros Hle.
  apply (for_loop_inv (fun i order => order = acc ++ seq lo (i - lo))); [exact Hle | |].
  - rewrite Nat.sub_diag. cbn [seq]. now rewrite app_nil_r.
  - intros i order Hi ->. replace (Datatypes.S i - lo) with (Datatypes.S (i - lo)) by lia.
    rewrite seq_S, app_assoc. do 2 f_equal. lia.
Qed.

Lemma compute_veb_order_seq (start_level num_bottom_levels : nat) :
  VebLayout.compute_veb_order start_level num_bottom_levels = seq 0 num_bottom_levels.
Proof.
  unfold VebLayout.compute_veb_order.
  destruct (Nat.eqb_spec num_bottom_levels 0) as [-> | H0]; [reflexivity |].
  destruct (Nat.eqb_spec num_bottom_levels 1) as [-> | H1]; [reflexivity |].
  cbv zeta.
  pose proof (Nat.Div0.div_le_upper_bound num_bottom_levels 2 num_bottom_levels ltac:(lia)) as Hmid.
  rewrite !append_loop by lia. cbn [app].
  rewrite Nat.sub_0_r.
  assert (H : seq 0 num_bottom_levels
              = seq 0 (num_bottom_levels / 2 + (num_bottom_levels - num_bottom_levels / 2)))
    by (f_equal; lia).
  rewrite H, seq_app. reflexivity.
Qed.

(** X17: the order computed for the bottom levels is the increasing order
    [0, 1, ..., k-1], whatever the start level: the bottom levels are laid
    out in the order of their indices. *)
Theorem veb_order_is_increasing (start_level num_bottom_levels : nat) :
  VebLayout.compute_veb_order start_level num_bottom_levels = seq 0 num_bottom_levels.
Proof. apply compute_veb_order_seq. Qed.

(** The bytes that [serialize_bitvector] appends for one bit-vector. *)
Definition serialized (bv : BitVector.t) : list Z := VebLayout.serialize_bitvector bv [].

Lemma serialize_appends bv out :
  VebLayout.serialize_bitvector bv out = out ++ serialized bv.
Proof.
  unfold serialized, VebLayout.serialize_bitvector. cbn [app].
  now rewrite <- !app_assoc.
Qed.

Lemma pad_appends packed :
  exists k, VebLayout.pad_to_macroblock packed = packed ++ repeat 0%Z k.
Proof.
  unfold VebLayout.pad_to_macroblock.
  destruct (negb _).
  - eexists. reflexivity.
  - exists 0. cbn [repeat]. now rewrite app_nil_r.
Qed.

(** [s] stands in [packed] at offset [o]. *)
Definition placed (packed : list Z) (o : nat) (s : list Z) : Prop :=
  exists pre post, packed = pre ++ s ++ post /\ length pre = o.

Lemma placed_app packed o s extra : placed packed o s -> placed (packed ++ extra) o s.
Proof.
  intros (pre & post & -> & Hlen). exists pre, (post ++ extra).
  split; [now rewrite <- !app_assoc | exact Hlen].
Qed.

Lemma placed_end packed o s : placed packed o s -> o + length s <= length packed.
Proof.
  intros (pre & post & -> & Hlen). rewrite !length_app. lia.
Qed.

Lemma placed_read packed o s :
  placed packed o s -> firstn (length s) (skipn o packed) = s.
Proof.
  intros (pre & post & -> & <-).
  rewrite skipn_app, skipn_all, Nat.sub_diag. cbn [skipn app].
  rewrite firstn_app, firstn_all, Nat.sub_diag. cbn [firstn]. apply app_nil_r.
Qed.

Section Layout.

Variable levels : list BitVector.t.

Let ser (l : nat) : list Z := serialized (nth l levels BitVector.empty).

(** Levels [0 .. i-1] stand in the buffer at their offsets, one after the
    other. *)
Definition laid_out (i : nat) (st : list nat * list Z) : Prop :=
  length (fst st) = length levels
  /\ (forall l, l < i -> placed (snd st) (nth l (fst st) 0) (ser l))
  /\ (forall l l', l < l' -> l' < i ->
        nth l (fst st) 0 + length (ser l) <= nth l' (fst st) 0).

Lemma laid_out_step i offsets packed gap :
  i < length levels ->
  laid_out i (offsets, packed) ->
  laid_out (Datatypes.S i)
    (vec_set i (length (packed ++ gap)) offsets,
     VebLayout.serialize_bitvector (nth i levels BitVector.empty) (packed ++ gap)).
Proof.
  intros Hi (Hlen & Hplaced & Hord). cbn [fst snd] in *.
  unfold laid_out. cbn [fst snd]. rewrite serialize_appends.
  split; [now rewrite vec_set_length |].
  assert (Hnth : forall l, l < i -> nth l (vec_set i (length (packed ++ gap)) offsets) 0
                                    = nth l offsets 0).
  { intros l Hl. rewrite vec_set_nth.
    destruct (Nat.eqb_spec l i); [lia | reflexivity]. }
  assert (Hnew : nth i (vec_set i (length (packed ++ gap)) offsets) 0 = length (packed ++ gap)).
  { rewrite vec_set_nth, Nat.eqb_refl.
    destruct (Nat.ltb_spec i (length offsets)); [reflexivity | lia]. }
  split.
  - intros l Hl. destruct (Nat.eq_dec l i) as [-> | Hne].
    + rewrite Hnew. exists (packed ++ gap), [].
      split; [now rewrite app_nil_r | reflexivity].
    + rewrite Hnth by lia. do 2 apply placed_app. apply Hplaced. lia.
  - intros l l' Hll Hl'. rewrite (Hnth l) by lia.
    destruct (Nat.eq_dec l' i) as [-> | Hne].
    + rewrite Hnew. pose proof (placed_end _ _ _ (Hplaced l ltac:(lia))).
      rewrite length_app. lia.
    + rewrite Hnth by lia. apply Hord; lia.
Qed.

Lemma laid_out_top top :
  top <= length levels ->
  laid_out top
    (for_loop 0 top (VebLayout.place_top_level levels) (repeat 0 (length levels), [])).
Proof.
  intros Htop. apply (for_loop_inv laid_out); [lia | |].
  - split; [apply repeat_length |]. split; intros; lia.
  - intros i [offsets packed] Hi Hinv.
    unfold VebLayout.place_top_level.
    rewrite <- (app_nil_r packed) at 1 2.
    apply laid_out_step; [lia | exact Hinv].
Qed.

Lemma laid_out_bottom top m :
  forall a st,
    top + a + m <= length levels ->
    laid_out (top + a) st ->
    laid_out (top + a + m)
      (fold_left (VebLayout.place_bottom_level levels top) (seq a m) st).
Proof.
  induction m as [|m IH]; intros a st Hle Hinv; cbn [seq fold_left].
  - now rewrite Nat.add_0_r.
  - replace (top + a + Datatypes.S m) with (top + Datatypes.S a + m) by lia.
    apply IH; [lia |].
    destruct st as [offsets packed]. unfold VebLayout.place_bottom_level.
    destruct (pad_appends packed) as [k ->].
    replace (top + Datatypes.S a) with (Datatypes.S (top + a)) by lia.
    apply laid_out_step; [lia | exact Hinv].
Qed.

Lemma laid_out_build top_k :
  let v := VebLayout.build levels top_k in
  laid_out (length levels) (VebLayout.level_offsets_ v, VebLayout.packed_data_ v).
Proof.
  cbv zeta. unfold VebLayout.build.
  set (top := Nat.min top_k (length levels)).
  pose proof (laid_out_top top ltac:(lia)) as Htop.
  destruct (for_loop 0 top _ (repeat 0 (length levels), [])) as [offsets packed].
  assert (Hbottom : laid_out (length levels)
            (if 0 <? length levels - top
             then fold_left (VebLayout.place_bottom_level levels top)
                    (VebLayout.compute_veb_order top (length levels - top)) (offsets, packed)
             else (offsets, packed))).
  { destruct (Nat.ltb_spec 0 (length levels - top)) as [Hlt | Hge].
    - rewrite compute_veb_order_seq.
      replace (length levels) with (top + 0 + (length levels - top)) at 1 by lia.
      apply laid_out_bottom; [lia |]. now rewrite Nat.add_0_r.
    - replace (length levels) with top by lia. exact Htop. }
  destruct (if 0 <? length levels - top then _ else _) as [offsets' packed'].
  cbn [VebLayout.level_offsets_ VebLayout.packed_data_].
  destruct Hbottom as (Hlen & Hplaced & Hord). cbn [fst snd] in *.
  split; [exact Hlen |]. cbn [fst snd]. split; [| exact Hord].
  intros l Hl. destruct (pad_appends packed') as [k ->].
  apply placed_app. now apply Hplaced.
Qed.

End Layout.

(** X18: after [build], every level is found in the packed buffer at the
    offset [get_level_offset] reports, as the bytes [serialize_bitvector]
    writes for it, and the levels follow one another in the order of their
    indices without overlap. *)
Theorem veb_levels_stand_at_their_offsets (levels : list BitVector.t) (top_k : nat) :
  let v := VebLayout.build levels top_k in
  let ser l := VebLayout.serialize_bitvector (nth l levels BitVector.empty) [] in
  (forall l, l < length levels ->
     firstn (length (ser l))
       (skipn (VebLayout.get_level_offset v l) (VebLayout.packed_data_ v))
     = ser l)
  /\ (forall l l', l < l' -> l' < length levels ->
        VebLayout.get_level_offset v l + length (ser l)
        <= VebLayout.get_level_offset v l')
  /\ (forall l, length levels <= l -> VebLayout.get_level_offset v l = 0).
Proof.
  cbv zeta.
  destruct (laid_out_build levels top_k) as (Hlen & Hplaced & Hord).
  cbn [fst snd] in *.
  assert (Hoff : forall l, l < length levels ->
            VebLayout.get_level_offset (VebLayout.build levels top_k) l
            = nth l (VebLayout.level_offsets_ (VebLayout.build levels top_k)) 0).
  { intros l Hl. unfold VebLayout.get_level_offset. rewrite Hlen.
    destruct (Nat.ltb_spec l (length levels)); [reflexivity | lia]. }
  split; [| split].
  - intros l Hl. rewrite Hoff by exact Hl.
    apply placed_read. now apply Hplaced.
  - intros l l' Hll Hl'. rewrite !Hoff by lia. now apply Hord.
  - intros l Hl. unfold VebLayout.get_level_offset. rewrite Hlen.
    destruct (Nat.ltb_spec l (length levels)); [lia | reflexivity].
Qed.

(* ------------------------------------------------------------------ *)
(** ** IndexWriter: what the calls do to the file *)

(** X19: [align_to] returns exactly when the offset is already a multiple
    of the alignment, and then leaves the writer as it was: its padding
    loop, once entered, does not end. *)
Theorem align_to_returns_only_when_aligned
    (fuel alignment : nat) (w : IndexWriter.t) :
  0 < alignment ->
  IndexWriter.align_to fuel alignment w
  = if IndexWriter.current_offset_ w mod alignment =? 0 then Some w else None.
Proof. apply align_to_spec. Qed.

Lemma align_to_returns_only_when_aligned_witness :
  IndexWriter.align_to 1000 8 (IndexWriter.write_raw [1%Z; 2%Z; 3%Z] IndexWriter.create)
  = if IndexWriter.current_offset_
         (IndexWriter.write_raw [1%Z; 2%Z; 3%Z] IndexWriter.create) mod 8 =? 0
    then Some (IndexWriter.write_raw [1%Z; 2%Z; 3%Z] IndexWriter.create) else None.
Proof.
  apply (align_to_returns_only_when_aligned 1000 8). lia.
Defined.

Lemma write_ssa_never_returns_aux fuel ssa_samples stride w :
  IndexWriter.write_ssa fuel ssa_samples stride w = None.
Proof.
  unfold IndexWriter.write_ssa.
  rewrite align_to_spec by lia.
  destruct (Nat.eqb_spec (IndexWriter.current_offset_ w mod 8) 0) as [H0 | Hne];
    [| reflexivity].
  cbv zeta. rewrite align_to_spec by lia.
  unfold IndexWriter.write_raw, IndexWriter.set_offset.
  cbn [IndexWriter.current_offset_]. rewrite le_bytes_length.
  destruct (Nat.eqb_spec ((IndexWriter.current_offset_ w + 4) mod 8) 0) as [H4 | H4];
    [lia | reflexivity].
Qed.

(** X20: [write_ssa] does not return, whatever the writer and the samples:
    after the 4-byte stride the offset is 4 past a multiple of 8, and the
    padding that [align_to] then starts does not end. *)
Theorem write_ssa_never_returns
    (fuel : nat) (ssa_samples : list Z) (stride : Z) (w : IndexWriter.t) :
  IndexWriter.write_ssa fuel ssa_samples stride w = None.
Proof. apply write_ssa_never_returns_aux. Qed.

(** The bytes of the file up to the put position, the gap that a seek past
    the end leaves being zero bytes. *)
Definition content (f : Ofstream.t) : list Z :=
  Ofstream.data f ++ repeat 0%Z (Ofstream.put f - length (Ofstream.data f)).

(** The put position is the writer's offset, at the end of the file or
    past it. *)
Definition at_end (w : IndexWriter.t) : Prop :=
  Ofstream.put (IndexWriter.file_ w) = IndexWriter.current_offset_ w
  /\ length (Ofstream.data (IndexWriter.file_ w)) <= Ofstream.put (IndexWriter.file_ w).

Lemma content_length w :
  at_end w -> length (content (IndexWriter.file_ w)) = IndexWriter.current_offset_ w.
Proof.
  intros [Hput Hlen]. unfold content. rewrite length_app, repeat_length. lia.
Qed.

Lemma write_raw_at_end bytes w :
  at_end w ->
  at_end (IndexWriter.write_raw bytes w)
  /\ Ofstream.data (IndexWriter.file_ (IndexWriter.write_raw bytes w))
     = content (IndexWriter.file_ w) ++ bytes
  /\ content (IndexWriter.file_ (IndexWriter.write_raw bytes w))
     = content (IndexWriter.file_ w) ++ bytes.
Proof.
  intros [Hput Hlen].
  assert (Hdata : Ofstream.data (IndexWriter.file_ (IndexWriter.write_raw bytes w))
                  = content (IndexWriter.file_ w) ++ bytes).
  { unfold IndexWriter.write_raw, Ofstream.write, content.
    cbn [IndexWriter.file_ Ofstream.data].
    rewrite firstn_all2 by (rewrite length_app, repeat_length; lia).
    rewrite skipn_all2 by lia. now rewrite app_nil_r. }
  assert (Hput' : Ofstream.put (IndexWriter.file_ (IndexWriter.write_raw bytes w))
                  = length (Ofstream.data (IndexWriter.file_ (IndexWriter.write_raw bytes w)))).
  { rewrite Hdata, length_app. unfold content. rewrite length_app, repeat_length.
    cbn [IndexWriter.write_raw IndexWriter.file_ Ofstream.write Ofstream.put]. lia. }
  split; [| split; [exact Hdata |]].
  - split; [| lia].
    cbn [IndexWriter.write_raw IndexWriter.file_ IndexWriter.current_offset_
         Ofstream.write Ofstream.put]. lia.
  - unfold content at 1. rewrite <- Hput', Nat.sub_diag. cbn [repeat].
    now rewrite app_nil_r.
Qed.

(** What a writer is after a call: where it writes, what the file holds,
    and the header. *)
Definition becomes (w' : IndexWriter.t) (bytes : list Z) (h : IndexWriter.IndexHeader)
    (w : IndexWriter.t) : Prop :=
  at_end w'
  /\ content (IndexWriter.file_ w') = content (IndexWriter.file_ w) ++ bytes
  /\ IndexWriter.current_offset_ w' = IndexWriter.current_offset_ w + length bytes
  /\ IndexWriter.header_ w' = h.

Lemma becomes_refl w : at_end w -> becomes w [] (IndexWriter.header_ w) w.
Proof.
  intros H. split; [exact H |]. split; [now rewrite app_nil_r |].
  split; [cbn [length]; lia | reflexivity].
Qed.

Lemma becomes_write_raw w1 bytes h w extra :
  becomes w1 bytes h w ->
  becomes (IndexWriter.write_raw extra w1) (bytes ++ extra) h w.
Proof.
  intros (Hend & Hcont & Hcur & Hhdr).
  destruct (write_raw_at_end extra w1 Hend) as (Hend' & _ & Hcont').
  split; [exact Hend' |].
  split; [now rewrite Hcont', Hcont, app_assoc |].
  split; [| exact Hhdr].
  cbn [IndexWriter.write_raw IndexWriter.current_offset_]. rewrite length_app. lia.
Qed.

(** The bytes of [write_array<T>]: the count, then the elements. *)
Definition array_bytes (width : nat) (vec : list Z) : list Z :=
  le_bytes 8 (Z.of_nat (length vec)) ++ flat_map (le_bytes width) vec.

Lemma becomes_write_array w1 bytes h w width vec :
  becomes w1 bytes h w ->
  becomes (IndexWriter.write_array width vec w1) (bytes ++ array_bytes width vec) h w.
Proof.
  intros H. unfold IndexWriter.write_array, array_bytes. cbv zeta.
  rewrite app_assoc.
  destruct (Nat.ltb_spec 0 (length vec)) as [Hpos | H0].
  - now do 2 apply becomes_write_raw.
  - assert (vec = []) as -> by (destruct vec; [reflexivity | cbn [length] in H0; lia]).
    cbn [flat_map]. rewrite app_nil_r. now apply becomes_write_raw.
Qed.

(** The header after the offset of [section] is set to [o]. *)
Definition with_offset (section o : nat) (h : IndexWriter.IndexHeader) : IndexWriter.IndexHeader :=
  IndexWriter.mkHeader (IndexWriter.magic h) (IndexWriter.version h) (IndexWriter.reserved1 h)
    (IndexWriter.flags h) (IndexWriter.text_len h) (vec_set section o (IndexWriter.offsets h)).

Lemma becomes_set_offset section w :
  at_end w ->
  becomes (IndexWriter.set_offset section w) []
    (with_offset section (IndexWriter.current_offset_ w) (IndexWriter.header_ w)) w.
Proof.
  intros H. split; [exact H |]. split; [now rewrite app_nil_r |].
  split; [cbn [length IndexWriter.set_offset IndexWriter.current_offset_]; lia | reflexivity].
Qed.

(** The header slot a call fills. *)
Definition slot (c : IndexWriter.call) : nat :=
  match c with
  | IndexWriter.Write_header _ _ => IndexWriter.SECTION_HEADER
  | IndexWriter.Write_text _ => IndexWriter.SECTION_TEXT
  | IndexWriter.Write_bwt _ => IndexWriter.SECTION_BWT
  | IndexWriter.Write_c_array _ => IndexWriter.SECTION_C_ARRAY
  | IndexWriter.Write_ssa _ _ => IndexWriter.SECTION_SSA
  | IndexWriter.Write_wavelet _ _ _ _ => IndexWriter.SECTION_WAVELET
  | IndexWriter.Write_veb_layout _ => IndexWriter.SECTION_VEB_LAYOUT
  end.

(** The bytes a call appends to the file when it returns. *)
Definition payload (c : IndexWriter.call) : list Z :=
  match c with
  | IndexWriter.Write_header _ _ => []
  | IndexWriter.Write_text text =>
      le_bytes 8 (Z.of_nat (length text)) ++ map byte_val text
  | IndexWriter.Write_bwt bwt => array_bytes 1 bwt
  | IndexWriter.Write_c_array c_array => array_bytes 4 c_array
  | IndexWriter.Write_ssa _ _ => []
  | IndexWriter.Write_wavelet bits_data super_data sub_data num_levels =>
      le_bytes 8 (Z.of_nat num_levels) ++ array_bytes 8 bits_data
      ++ array_bytes 4 super_data ++ array_bytes 2 sub_data
  | IndexWriter.Write_veb_layout None => []
  | IndexWriter.Write_veb_layout (Some veb) =>
      match veb with
      | [] => []
      | _ :: _ => le_bytes 8 (Z.of_nat (length veb)) ++ veb
      end
  end.

(** The header after a call that returns. *)
Definition header_after (c : IndexWriter.call) (w : IndexWriter.t) : IndexWriter.IndexHeader :=
  let h := IndexWriter.header_ w in
  match c with
  | IndexWriter.Write_header flags' text_len' =>
      IndexWriter.mkHeader (IndexWriter.magic h) (IndexWriter.version h)
        (IndexWriter.reserved1 h) flags' text_len'
        (vec_set IndexWriter.SECTION_HEADER 0 (IndexWriter.offsets h))
  | _ =>
      with_offset (slot c)
        (match payload c with
         | [] => 0
         | _ :: _ => IndexWriter.current_offset_ w
         end) h
  end.

Lemma le_bytes_8_cons z : exists b rest, le_bytes 8 z = b :: rest.
Proof. cbn [le_bytes]. eexists. eexists. reflexivity. Qed.

Lemma perform_becomes fuel c w w' :
  at_end w ->
  IndexWriter.perform fuel c w = Some w' ->
  becomes w' (payload c) (header_after c w) w
  /\ (payload c <> [] ->
      IndexWriter.current_offset_ w mod 8 = 0).
Proof.
  intros Hend Hc. destruct c; cbn [IndexWriter.perform] in Hc.
  - injection Hc as <-. split; [| intros H; now elim H].
    split; [exact Hend |]. split; [now rewrite app_nil_r |].
    split; [cbn [length IndexWriter.write_header IndexWriter.current_offset_ payload]; lia
           | reflexivity].
  - unfold IndexWriter.write_text in Hc. aligned_case Hc. injection Hc as <-.
    split; [| intros _; exact Halign].
    cbn [payload header_after slot].
    destruct (le_bytes_8_cons (Z.of_nat (length text))) as (b & rest & Hb).
    rewrite Hb at 2. cbn [app].
    apply (becomes_write_raw _ (le_bytes 8 (Z.of_nat (length text)))).
    apply (becomes_write_raw _ []). now apply becomes_set_offset.
  - unfold IndexWriter.write_bwt in Hc. aligned_case Hc. injection Hc as <-.
    split; [| intros _; exact Halign].
    cbn [payload header_after slot]. unfold array_bytes at 2.
    destruct (le_bytes_8_cons (Z.of_nat (length bwt))) as (b & rest & Hb).
    rewrite Hb. cbn [app].
    apply (becomes_write_array _ []). now apply becomes_set_offset.
  - unfold IndexWriter.write_c_array in Hc. aligned_case Hc. injection Hc as <-.
    split; [| intros _; exact Halign].
    cbn [payload header_after slot]. unfold array_bytes at 2.
    destruct (le_bytes_8_cons (Z.of_nat (length c_array))) as (b & rest & Hb).
    rewrite Hb. cbn [app].
    apply (becomes_write_array _ []). now apply becomes_set_offset.
  - now rewrite write_ssa_never_returns_aux in Hc.
  - unfold IndexWriter.write_wavelet in Hc. aligned_case Hc. injection Hc as <-.
    split; [| intros _; exact Halign].
    cbn [payload header_after slot].
    destruct (le_bytes_8_cons (Z.of_nat num_levels)) as (b & rest & Hb).
    rewrite Hb at 2. cbn [app].
    rewrite !app_assoc.
    do 3 apply becomes_write_array.
    apply (becomes_write_raw _ []). now apply becomes_set_offset.
  - unfold IndexWriter.write_veb_layout in Hc.
    destruct veb_data as [[|b veb]|].
    + injection Hc as <-. split; [| intros H; now elim H].
      split; [exact Hend |]. split; [now rewrite app_nil_r |].
      split; [cbn [length payload IndexWriter.current_offset_]; lia | reflexivity].
    + aligned_case Hc. injection Hc as <-.
      split; [| intros _; lia].
      cbn [payload header_after slot].
      destruct (le_bytes_8_cons (Z.of_nat (length (b :: veb)))) as (b' & rest & Hb).
      rewrite Hb at 2. cbn [app].
      apply (becomes_write_raw _ (le_bytes 8 (Z.of_nat (length (b :: veb))))).
      apply (becomes_write_raw _ []). now apply becomes_set_offset.
    + injection Hc as <-. split; [| intros H; now elim H].
      split; [exact Hend |]. split; [now rewrite app_nil_r |].
      split; [cbn [length payload IndexWriter.current_offset_]; lia | reflexivity].
Qed.

(** The header of a writer in use: the magic and the version of the
    constructor, eight offsets, none of them past the writer's offset. *)
Definition header_ok (w : IndexWriter.t) : Prop :=
  IndexWriter.magic (IndexWriter.header_ w) = IndexWriter.INDEX_MAGIC ++ [0; 0; 0]%Z
  /\ IndexWriter.version (IndexWriter.header_ w) = IndexWriter.INDEX_VERSION
  /\ length (IndexWriter.offsets (IndexWriter.header_ w)) = IndexWriter.NUM_SECTIONS
  /\ IndexWriter.sizeof_IndexHeader <= IndexWriter.current_offset_ w
  /\ forall k, nth k (IndexWriter.offsets (IndexWriter.header_ w)) 0
               <= IndexWriter.current_offset_ w.

Lemma create_at_end : at_end IndexWriter.create /\ header_ok IndexWriter.create.
Proof.
  split; [split; cbn; lia |].
  split; [reflexivity |]. split; [reflexivity |]. split; [reflexivity |].
  split; [apply Nat.le_refl |].
  intros k. cbn [IndexWriter.create IndexWriter.header_ IndexWriter.new_header
                 IndexWriter.offsets IndexWriter.current_offset_].
  rewrite nth_repeat. lia.
Qed.

Lemma header_after_ok c w w' :
  header_ok w ->
  IndexWriter.header_ w' = header_after c w ->
  IndexWriter.current_offset_ w <= IndexWriter.current_offset_ w' ->
  header_ok w'
  /\ forall k, k <> slot c ->
       nth k (IndexWriter.offsets (IndexWriter.header_ w')) 0
       = nth k (IndexWriter.offsets (IndexWriter.header_ w)) 0.
Proof.
  intros (Hmag & Hver & Hlen & Hsz & Hoffs) Hh Hcur.
  assert (Hshape : exists o,
            o <= IndexWriter.current_offset_ w
            /\ IndexWriter.magic (header_after c w) = IndexWriter.magic (IndexWriter.header_ w)
            /\ IndexWriter.version (header_after c w)
               = IndexWriter.version (IndexWriter.header_ w)
            /\ IndexWriter.offsets (header_after c w)
               = vec_set (slot c) o (IndexWriter.offsets (IndexWriter.header_ w))).
  { destruct c; cbn [header_after slot];
      try (exists 0; repeat split; lia);
      (eexists; split; [| split; [reflexivity | split; [reflexivity | reflexivity]]];
       destruct (payload _); lia). }
  destruct Hshape as (o & Ho & Hm & Hv & Hof).
  unfold header_ok. rewrite Hh. split.
  - split; [now rewrite Hm |]. split; [now rewrite Hv |].
    split; [now rewrite Hof, vec_set_length |]. split; [lia |].
    intros k. rewrite Hof, vec_set_nth.
    destruct ((k =? slot c) && (slot c <? length (IndexWriter.offsets (IndexWriter.header_ w))));
      [lia | specialize (Hoffs k); lia].
  - intros k Hk. rewrite Hof, vec_set_nth.
    destruct (Nat.eqb_spec k (slot c)); [contradiction | reflexivity].
Qed.

Lemma perform_all_app fuel pre post w w' :
  IndexWriter.perform_all fuel (pre ++ post) w = Some w' ->
  exists w1, IndexWriter.perform_all fuel pre w = Some w1
             /\ IndexWriter.perform_all fuel post w1 = Some w'.
Proof.
  revert w. induction pre as [|c pre IH]; intros w H; cbn [app IndexWriter.perform_all] in *.
  - exists w. now split.
  - destruct (IndexWriter.perform fuel c w) as [w0|]; [| discriminate].
    now apply IH.
Qed.

(** A sequence of calls only appends to the file, and leaves the offsets of
    the sections it does not write as they were. *)
Lemma perform_all_becomes fuel calls :
  forall w w',
    at_end w -> header_ok w ->
    IndexWriter.perform_all fuel calls w = Some w' ->
    at_end w' /\ header_ok w'
    /\ (exists extra, content (IndexWriter.file_ w') = content (IndexWriter.file_ w) ++ extra)
    /\ forall k, (forall c, In c calls -> slot c <> k) ->
         nth k (IndexWriter.offsets (IndexWriter.header_ w')) 0
         = nth k (IndexWriter.offsets (IndexWriter.header_ w)) 0.
Proof.
  induction calls as [|c rest IH]; intros w w' Hend Hok Hrun;
    cbn [IndexWriter.perform_all] in Hrun.
  - injection Hrun as <-. split; [exact Hend |]. split; [exact Hok |].
    split; [exists []; now rewrite app_nil_r | reflexivity].
  - destruct (IndexWriter.perform fuel c w) as [w1|] eqn:Hc; [| discriminate].
    destruct (perform_becomes fuel c w w1 Hend Hc) as [(Hend1 & Hcont1 & Hcur1 & Hhdr1) _].
    destruct (header_after_ok c w w1 Hok Hhdr1 ltac:(lia)) as [Hok1 Hsame1].
    destruct (IH w1 w' Hend1 Hok1 Hrun) as (Hend' & Hok' & (extra & Hcont') & Hsame').
    split; [exact Hend' |]. split; [exact Hok' |]. split.
    + exists (payload c ++ extra). now rewrite Hcont', Hcont1, app_assoc.
    + intros k Hk. rewrite Hsame'.
      * apply Hsame1. intros ->. now apply (Hk c); [left |].
      * intros c' Hc'. apply Hk. now right.
Qed.

(** The finalized file: the header in front, and behind it what the writer
    had written, then the footer. *)
Lemma finalize_data fuel w w' :
  at_end w -> header_ok w ->
  IndexWriter.finalize fuel w = Some w' ->
  IndexWriter.header_ w'
  = with_offset IndexWriter.SECTION_FOOTER (IndexWriter.current_offset_ w) (IndexWriter.header_ w)
  /\ Ofstream.data (IndexWriter.file_ w')
     = IndexWriter.header_bytes (IndexWriter.header_ w')
       ++ skipn IndexWriter.sizeof_IndexHeader
            (content (IndexWriter.file_ w) ++ le_bytes 8 IndexWriter.footer_magic)
  /\ length (IndexWriter.header_bytes (IndexWriter.header_ w')) = IndexWriter.sizeof_IndexHeader
  /\ IndexWriter.current_offset_ w' = IndexWriter.current_offset_ w + 8.
Proof.
  intros Hend (Hmag & Hver & Hlen & Hsz & Hoffs) Hfin.
  unfold IndexWriter.finalize in Hfin. aligned_case Hfin. cbv zeta in Hfin.
  set (w1 := IndexWriter.set_offset IndexWriter.SECTION_FOOTER w) in *.
  set (w2 := IndexWriter.write_raw (le_bytes 8 IndexWriter.footer_magic) w1) in *.
  assert (Hw' : w' = IndexWriter.mk
                       (Ofstream.write (IndexWriter.header_bytes (IndexWriter.header_ w2))
                          (Ofstream.seekp 0 (IndexWriter.file_ w2)))
                       (IndexWriter.header_ w2) (IndexWriter.current_offset_ w2))
    by congruence.
  clear Hfin.
  assert (Hend1 : at_end w1) by exact Hend.
  destruct (write_raw_at_end (le_bytes 8 IndexWriter.footer_magic) w1 Hend1)
    as (_ & Hdata2 & _).
  fold w2 in Hdata2.
  assert (Hh2 : IndexWriter.header_ w2
                = with_offset IndexWriter.SECTION_FOOTER (IndexWriter.current_offset_ w)
                    (IndexWriter.header_ w)) by reflexivity.
  assert (Hc2 : IndexWriter.current_offset_ w2 = IndexWriter.current_offset_ w + 8)
    by reflexivity.
  assert (Hf1 : IndexWriter.file_ w1 = IndexWriter.file_ w) by reflexivity.
  assert (Hhlen : length (IndexWriter.header_bytes (IndexWriter.header_ w2))
                  = IndexWriter.sizeof_IndexHeader).
  { apply header_bytes_length; rewrite Hh2; cbn [with_offset IndexWriter.magic IndexWriter.offsets].
    - rewrite Hmag. reflexivity.
    - now rewrite vec_set_length. }
  clearbody w2. clearbody w1. subst w'.
  cbn [IndexWriter.header_ IndexWriter.file_ IndexWriter.current_offset_].
  split; [exact Hh2 |]. split; [| split; [exact Hhlen | exact Hc2]].
  unfold Ofstream.write, Ofstream.seekp. cbn [Ofstream.data Ofstream.put firstn app Nat.add].
  rewrite Hhlen, Hdata2, Hf1. reflexivity.
Qed.

Lemma slot_not_footer c : slot c <> IndexWriter.SECTION_FOOTER.
Proof. destruct c; discriminate. Qed.

Lemma section_placed fuel pre c post w w' :
  IndexWriter.perform_all fuel (pre ++ c :: post) IndexWriter.create = Some w ->
  (forall c', In c' post -> slot c' <> slot c) ->
  payload c <> [] ->
  IndexWriter.finalize fuel w = Some w' ->
  let offset := nth (slot c) (IndexWriter.offsets (IndexWriter.header_ w')) 0 in
  (exists rest,
     skipn offset (Ofstream.data (IndexWriter.file_ w')) = payload c ++ rest)
  /\ IndexWriter.sizeof_IndexHeader <= offset
  /\ offset mod 8 = 0
  /\ offset + length (payload c) + 8 <= IndexWriter.current_offset_ w'
  /\ length (Ofstream.data (IndexWriter.file_ w')) = IndexWriter.current_offset_ w'.
Proof.
  intros Hrun Hpost Hpay Hfin. cbv zeta.
  destruct (perform_all_app fuel pre (c :: post) _ _ Hrun) as (w1 & Hpre & Hrest).
  cbn [IndexWriter.perform_all] in Hrest.
  destruct (IndexWriter.perform fuel c w1) as [w2|] eqn:Hc; [| discriminate].
  destruct create_at_end as [Hend0 Hok0].
  destruct (perform_all_becomes fuel pre _ _ Hend0 Hok0 Hpre) as (Hend1 & Hok1 & _ & _).
  destruct (perform_becomes fuel c w1 w2 Hend1 Hc) as [(Hend2 & Hcont2 & Hcur2 & Hhdr2) Hal].
  destruct (header_after_ok c w1 w2 Hok1 Hhdr2 ltac:(lia)) as [Hok2 _].
  destruct (perform_all_becomes fuel post _ _ Hend2 Hok2 Hrest)
    as (Hend & Hok & (extra & Hcont) & Hsame).
  destruct (finalize_data fuel w w' Hend Hok Hfin) as (Hh' & Hdata' & Hhlen & Hcur').
  assert (Hoff : nth (slot c) (IndexWriter.offsets (IndexWriter.header_ w')) 0
                 = IndexWriter.current_offset_ w1).
  { rewrite Hh'. cbn [with_offset IndexWriter.offsets]. rewrite vec_set_nth.
    destruct (Nat.eqb_spec (slot c) IndexWriter.SECTION_FOOTER) as [He | _];
      [now apply slot_not_footer in He |].
    cbn [andb]. rewrite Hsame by exact Hpost. rewrite Hhdr2.
    destruct Hok1 as (_ & _ & Hlen1 & _ & _).
    destruct c; cbn [header_after slot with_offset IndexWriter.offsets];
      try (now elim Hpay);
      rewrite vec_set_nth, Nat.eqb_refl, Hlen1; cbn [Nat.ltb Nat.leb andb];
      destruct (payload _) eqn:Hp; try reflexivity; now elim Hpay. }
  rewrite Hoff.
  pose proof (content_length w1 Hend1) as Hl1.
  pose proof (content_length w Hend) as Hl.
  destruct Hok1 as (_ & _ & _ & Hsz1 & _).
  assert (Hskip : skipn (IndexWriter.current_offset_ w1) (Ofstream.data (IndexWriter.file_ w'))
                  = payload c ++ extra ++ le_bytes 8 IndexWriter.footer_magic).
  { rewrite Hdata'.
    rewrite skipn_app, skipn_all2 by lia. cbn [app]. rewrite Hhlen.
    rewrite skipn_skipn.
    replace (IndexWriter.current_offset_ w1 - IndexWriter.sizeof_IndexHeader
             + IndexWriter.sizeof_IndexHeader)
      with (IndexWriter.current_offset_ w1) by lia.
    rewrite Hcont, Hcont2, <- !app_assoc, <- Hl1.
    rewrite skipn_app, skipn_all, Nat.sub_diag. reflexivity. }
  split; [eexists; exact Hskip |]. split; [exact Hsz1 |].
  split; [now apply Hal |].
  assert (Hlen' : length (Ofstream.data (IndexWriter.file_ w')) = IndexWriter.current_offset_ w').
  { rewrite Hdata', length_app, Hhlen, length_skipn, length_app, Hl, le_bytes_length.
    destruct Hok as (_ & _ & _ & Hsz & _). lia. }
  split; [| exact Hlen'].
  rewrite Hcur', <- Hl, Hcont, Hcont2, !length_app, Hl1. lia.
Qed.

(** X21: in a finalized file, the bytes that a section call appended stand
    at the offset the header records for that section, provided no later
    call wrote the same section; the offset is a multiple of 8 past the
    header. *)
Theorem index_section_stands_at_offset
    (fuel : nat) (pre : list IndexWriter.call) (c : IndexWriter.call)
    (post : list IndexWriter.call) (w w' : IndexWriter.t) :
  IndexWriter.perform_all fuel (pre ++ c :: post) IndexWriter.create = Some w ->
  (forall c', In c' post -> slot c' <> slot c) ->
  payload c <> [] ->
  IndexWriter.finalize fuel w = Some w' ->
  let offset := nth (slot c) (IndexWriter.offsets (IndexWriter.header_ w')) 0 in
  firstn (length (payload c)) (skipn offset (Ofstream.data (IndexWriter.file_ w')))
  = payload c
  /\ IndexWriter.sizeof_IndexHeader <= offset
  /\ offset mod 8 = 0.
Proof.
  intros Hrun Hpost Hpay Hfin. cbv zeta.
  destruct (section_placed fuel pre c post w w' Hrun Hpost Hpay Hfin)
    as ((rest & Hskip) & Hsz & Hal & _).
  split; [| split; [exact Hsz | exact Hal]].
  rewrite Hskip, firstn_app, firstn_all, Nat.sub_diag. cbn [firstn]. apply app_nil_r.
Qed.

(* ------------------------------------------------------------------ *)
(** ** IndexReader: reading a finalized file *)

Lemma firstn_prefix {A} n (a b : list A) : length a = n -> firstn n (a ++ b) = a.
Proof.
  intros <-. rewrite firstn_app, firstn_all, Nat.sub_diag. cbn [firstn]. apply app_nil_r.
Qed.

Lemma le_decode_le_bytes width z :
  le_decode (le_bytes width z) = (z mod 2 ^ (8 * Z.of_nat width))%Z.
Proof.
  revert z. induction width as [|width IH]; intros z; cbn [le_bytes le_decode].
  - change (8 * Z.of_nat 0)%Z with 0%Z. now rewrite Z.pow_0_r, Z.mod_1_r.
  - rewrite IH.
    replace (8 * Z.of_nat (Datatypes.S width))%Z with (8 + 8 * Z.of_nat width)%Z by lia.
    rewrite Z.pow_add_r by lia. change (2 ^ 8)%Z with 256%Z.
    rewrite Z.rem_mul_r by (try lia; apply Z.pow_pos_nonneg; lia).
    reflexivity.
Qed.

Lemma le_decode_nat width (n : nat) :
  (Z.of_nat n < 2 ^ (8 * Z.of_nat width))%Z ->
  Z.to_nat (le_decode (le_bytes width (Z.of_nat n))) = n.
Proof.
  intros H. rewrite le_decode_le_bytes, Z.mod_small by lia. apply Nat2Z.id.
Qed.

Lemma skipn_flat_map {A} (f : A -> list Z) width (l : list A) k rest :
  (forall x, length (f x) = width) ->
  k <= length l ->
  skipn (width * k) (flat_map f l ++ rest) = flat_map f (skipn k l) ++ rest.
Proof.
  intros Hf. revert k. induction l as [|a l IH]; intros k Hk.
  - cbn [length] in Hk. assert (k = 0) as -> by lia. now rewrite Nat.mul_0_r.
  - destruct k as [|k]; [now rewrite Nat.mul_0_r |].
    cbn [length] in Hk. cbn [flat_map skipn]. rewrite <- app_assoc.
    replace (width * Datatypes.S k) with (width * k + length (f a))
      by (rewrite Hf; lia).
    rewrite <- skipn_skipn, skipn_app, skipn_all, Nat.sub_diag. cbn [app skipn].
    apply IH. lia.
Qed.

(** The header fields that a reader finds in front of a file that begins
    with the bytes of [h]. *)
Lemma header_read_back (h : IndexWriter.IndexHeader) (rest : list Z) :
  IndexWriter.magic h = IndexWriter.INDEX_MAGIC ++ [0; 0; 0]%Z ->
  IndexWriter.version h = IndexWriter.INDEX_VERSION ->
  let r := IndexReader.mk (IndexWriter.header_bytes h ++ rest) in
  IndexReader.is_valid r = true
  /\ forall k, k < length (IndexWriter.offsets h) ->
       (Z.of_nat (nth k (IndexWriter.offsets h) 0%nat) < 2 ^ 64)%Z ->
       IndexReader.header_offsets r k = nth k (IndexWriter.offsets h) 0.
Proof.
  intros Hmag Hver. cbv zeta.
  unfold IndexWriter.header_bytes. rewrite Hmag, Hver.
  split; [reflexivity |].
  intros k Hk Hsmall. unfold IndexReader.header_offsets. cbn [IndexReader.mmap_].
  set (f := fun o : nat => le_bytes 8 (Z.of_nat o)).
  set (front := (IndexWriter.INDEX_MAGIC ++ [0; 0; 0]%Z)
                ++ le_bytes 2 IndexWriter.INDEX_VERSION
                ++ le_bytes 2 (IndexWriter.reserved1 h)
                ++ le_bytes 4 (IndexWriter.flags h)
                ++ le_bytes 8 (Z.of_nat (IndexWriter.text_len h))).
  assert (Hfront : length front = 24).
  { unfold front. rewrite !length_app, !le_bytes_length. reflexivity. }
  replace (((IndexWriter.INDEX_MAGIC ++ [0; 0; 0]%Z)
            ++ le_bytes 2 IndexWriter.INDEX_VERSION
            ++ le_bytes 2 (IndexWriter.reserved1 h)
            ++ le_bytes 4 (IndexWriter.flags h)
            ++ le_bytes 8 (Z.of_nat (IndexWriter.text_len h))
            ++ flat_map f (IndexWriter.offsets h)) ++ rest)
    with (front ++ flat_map f (IndexWriter.offsets h) ++ rest)
    by (unfold front; now rewrite <- !app_assoc).
  replace (24 + 8 * k) with (8 * k + length front) by lia.
  rewrite <- skipn_skipn, skipn_app, skipn_all, Nat.sub_diag. cbn [app skipn].
  rewrite (skipn_flat_map f 8) by (try lia; intros; apply le_bytes_length).
  rewrite (skipn_cons_nth _ 0 k Hk). cbn [flat_map]. rewrite <- app_assoc.
  rewrite firstn_prefix by (unfold f; apply le_bytes_length).
  unfold f. now apply le_decode_nat.
Qed.

Section Reading.

Variable fuel : nat.
Variable calls : list IndexWriter.call.
Variables w w' : IndexWriter.t.

Hypothesis Hrun : IndexWriter.perform_all fuel calls IndexWriter.create = Some w.
Hypothesis Hfin : IndexWriter.finalize fuel w = Some w'.
Hypothesis Hsize : (Z.of_nat (IndexWriter.current_offset_ w') < 2 ^ 64)%Z.

Lemma finalized_file :
  exists rest,
    Ofstream.data (IndexWriter.file_ w')
    = IndexWriter.header_bytes (IndexWriter.header_ w') ++ rest
    /\ length (Ofstream.data (IndexWriter.file_ w')) = IndexWriter.current_offset_ w'
    /\ IndexWriter.magic (IndexWriter.header_ w') = IndexWriter.INDEX_MAGIC ++ [0; 0; 0]%Z
    /\ IndexWriter.version (IndexWriter.header_ w') = IndexWriter.INDEX_VERSION
    /\ length (IndexWriter.offsets (IndexWriter.header_ w')) = IndexWriter.NUM_SECTIONS
    /\ IndexWriter.sizeof_IndexHeader < IndexWriter.current_offset_ w'
    /\ forall k, nth k (IndexWriter.offsets (IndexWriter.header_ w')) 0
                 < IndexWriter.current_offset_ w'.
Proof.
  destruct create_at_end as [Hend0 Hok0].
  destruct (perform_all_becomes fuel calls _ _ Hend0 Hok0 Hrun) as (Hend & Hok & _ & _).
  destruct (finalize_data fuel w w' Hend Hok Hfin) as (Hh' & Hdata' & Hhlen & Hcur').
  pose proof (content_length w Hend) as Hl.
  destruct Hok as (Hmag & Hver & Hlen & Hsz & Hoffs).
  eexists. split; [exact Hdata' |].
  split.
  { rewrite Hdata', length_app, Hhlen, length_skipn, length_app, Hl, le_bytes_length. lia. }
  rewrite Hh'. cbn [with_offset IndexWriter.magic IndexWriter.version IndexWriter.offsets].
  split; [exact Hmag |]. split; [exact Hver |].
  split; [now rewrite vec_set_length |]. split; [lia |].
  intros k. rewrite vec_set_nth.
  destruct ((k =? IndexWriter.SECTION_FOOTER)
            && (IndexWriter.SECTION_FOOTER <? length (IndexWriter.offsets (IndexWriter.header_ w))));
    [lia | specialize (Hoffs k); lia].
Qed.

Lemma reader_opens :
  let r := IndexReader.mk (Ofstream.data (IndexWriter.file_ w')) in
  IndexReader.open (Ofstream.data (IndexWriter.file_ w')) = inr r
  /\ IndexReader.mmap_size_ r = IndexWriter.current_offset_ w'
  /\ forall k, k < IndexWriter.NUM_SECTIONS ->
       IndexReader.header_offsets r k
       = nth k (IndexWriter.offsets (IndexWriter.header_ w')) 0.
Proof.
  cbv zeta.
  destruct finalized_file as (rest & Hdata & Hlen & Hmag & Hver & Hoffs & Hsz & Hbound).
  destruct (header_read_back (IndexWriter.header_ w') rest Hmag Hver) as [Hvalid Hread].
  cbv zeta in Hvalid, Hread. rewrite <- Hdata in Hvalid, Hread.
  split; [| split].
  - unfold IndexReader.open. rewrite Hlen.
    destruct (Nat.eqb_spec (IndexWriter.current_offset_ w') 0);
      [unfold IndexWriter.sizeof_IndexHeader in Hsz; lia |].
    destruct (Nat.ltb_spec (IndexWriter.current_offset_ w') IndexWriter.sizeof_IndexHeader);
      [lia |].
    now rewrite Hvalid.
  - exact Hlen.
  - intros k Hk. apply Hread; [now rewrite Hoffs |].
    specialize (Hbound k). lia.
Qed.

End Reading.

(** X22: the reader accepts every file that [finalize] produced (of a size
    that fits a [uint64_t]): the magic and the version check pass, the
    mapping has the size the writer counted, and the eight section offsets
    read from the header are those the writer recorded. *)
Theorem index_reader_accepts_finalized_file
    (fuel : nat) (calls : list IndexWriter.call) (w w' : IndexWriter.t) :
  IndexWriter.perform_all fuel calls IndexWriter.create = Some w ->
  IndexWriter.finalize fuel w = Some w' ->
  (Z.of_nat (IndexWriter.current_offset_ w') < 2 ^ 64)%Z ->
  exists r,
    IndexReader.open (Ofstream.data (IndexWriter.file_ w')) = inr r
    /\ IndexReader.mmap_size_ r = IndexWriter.current_offset_ w'
    /\ forall k, k < 8 ->
         IndexReader.header_offsets r k
         = nth k (IndexWriter.offsets (IndexWriter.header_ w')) 0.
Proof.
  intros Hrun Hfin Hsize. eexists.
  exact (reader_opens fuel calls w w' Hrun Hfin Hsize).
Qed.

Definition finalized_example : IndexWriter.t :=
  Eval vm_compute in
    match IndexWriter.finalize 0 writer_example with
    | Some w => w
    | None => writer_example
    end.

Lemma index_reader_accepts_finalized_file_witness :
  exists r,
    IndexReader.open (Ofstream.data (IndexWriter.file_ finalized_example)) = inr r
    /\ IndexReader.mmap_size_ r = IndexWriter.current_offset_ finalized_example
    /\ forall k, k < 8 ->
         IndexReader.header_offsets r k
         = nth k (IndexWriter.offsets (IndexWriter.header_ finalized_example)) 0.
Proof.
  apply (index_reader_accepts_finalized_file 0 index_calls_example writer_example).
  - vm_compute. reflexivity.
  - vm_compute. reflexivity.
  - vm_compute. reflexivity.
Defined.

(** The view that [read_array_at] and [get_text] return for a section whose
    bytes begin with a count. *)
Lemma counted_section_view (r : IndexReader.t) (offset count : nat) (body rest : list Z) :
  0 < offset ->
  skipn offset (IndexReader.mmap_ r) = le_bytes 8 (Z.of_nat count) ++ body ++ rest ->
  (Z.of_nat count < 2 ^ 64)%Z ->
  IndexReader.read_array_at r offset = Some (IndexReader.At (offset + 8) count)
  /\ skipn (offset + 8) (IndexReader.mmap_ r) = body ++ rest.
Proof.
  intros Hpos Hskip Hcount.
  assert (Hlen : offset + 8 <= IndexReader.mmap_size_ r).
  { unfold IndexReader.mmap_size_.
    pose proof (f_equal (@length Z) Hskip) as Hl.
    rewrite length_skipn, !length_app, le_bytes_length in Hl. lia. }
  split.
  - unfold IndexReader.read_array_at, IndexReader.load.
    destruct (Nat.eqb_spec offset 0); [lia |].
    destruct (Nat.leb_spec (IndexReader.mmap_size_ r) offset); [lia |].
    destruct (Nat.leb_spec (offset + 8) (IndexReader.mmap_size_ r)); [| lia].
    cbn [orb]. rewrite Hskip, firstn_prefix by apply le_bytes_length.
    rewrite (le_decode_nat 8 count) by exact Hcount. reflexivity.
  - rewrite Nat.add_comm, <- skipn_skipn, Hskip.
    rewrite skipn_app, skipn_all2 by (rewrite le_bytes_length; lia).
    rewrite le_bytes_length, Nat.sub_diag. reflexivity.
Qed.

Lemma get_text_is_read_array r :
  IndexReader.get_text r
  = IndexReader.read_array_at r (IndexReader.header_offsets r IndexWriter.SECTION_TEXT).
Proof. reflexivity. Qed.

Section SectionReading.

Variable fuel : nat.
Variables pre post : list IndexWriter.call.
Variable c : IndexWriter.call.
Variables w w' : IndexWriter.t.
Variable count : nat.
Variable body : list Z.

Hypothesis Hrun :
  IndexWriter.perform_all fuel (pre ++ c :: post) IndexWriter.create = Some w.
Hypothesis Hpost : forall c', In c' post -> slot c' <> slot c.
Hypothesis Hfin : IndexWriter.finalize fuel w = Some w'.
Hypothesis Hsize : (Z.of_nat (IndexWriter.current_offset_ w') < 2 ^ 64)%Z.
Hypothesis Hpayload : payload c = le_bytes 8 (Z.of_nat count) ++ body.
Hypothesis Hcount : count <= length body.

Lemma counted_section_read_back :
  let r := IndexReader.mk (Ofstream.data (IndexWriter.file_ w')) in
  IndexReader.open (Ofstream.data (IndexWriter.file_ w')) = inr r
  /\ exists ptr,
       IndexReader.read_array_at r (IndexReader.header_offsets r (slot c))
       = Some (IndexReader.At ptr count)
       /\ firstn (length body) (skipn ptr (IndexReader.mmap_ r)) = body.
Proof.
  cbv zeta.
  destruct (reader_opens fuel _ w w' Hrun Hfin Hsize) as (Hopen & Hmsize & Hoffs).
  split; [exact Hopen |].
  assert (Hne : payload c <> []).
  { rewrite Hpayload. destruct (le_bytes_8_cons (Z.of_nat count)) as (b & l & ->).
    discriminate. }
  destruct (section_placed fuel pre c post w w' Hrun Hpost Hne Hfin)
    as ((rest & Hskip) & Hsz & _ & Hend & _).
  cbv zeta in Hskip, Hsz, Hend.
  assert (Hslot : slot c < IndexWriter.NUM_SECTIONS) by (destruct c; cbv; lia).
  rewrite Hoffs by exact Hslot.
  set (offset := nth (slot c) (IndexWriter.offsets (IndexWriter.header_ w')) 0) in *.
  rewrite Hpayload, <- app_assoc in Hskip.
  rewrite Hpayload, length_app, le_bytes_length in Hend.
  destruct (counted_section_view (IndexReader.mk (Ofstream.data (IndexWriter.file_ w')))
              offset count body rest) as [Hview Hbody].
  - unfold IndexWriter.sizeof_IndexHeader in Hsz. lia.
  - exact Hskip.
  - lia.
  - exists (offset + 8). split; [exact Hview |].
    rewrite Hbody. now apply firstn_prefix.
Qed.

End SectionReading.

(** X23: the text given to [write_text] is read back by [get_text] from the
    finalized file: the view has the length of the text, and the bytes at
    its pointer are the bytes of the text (when no later call wrote the
    text section again). *)
Theorem index_text_round_trip
    (fuel : nat) (pre : list IndexWriter.call) (text : list byte)
    (post : list IndexWriter.call) (w w' : IndexWriter.t) :
  IndexWriter.perform_all fuel (pre ++ IndexWriter.Write_text text :: post)
    IndexWriter.create = Some w ->
  (forall t, ~ In (IndexWriter.Write_text t) post) ->
  IndexWriter.finalize fuel w = Some w' ->
  (Z.of_nat (IndexWriter.current_offset_ w') < 2 ^ 64)%Z ->
  exists r ptr,
    IndexReader.open (Ofstream.data (IndexWriter.file_ w')) = inr r
    /\ IndexReader.get_text r = Some (IndexReader.At ptr (length text))
    /\ IndexReader.bytes_at r ptr (length text) = map byte_val text.
Proof.
  intros Hrun Hpost Hfin Hsize.
  destruct (counted_section_read_back fuel pre post (IndexWriter.Write_text text) w w'
              (length text) (map byte_val text) Hrun) as (Hopen & ptr & Hview & Hbytes).
  - intros c' Hc' Hs. destruct c'; try discriminate Hs. now apply (Hpost text0).
  - exact Hfin.
  - exact Hsize.
  - reflexivity.
  - now rewrite length_map.
  - eexists. exists ptr. split; [exact Hopen |].
    rewrite get_text_is_read_array. split; [exact Hview |].
    unfold IndexReader.bytes_at. rewrite length_map in Hbytes. exact Hbytes.
Qed.

Definition text_example : list byte := ["a"; "b"; "r"; "a"; "c"; "a"; "d"; "$"]%byte.

Lemma index_text_round_trip_witness :
  exists r ptr,
    IndexReader.open (Ofstream.data (IndexWriter.file_ finalized_example)) = inr r
    /\ IndexReader.get_text r = Some (IndexReader.At ptr (length text_example))
    /\ IndexReader.bytes_at r ptr (length text_example) = map byte_val text_example.
Proof.
  apply (index_text_round_trip 0 [IndexWriter.Write_header 0 8] text_example
           [IndexWriter.Write_bwt [100; 114; 99; 36; 97; 97; 97; 98]%Z;
            IndexWriter.Write_c_array [0; 8]%Z] writer_example).
  - vm_compute. reflexivity.
  - intros t [H | [H | []]]; discriminate H.
  - vm_compute. reflexivity.
  - vm_compute. reflexivity.
Defined.

(** X24: the table given to [write_c_array] is read back by [get_c_array]
    from the finalized file: the view has the number of entries, and the
    4-byte read at entry [k] gives entry [k] as a [uint32_t]. *)
Theorem index_c_array_round_trip
    (fuel : nat) (pre : list IndexWriter.call) (c_array : list Z)
    (post : list IndexWriter.call) (w w' : IndexWriter.t) :
  IndexWriter.perform_all fuel (pre ++ IndexWriter.Write_c_array c_array :: post)
    IndexWriter.create = Some w ->
  (forall t, ~ In (IndexWriter.Write_c_array t) post) ->
  IndexWriter.finalize fuel w = Some w' ->
  (Z.of_nat (IndexWriter.current_offset_ w') < 2 ^ 64)%Z ->
  exists r ptr,
    IndexReader.open (Ofstream.data (IndexWriter.file_ w')) = inr r
    /\ IndexReader.get_c_array r = Some (IndexReader.At ptr (length c_array))
    /\ forall k, k < length c_array ->
         IndexReader.load r (ptr + 4 * k) 4 = Some (u32 (nth k c_array 0%Z)).
Proof.
  intros Hrun Hpost Hfin Hsize.
  destruct (counted_section_read_back fuel pre post (IndexWriter.Write_c_array c_array) w w'
              (length c_array) (flat_map (le_bytes 4) c_array) Hrun)
    as (Hopen & ptr & Hview & Hbytes).
  - intros c' Hc' Hs. destruct c'; try discriminate Hs. now apply (Hpost c_array0).
  - exact Hfin.
  - exact Hsize.
  - reflexivity.
  - rewrite (flat_map_constant_length (c := 4)) by (intros; apply le_bytes_length). lia.
  - eexists. exists ptr. split; [exact Hopen |]. split; [exact Hview |].
    intros k Hk.
    set (r := IndexReader.mk (Ofstream.data (IndexWriter.file_ w'))) in *.
    assert (Hfl : length (flat_map (le_bytes 4) c_array) = length c_array * 4)
      by (apply flat_map_constant_length; intros; apply le_bytes_length).
    assert (Hsplit : skipn ptr (IndexReader.mmap_ r)
                     = flat_map (le_bytes 4) c_array
                       ++ skipn (length c_array * 4) (skipn ptr (IndexReader.mmap_ r))).
    { rewrite <- Hbytes at 1. rewrite Hfl. symmetry. apply firstn_skipn. }
    assert (Hin : ptr + length c_array * 4 <= IndexReader.mmap_size_ r).
    { pose proof (f_equal (@length Z) Hbytes) as Hl.
      rewrite length_firstn, length_skipn, Hfl in Hl.
      unfold IndexReader.mmap_size_. lia. }
    unfold IndexReader.load.
    destruct (Nat.leb_spec (ptr + 4 * k + 4) (IndexReader.mmap_size_ r)); [| lia].
    f_equal.
    replace (ptr + 4 * k) with (4 * k + ptr) by lia.
    rewrite <- skipn_skipn, Hsplit.
    rewrite (skipn_flat_map (le_bytes 4) 4) by (try lia; intros; apply le_bytes_length).
    rewrite (skipn_cons_nth _ 0%Z k Hk). cbn [flat_map]. rewrite <- app_assoc.
    rewrite firstn_prefix by apply le_bytes_length.
    rewrite le_decode_le_bytes. reflexivity.
Qed.

Lemma index_c_array_round_trip_witness :
  exists r ptr,
    IndexReader.open (Ofstream.data (IndexWriter.file_ finalized_example)) = inr r
    /\ IndexReader.get_c_array r = Some (IndexReader.At ptr (length [0; 8]%Z))
    /\ forall k, k < length [0; 8]%Z ->
         IndexReader.load r (ptr + 4 * k) 4 = Some (u32 (nth k [0; 8]%Z 0%Z)).
Proof.
  apply (index_c_array_round_trip 0
           [IndexWriter.Write_header 0 8; IndexWriter.Write_text text_example;
            IndexWriter.Write_bwt [100; 114; 99; 36; 97; 97; 97; 98]%Z]
           [0; 8]%Z [] writer_example).
  - vm_compute. reflexivity.
  - intros t [].
  - vm_compute. reflexivity.
  - vm_compute. reflexivity.
Defined.

Lemma index_section_stands_at_offset_witness :
  let c := IndexWriter.Write_bwt [100; 114; 99; 36; 97; 97; 97; 98]%Z in
  let offset := nth (slot c) (IndexWriter.offsets (IndexWriter.header_ finalized_example)) 0 in
  firstn (length (payload c))
    (skipn offset (Ofstream.data (IndexWriter.file_ finalized_example)))
  = payload c
  /\ IndexWriter.sizeof_IndexHeader <= offset
  /\ offset mod 8 = 0.
Proof.
  apply (index_section_stands_at_offset 0
           [IndexWriter.Write_header 0 8; IndexWriter.Write_text text_example]
           (IndexWriter.Write_bwt [100; 114; 99; 36; 97; 97; 97; 98]%Z)
           [IndexWriter.Write_c_array [0; 8]%Z] writer_example finalized_example).
  - vm_compute. reflexivity.
  - intros c' [<- | []]. discriminate.
  - discriminate.
  - vm_compute. reflexivity.
Defined.

(* ------------------------------------------------------------------ *)
(** ** IndexWriter: a text that leaves the writer off the 8-byte grid *)

Lemma unaligned_blocks fuel w :
  IndexWriter.current_offset_ w mod 8 <> 0 ->
  IndexWriter.align_to fuel 8 w = None /\ IndexWriter.align_to fuel 4096 w = None.
Proof.
  intros H. rewrite !align_to_spec by lia.
  destruct (Nat.eqb_spec (IndexWriter.current_offset_ w mod 8) 0); [contradiction |].
  destruct (Nat.eqb_spec (IndexWriter.current_offset_ w mod 4096) 0) as [H0 | _];
    [| now split].
  exfalso. apply H.
  pose proof (Nat.div_mod_eq (IndexWriter.current_offset_ w) 4096).
  pose proof (Nat.div_mod_eq (IndexWriter.current_offset_ w) 8).
  pose proof (Nat.mod_upper_bound (IndexWriter.current_offset_ w) 8 ltac:(lia)).
  lia.
Qed.

(** X25: once [write_text] has returned for a text whose length is not a
    multiple of 8, no later section call returns and neither does
    [finalize]: the writer stands off the 8-byte grid, and [align_to] does
    not end. *)
Theorem unaligned_text_blocks_the_file
    (fuel : nat) (text : list byte) (w w1 : IndexWriter.t) :
  IndexWriter.write_text fuel text w = Some w1 ->
  length text mod 8 <> 0 ->
  IndexWriter.finalize fuel w1 = None
  /\ (forall t, IndexWriter.write_text fuel t w1 = None)
  /\ (forall bwt, IndexWriter.write_bwt fuel bwt w1 = None)
  /\ (forall c_array, IndexWriter.write_c_array fuel c_array w1 = None)
  /\ (forall bits_data super_data sub_data num_levels,
        IndexWriter.write_wavelet fuel bits_data super_data sub_data num_levels w1 = None)
  /\ (forall b veb, IndexWriter.write_veb_layout fuel (Some (b :: veb)) w1 = None).
Proof.
  intros Hw Hlen. unfold IndexWriter.write_text in Hw. aligned_case Hw.
  injection Hw as <-.
  match goal with |- IndexWriter.finalize _ ?x = _ /\ _ => set (w1 := x) end.
  assert (Hoff : IndexWriter.current_offset_ w1 mod 8 <> 0).
  { unfold w1, IndexWriter.write_raw, IndexWriter.set_offset.
    cbn [IndexWriter.current_offset_ length]. rewrite ?le_bytes_length, ?length_map.
    pose proof (Nat.div_mod_eq (IndexWriter.current_offset_ w) 8).
    pose proof (Nat.div_mod_eq (length text) 8).
    pose proof (Nat.div_mod_eq (IndexWriter.current_offset_ w + 8 + length text) 8).
    pose proof (Nat.mod_upper_bound (length text) 8 ltac:(lia)).
    pose proof (Nat.mod_upper_bound (IndexWriter.current_offset_ w + 8 + length text) 8
                  ltac:(lia)).
    lia. }
  destruct (unaligned_blocks fuel w1 Hoff) as [H8 H4096]. clearbody w1.
  unfold IndexWriter.finalize, IndexWriter.write_text, IndexWriter.write_bwt,
    IndexWriter.write_c_array, IndexWriter.write_wavelet, IndexWriter.write_veb_layout.
  rewrite H8, H4096. repeat split; reflexivity.
Qed.

Lemma unaligned_text_blocks_the_file_witness :
  let w1 := IndexWriter.write_raw (map byte_val pattern_ana)
              (IndexWriter.write_raw (le_bytes 8 3)
                 (IndexWriter.set_offset IndexWriter.SECTION_TEXT IndexWriter.create)) in
  IndexWriter.finalize 7 w1 = None
  /\ (forall t, IndexWriter.write_text 7 t w1 = None)
  /\ (forall bwt, IndexWriter.write_bwt 7 bwt w1 = None)
  /\ (forall c_array, IndexWriter.write_c_array 7 c_array w1 = None)
  /\ (forall bits_data super_data sub_data num_levels,
        IndexWriter.write_wavelet 7 bits_data super_data sub_data num_levels w1 = None)
  /\ (forall b veb, IndexWriter.write_veb_layout 7 (Some (b :: veb)) w1 = None).
Proof.
  apply (unaligned_text_blocks_the_file 7 pattern_ana IndexWriter.create).
  - reflexivity.
  - vm_compute. discriminate.
Defined.
